(** * UltiSnips snippet lexer: a shallow embedding of
      [plugin/UltiSnips/text_objects/_lexer.py] and the properties of its
      specification.

    Texts are Python 3 [str] values, sequences of Unicode code points: a
    character is modelled as its code point.  What the lexer takes from the
    library, [\d] and [\s] of [re], [int], [string.digits] and
    [str.splitlines], is modelled as CPython 3.11 has it (Unicode 14.0).  The
    text iterator is a mutable object: every function that receives [stream]
    is a computation over the iterator state which either returns a value or
    raises a Python exception, and in both cases leaves the iterator in the
    state it reached.  [while True] loops are run with an iteration budget
    taken from the number of characters left; the budget is shown to be
    sufficient ([tokenize_total]). *)

From Stdlib Require Import NArith Ascii String ZArith Bool Arith Lia List.
Import ListNotations.

Set Implicit Arguments.

(* ------------------------------------------------------------------ *)
(** ** Texts                                                           *)
(* ------------------------------------------------------------------ *)

(** A character: a Unicode code point. *)
Abbreviation char := N (only parsing).

(** A character below 256 is written as a literal, ["$"%char]. *)
Definition char_of_bytes (bs : list Byte.byte) : option N :=
  match bs with
  | [b] => Some (Byte.to_N b)
  | _ => None
  end.

Definition bytes_of_char (c : N) : option (list Byte.byte) :=
  match Byte.of_N c with
  | Some b => Some [b]
  | None => None
  end.

Declare Scope codepoint_scope.
String Notation N char_of_bytes bytes_of_char : codepoint_scope.
#[warnings="-hiding-delimiting-key"] Delimit Scope codepoint_scope with char.
Bind Scope codepoint_scope with N.

(** [c == d] on characters. *)
Definition char_eqb (c d : char) : bool := N.eqb c d.

Definition char_dec : forall c d : char, {c = d} + {c <> d} := N.eq_dec.

Definition text := list char.

(** A string literal as a text. *)
Fixpoint txt (s : string) : text :=
  match s with
  | EmptyString => []
  | String a s' => N_of_ascii a :: txt s'
  end.

Definition LF : char := 10%N.
Definition CR : char := 13%N.
Definition TAB : char := 9%N.
Definition backslash : char := "\"%char.

(** [t[i:j]] for [0 <= i], [0 <= j]: Python slices clamp to the text. *)
Definition slice (t : text) (i j : nat) : text := firstn (j - i) (skipn i t).

(** [x == y] on strings. *)
Fixpoint text_eqb (x y : text) : bool :=
  match x, y with
  | [], [] => true
  | a :: x', b :: y' => char_eqb a b && text_eqb x' y'
  | _, _ => false
  end.

Fixpoint startswith (p t : text) : bool :=
  match p, t with
  | [], _ => true
  | a :: p', b :: t' => char_eqb a b && startswith p' t'
  | _ :: _, [] => false
  end.

(** [x in y] on strings: [x] occurs in [y] as a substring. *)
Fixpoint str_in (x y : text) : bool :=
  startswith x y || match y with [] => false | _ :: y' => str_in x y' end.

(** [x in (y1, y2, ...)]: membership in a tuple of strings. *)
Definition in_tuple (x : text) (ys : list text) : bool := existsb (text_eqb x) ys.

(** [sep.join(parts)]. *)
Fixpoint join (sep : text) (parts : list text) : text :=
  match parts with
  | [] => []
  | [p] => p
  | p :: rest => p ++ sep ++ join sep rest
  end.

(** The line boundaries of [str.splitlines]: LF, VT, FF, CR, FS, GS, RS, NEL
    (U+0085), LINE SEPARATOR (U+2028) and PARAGRAPH SEPARATOR (U+2029); CR LF
    counts as one boundary. *)
Definition is_linebreak (c : char) : bool :=
  ((10 <=? c) && (c <=? 13) || (28 <=? c) && (c <=? 30) || (c =? 0x85) ||
   (c =? 0x2028) || (c =? 0x2029))%N.

(** [code.splitlines()]: the lines without their terminators; a terminator at
    the very end does not open another line, the empty text has no line. *)
Fixpoint splitlines_from (cur : text) (t : text) : list text :=
  match t with
  | [] => match cur with [] => [] | _ => [cur] end
  | c :: t' =>
      if is_linebreak c then
        cur :: match t' with
               | d :: t'' =>
                   if char_eqb c CR && char_eqb d LF
                   then splitlines_from [] t''
                   else splitlines_from [] t'
               | [] => splitlines_from [] t'
               end
      else splitlines_from (cur ++ [c]) t'
  end.

Definition splitlines (t : text) : list text := splitlines_from [] t.

(** [string.digits]. *)
Definition digits : text := txt "0123456789".

Definition is_digit (c : char) : bool := str_in [c] digits.

(** The decimal digits of Unicode (general category Nd, Unicode 14.0) come in
    runs of ten, zero to nine: the code points of the zeros. *)
Definition decimal_zeros : list N :=
  [ 0x30; 0x660; 0x6F0; 0x7C0; 0x966; 0x9E6; 0xA66; 0xAE6; 0xB66; 0xBE6;
    0xC66; 0xCE6; 0xD66; 0xDE6; 0xE50; 0xED0; 0xF20; 0x1040; 0x1090;
    0x17E0; 0x1810; 0x1946; 0x19D0; 0x1A80; 0x1A90; 0x1B50; 0x1BB0; 0x1C40;
    0x1C50; 0xA620; 0xA8D0; 0xA900; 0xA9D0; 0xA9F0; 0xAA50; 0xABF0; 0xFF10;
    0x104A0; 0x10D30; 0x11066; 0x110F0; 0x11136; 0x111D0; 0x112F0; 0x11450;
    0x114D0; 0x11650; 0x116C0; 0x11730; 0x118E0; 0x11950; 0x11C50; 0x11D50;
    0x11DA0; 0x16A60; 0x16AC0; 0x16B50; 0x1D7CE; 0x1D7D8; 0x1D7E2; 0x1D7EC;
    0x1D7F6; 0x1E140; 0x1E2F0; 0x1E950; 0x1FBF0 ]%N.

(** The value of a decimal digit; [None] for a character that is none. *)
Definition decimal_value (c : char) : option Z :=
  match find (fun z => (z <=? c)%N && (c <=? z + 9)%N) decimal_zeros with
  | Some z => Some (Z.of_N (c - z))
  | None => None
  end.

(** [\d] of the [re] module in a [str] pattern: any decimal digit, not only
    those of [string.digits]. *)
Definition is_decimal (c : char) : bool :=
  match decimal_value c with
  | Some _ => true
  | None => false
  end.

(** [\s] of the [re] module in a [str] pattern: the whitespace of Unicode,
    which is TAB, LF, VT, FF, CR, FS, GS, RS, US, the space, NEL (U+0085), the
    no-break space (U+00A0), U+1680, U+2000 to U+200A, U+2028, U+2029, U+202F,
    U+205F and U+3000. *)
Definition is_space (c : char) : bool :=
  ((9 <=? c) && (c <=? 13) || (28 <=? c) && (c <=? 32) || (c =? 0x85) ||
   (c =? 0xA0) || (c =? 0x1680) || (0x2000 <=? c) && (c <=? 0x200A) ||
   (c =? 0x2028) || (c =? 0x2029) || (c =? 0x202F) || (c =? 0x205F) ||
   (c =? 0x3000))%N.

(** [int(rv)] for a text [rv] of decimal digits; [None] stands for the
    [ValueError] that [int] raises: on the empty text, on a text of more than
    [max_str_digits] digits (the limit of [sys.get_int_max_str_digits()],
    leading zeros counted), and on a character that is no digit.  A sign,
    blanks around the number and underscores between digits, which [int]
    accepts as well, are not modelled: the lexer passes characters of
    [string.digits] only. *)
Fixpoint int_digits (acc : Z) (rv : text) : option Z :=
  match rv with
  | [] => Some acc
  | c :: rv' =>
      match decimal_value c with
      | Some v => int_digits (10 * acc + v) rv'
      | None => None
      end
  end.

Definition max_str_digits : Z := 4300.

Definition py_int (rv : text) : option Z :=
  match rv with
  | [] => None
  | _ =>
      if (max_str_digits <? Z.of_nat (length rv))%Z then None
      else int_digits 0 rv
  end.

(* ------------------------------------------------------------------ *)
(** ** Positions and the text iterator                                 *)
(* ------------------------------------------------------------------ *)

(** Modelled from the spec: [UltiSnips.geometry.Position] is not part of the
    sources at hand.  The spec gives it as a (line, column) coordinate; the
    lexer only builds positions and reads [line] and [col]. *)
Record Position := mkPosition { line : Z; col : Z }.

(** The position one character further, as [next] counts, and the position
    after a whole text has been consumed. *)
Definition step_position (p : Position) (c : char) : Position :=
  if char_eqb c LF
  then {| line := line p + 1; col := 0 |}
  else {| line := line p; col := col p + 1 |}.

Definition advance_position (p : Position) (consumed : text) : Position :=
  fold_left step_position consumed p.

(** Position order: by line, then by column. *)
Definition pos_le (p q : Position) : Prop :=
  (line p < line q \/ (line p = line q /\ col p <= col q))%Z.

(** Modelled from the spec: [UltiSnips.compatibility.as_unicode] is not part
    of the sources at hand; on a text that already is a unicode string it is
    the identity. *)
Definition as_unicode (t : text) : text := t.

(** class [_TextIterator]: the attributes of the object. *)
Record _TextIterator := mkTextIterator {
  _text : text;
  _line : Z;
  _col : Z;
  _idx : nat
}.

(** [_TextIterator.__init__]. *)
Definition _TextIterator__init__ (t : text) (offset : Position) : _TextIterator :=
  {| _text := as_unicode t; _line := line offset; _col := col offset; _idx := 0 |}.

(** The exceptions that the lexer can raise. *)
Inductive exn :=
| StopIteration
| RuntimeError (msg : string)
| IndexError
| ValueError
| TypeError
| AttributeError.

(** The outcome of running a piece of code on the iterator. [OutOfFuel] is
    not a Python outcome: it says that the iteration budget of a loop of the
    model was used up. *)
Inductive result (A : Type) :=
| Ok (a : A) (s : _TextIterator)
| Raise (e : exn) (s : _TextIterator)
| OutOfFuel.

Arguments Ok {A} a s.
Arguments Raise {A} e s.
Arguments OutOfFuel {A}.

Definition M (A : Type) := _TextIterator -> result A.

Definition ret {A} (a : A) : M A := fun s => Ok a s.

Definition raise {A} (e : exn) : M A := fun s => Raise e s.

Definition bind {A B} (m : M A) (k : A -> M B) : M B :=
  fun s =>
    match m s with
    | Ok a s' => k a s'
    | Raise e s' => Raise e s'
    | OutOfFuel => OutOfFuel
    end.

(** [try: m except ...: h e]. The handler re-raises what it does not catch. *)
Definition try_except {A} (m : M A) (h : exn -> M A) : M A :=
  fun s =>
    match m s with
    | Ok a s' => Ok a s'
    | Raise e s' => h e s'
    | OutOfFuel => OutOfFuel
    end.

Declare Scope lexer_scope.
Delimit Scope lexer_scope with lexer.
Notation "x <- m ;; k" := (bind m (fun x => k))
  (at level 61, m at next level, right associativity) : lexer_scope.
Notation "m ;;; k" := (bind m (fun _ => k))
  (at level 61, right associativity) : lexer_scope.
Open Scope lexer_scope.

(** [while True: body] with loop variables of type [A]: the body either goes
    round again with new loop variables ([inl]) or leaves the loop with a
    value ([inr]). *)
Fixpoint while_true {A B} (fuel : nat) (body : A -> M (A + B)) (a : A) : M B :=
  fun s =>
    match fuel with
    | O => OutOfFuel
    | S fuel' =>
        match body a s with
        | Ok (inl a') s' => while_true fuel' body a' s'
        | Ok (inr b) s' => Ok b s'
        | Raise e s' => Raise e s'
        | OutOfFuel => OutOfFuel
        end
    end.

(** The characters not yet consumed and their number. *)
Definition remaining (s : _TextIterator) : text := skipn (_idx s) (_text s).

(** A [while True] loop of a scanner: every round that goes round again
    consumes a character, so one round more than there are characters left
    is budget enough. *)
Definition loop {A B} (body : A -> M (A + B)) (a : A) : M B :=
  fun s => while_true (S (length (_text s) - _idx s)) body a s.

(** [for _ in range(n): m]. *)
Fixpoint for_range {A} (n : nat) (m : M A) : M unit :=
  match n with
  | O => ret tt
  | S n' => m ;;; for_range n' m
  end.

(** [seq[i]], raising [IndexError] out of range. *)
Definition getitem {A} (l : list A) (i : nat) : M A :=
  match nth_error l i with
  | Some a => ret a
  | None => raise IndexError
  end.

(** [_TextIterator.next]. *)
Definition next : M char :=
  fun s =>
    if length (_text s) <=? _idx s then Raise StopIteration s
    else
      match nth_error (_text s) (_idx s) with
      | None => Raise IndexError s
      | Some rv =>
          let '(l, c) :=
            if in_tuple [rv] [[LF]; [CR; LF]]
            then (_line s + 1, 0)%Z
            else (_line s, _col s + 1)%Z in
          Ok rv {| _text := _text s; _line := l; _col := c; _idx := _idx s + 1 |}
      end.

(** [_TextIterator.peek]: a string, or [None] (Python's [None]). *)
Definition peek (count : nat) : M (option text) :=
  fun s =>
    if 1 <? count then Ok (Some (slice (_text s) (_idx s) (_idx s + count))) s
    else
      try_except (c <- getitem (_text s) (_idx s) ;; ret (Some [c]))
                 (fun e => match e with
                           | IndexError => ret None
                           | _ => raise e
                           end) s.

(** [_TextIterator.pos]. *)
Definition pos : M Position :=
  fun s => Ok {| line := _line s; col := _col s |} s.

Definition position (s : _TextIterator) : Position :=
  {| line := _line s; col := _col s |}.

(* ------------------------------------------------------------------ *)
(** ** Shared scanners                                                 *)
(* ------------------------------------------------------------------ *)

(** [_unescape]. *)
Fixpoint _unescape (t : text) : text :=
  match t with
  | [] => []
  | c :: t' =>
      match t' with
      | d :: t'' => if char_eqb c backslash then d :: _unescape t'' else c :: _unescape t'
      | [] => [c]
      end
  end.

(** [EscapeCharToken.starts_here(stream, chars)]; the default of [chars] is
    [escapable]. *)
Definition escapable : text := txt "{}\$`".

Definition EscapeCharToken_starts_here (chars : text) : M bool :=
  cs <- peek 2 ;;
  match cs with
  | None => raise TypeError
  | Some cs =>
      match cs with
      | [c0; c1] => ret (char_eqb c0 backslash && str_in [c1] chars)
      | _ => ret false
      end
  end.

(** [_parse_number]. *)
Definition _parse_number_body (rv : text) : M (text + text) :=
  p <- peek 1 ;;
  match p with
  | None => ret (inr rv)
  | Some _ =>
      q <- peek 1 ;;
      match q with
      | None => raise TypeError
      | Some q => if str_in q digits
                  then (c <- next ;; ret (inl (rv ++ [c])))
                  else ret (inr rv)
      end
  end.

Definition _parse_number : M Z :=
  rv <- loop _parse_number_body [] ;;
  match py_int rv with
  | Some n => ret n
  | None => raise ValueError
  end.

(** [_parse_till_closing_brace]; the loop variables are [rv] and [in_braces]. *)
Definition _parse_till_closing_brace_body (v : text * Z) : M (text * Z + text) :=
  let '(rv, in_braces) := v in
  esc <- EscapeCharToken_starts_here (txt "{}") ;;
  if esc then
    (c0 <- next ;; c1 <- next ;; ret (inl (rv ++ [c0; c1], in_braces)))
  else
    (char <- next ;;
     let in_braces :=
       if char_eqb char "{" then (in_braces + 1)%Z
       else if char_eqb char "}" then (in_braces - 1)%Z
       else in_braces in
     if (in_braces =? 0)%Z then ret (inr rv)
     else ret (inl (rv ++ [char], in_braces))).

Definition _parse_till_closing_brace : M text :=
  loop _parse_till_closing_brace_body ([], 1%Z).

(** [_parse_till_unescaped_char]: the [for char in chars] loop, then the loop
    body around it. *)
Fixpoint escaped_pairs (chars : text) (v : text * bool) : M (text * bool) :=
  match chars with
  | [] => ret v
  | char :: chars' =>
      esc <- EscapeCharToken_starts_here [char] ;;
      if esc then
        (c0 <- next ;; c1 <- next ;; escaped_pairs chars' (fst v ++ [c0; c1], true))
      else escaped_pairs chars' v
  end.

Definition _parse_till_unescaped_char_body (chars : text) (rv : text)
  : M (text + text * char) :=
  v <- escaped_pairs chars (rv, false) ;;
  let '(rv, escaped) := v in
  if negb escaped then
    (char <- next ;;
     if str_in [char] chars then ret (inr (rv, char))
     else ret (inl (rv ++ [char])))
  else ret (inl rv).

Definition _parse_till_unescaped_char (chars : text) : M (text * char) :=
  loop (_parse_till_unescaped_char_body chars) [].

(* ------------------------------------------------------------------ *)
(** ** Tokens                                                          *)
(* ------------------------------------------------------------------ *)

(** The token classes. *)
Inductive token_class :=
| EscapeCharToken
| VisualToken
| TransformationToken
| TabStopToken
| MirrorToken
| PythonCodeToken
| VimLCodeToken
| ShellCodeToken
| EndOfTextToken.

(** The attributes that [_parse] sets on a token of each class. [None] in a
    Visual token is Python's [None]. *)
Inductive attributes :=
| EscapeChar (initial_text : text)
| Visual (alternative_text : text) (search replace options : option text)
| Transformation (number : Z) (search replace options : text)
| TabStop (number : Z) (initial_text : text)
| Mirror (number : Z)
| PythonCode (code : text) (indent : text)
| VimLCode (code : text)
| ShellCode (code : text)
| EndOfText.

(** class [Token]: [start] and [end] around what [_parse] sets. *)
Record Token := mkToken {
  start : Position;
  attrs : attributes;
  end_ : Position
}.

Definition class_of (a : attributes) : token_class :=
  match a with
  | EscapeChar _ => EscapeCharToken
  | Visual _ _ _ _ => VisualToken
  | Transformation _ _ _ _ => TransformationToken
  | TabStop _ _ => TabStopToken
  | Mirror _ => MirrorToken
  | PythonCode _ _ => PythonCodeToken
  | VimLCode _ => VimLCodeToken
  | ShellCode _ => ShellCodeToken
  | EndOfText => EndOfTextToken
  end.

(** [initial_text] is set to the empty text by [Token.__init__] and
    overwritten by the tab stop and the escaped character. *)
Definition initial_text (t : Token) : text :=
  match attrs t with
  | EscapeChar i => i
  | TabStop _ i => i
  | _ => as_unicode []
  end.

(** The longest run of decimal digits at the head of a text, as [\d+] takes
    it, and what follows. *)
Fixpoint span_digits (t : text) : text * text :=
  match t with
  | c :: t' =>
      if is_decimal c then let '(ds, r) := span_digits t' in (c :: ds, r)
      else ([], t)
  | [] => ([], [])
  end.

(** What a [\d+] at the head of [t] leaves for the rest of the pattern to
    match, if it matches at all. No digit is given back: none of the patterns
    continues with something a digit can match. *)
Definition after_digits (t : text) : option text :=
  match span_digits t with
  | ([], _) => None
  | (_ :: _, r) => Some r
  end.

Definition head_in (cs : text) (t : text) : bool :=
  match t with
  | c :: _ => str_in [c] cs
  | [] => false
  end.

(** [TabStopToken.CHECK]: [^\${\d+[:}]]. *)
Definition TabStopToken_CHECK (t : text) : bool :=
  match t with
  | c0 :: c1 :: r =>
      char_eqb c0 "$" && char_eqb c1 "{" &&
      match after_digits r with
      | Some r' => head_in (txt ":}") r'
      | None => false
      end
  | _ => false
  end.

(** [VisualToken.CHECK]: [^\${VISUAL[:}/]]. *)
Definition VisualToken_CHECK (t : text) : bool :=
  startswith (txt "${VISUAL") t && head_in (txt ":}/") (skipn 8 t).

(** [TransformationToken.CHECK]: [^\${\d+\/]. *)
Definition TransformationToken_CHECK (t : text) : bool :=
  match t with
  | c0 :: c1 :: r =>
      char_eqb c0 "$" && char_eqb c1 "{" &&
      match after_digits r with
      | Some r' => head_in (txt "/") r'
      | None => false
      end
  | _ => false
  end.

(** [MirrorToken.CHECK]: [^\$\d+]. *)
Definition MirrorToken_CHECK (t : text) : bool :=
  match t with
  | c0 :: r =>
      char_eqb c0 "$" &&
      match after_digits r with Some _ => true | None => false end
  | _ => false
  end.

(** [PythonCodeToken.CHECK]: [^`!p\s]. *)
Definition PythonCodeToken_CHECK (t : text) : bool :=
  startswith (txt "`!p") t &&
  match skipn 3 t with c :: _ => is_space c | [] => false end.

(** [VimLCodeToken.CHECK]: [^`!v\s]. *)
Definition VimLCodeToken_CHECK (t : text) : bool :=
  startswith (txt "`!v") t &&
  match skipn 3 t with c :: _ => is_space c | [] => false end.

(** [cls.CHECK.match(stream.peek(count)) is not None]. *)
Definition check_here (CHECK : text -> bool) (count : nat) : M bool :=
  p <- peek count ;;
  match p with
  | Some t => ret (CHECK t)
  | None => raise TypeError
  end.

(** [starts_here] of each class, as the driver calls it (the escaped
    character with its default set). [EndOfTextToken] inherits none. *)
Definition starts_here (cls : token_class) : M bool :=
  match cls with
  | EscapeCharToken => EscapeCharToken_starts_here escapable
  | VisualToken => check_here VisualToken_CHECK 10
  | TransformationToken => check_here TransformationToken_CHECK 10
  | TabStopToken => check_here TabStopToken_CHECK 10
  | MirrorToken => check_here MirrorToken_CHECK 10
  | PythonCodeToken => check_here PythonCodeToken_CHECK 4
  | VimLCodeToken => check_here VimLCodeToken_CHECK 4
  | ShellCodeToken =>
      p <- peek 1 ;;
      ret (match p with Some t => text_eqb t (txt "`") | None => false end)
  | EndOfTextToken => raise AttributeError
  end.

(** [if stream.peek() == ":": stream.next()]. *)
Definition skip_colon : M unit :=
  p <- peek 1 ;;
  match p with
  | Some t => if text_eqb t (txt ":") then (next ;;; ret tt) else ret tt
  | None => ret tt
  end.

(** [TabStopToken._parse]. *)
Definition TabStopToken_parse : M attributes :=
  next ;;;
  next ;;;
  number <- _parse_number ;;
  skip_colon ;;;
  initial_text <- _parse_till_closing_brace ;;
  ret (TabStop number initial_text).

Definition malformed_transformation : string :=
  "Invalid ${VISUAL} transformation! Forgot to escape a '/'?"%string.

(** The three scans of a transformation: search, replace, options. *)
Definition transformation_scans : M (text * text * text) :=
  search <- _parse_till_unescaped_char (txt "/") ;;
  replace <- _parse_till_unescaped_char (txt "/") ;;
  options <- _parse_till_closing_brace ;;
  ret (fst search, fst replace, options).

(** [VisualToken._parse] up to [if char == '/']: the alternative text,
    unescaped, and the character that ended its scan. *)
Definition VisualToken_alternative : M (text * char) :=
  for_range 8 next ;;;
  skip_colon ;;;
  scanned <- _parse_till_unescaped_char (txt "/}") ;;
  let '(alternative_text, char) := scanned in
  ret (_unescape alternative_text, char).

(** [VisualToken._parse]. *)
Definition VisualToken_parse : M attributes :=
  v <- VisualToken_alternative ;;
  let '(alternative_text, char) := v in
  if char_eqb char "/" then
    try_except
      (t <- transformation_scans ;;
       let '(search, replace, options) := t in
       ret (Visual alternative_text (Some search) (Some replace) (Some options)))
      (fun e => match e with
                | StopIteration => raise (RuntimeError malformed_transformation)
                | _ => raise e
                end)
  else ret (Visual alternative_text None None None).

(** [TransformationToken._parse] up to the slash after the number. *)
Definition TransformationToken_number : M Z :=
  next ;;;
  next ;;;
  number <- _parse_number ;;
  next ;;;
  ret number.

(** [TransformationToken._parse]. *)
Definition TransformationToken_parse : M attributes :=
  number <- TransformationToken_number ;;
  t <- transformation_scans ;;
  let '(search, replace, options) := t in
  ret (Transformation number search replace options).

(** [MirrorToken._parse]. *)
Definition MirrorToken_parse : M attributes :=
  next ;;;
  number <- _parse_number ;;
  ret (Mirror number).

(** [EscapeCharToken._parse]. *)
Definition EscapeCharToken_parse : M attributes :=
  next ;;;
  c <- next ;;
  ret (EscapeChar [c]).

(** [ShellCodeToken._parse]. *)
Definition ShellCodeToken_parse : M attributes :=
  next ;;;
  scanned <- _parse_till_unescaped_char (txt "`") ;;
  ret (ShellCode (fst scanned)).

(** The indent stripping of [PythonCodeToken._parse], entered when
    [len(indent)] is not zero. *)
Definition strip_indent (indent code : text) : M text :=
  let lines := splitlines code in
  first <- getitem lines 0 ;;
  let code := first ++ [LF] in
  ret (code ++ join [LF] (map (fun l => skipn (length indent) l) (tl lines))).

(** The scan of [PythonCodeToken._parse] up to the closing backtick. *)
Definition PythonCodeToken_scan : M text :=
  for_range 3 next ;;;
  p <- peek 1 ;;
  match p with
  | None => raise TypeError
  | Some t => if str_in t [TAB; " "%char] then (next ;;; ret tt) else ret tt
  end ;;;
  scanned <- _parse_till_unescaped_char (txt "`") ;;
  ret (fst scanned).

(** [PythonCodeToken._parse]. *)
Definition PythonCodeToken_parse (indent : text) : M attributes :=
  code <- PythonCodeToken_scan ;;
  code <- (if negb (length indent =? 0) then strip_indent indent code else ret code) ;;
  ret (PythonCode code indent).

(** [VimLCodeToken._parse]. *)
Definition VimLCodeToken_parse : M attributes :=
  for_range 4 next ;;;
  scanned <- _parse_till_unescaped_char (txt "`") ;;
  ret (VimLCode (fst scanned)).

(** [_parse] of each class; [Token._parse] itself does nothing. *)
Definition _parse (cls : token_class) (indent : text) : M attributes :=
  match cls with
  | EscapeCharToken => EscapeCharToken_parse
  | VisualToken => VisualToken_parse
  | TransformationToken => TransformationToken_parse
  | TabStopToken => TabStopToken_parse
  | MirrorToken => MirrorToken_parse
  | PythonCodeToken => PythonCodeToken_parse indent
  | VimLCodeToken => VimLCodeToken_parse
  | ShellCodeToken => ShellCodeToken_parse
  | EndOfTextToken => ret EndOfText
  end.

(** [Token.__init__]. *)
Definition Token__init__ (cls : token_class) (indent : text) : M Token :=
  start <- pos ;;
  a <- _parse cls indent ;;
  end_ <- pos ;;
  ret {| start := start; attrs := a; end_ := end_ |}.

(* ------------------------------------------------------------------ *)
(** ** The driver                                                      *)
(* ------------------------------------------------------------------ *)

Definition __ALLOWED_TOKENS : list token_class :=
  [ EscapeCharToken; VisualToken; TransformationToken; TabStopToken;
    MirrorToken; PythonCodeToken; VimLCodeToken; ShellCodeToken ].

(** [for token in classes: if token.starts_here(stream): yield token(stream,
    indent); done_something = True; break].  The value is the token to yield,
    or [None] when the loop ran through ([done_something] is still false). *)
Fixpoint try_tokens (classes : list token_class) (indent : text) : M (option Token) :=
  match classes with
  | [] => ret None
  | token :: classes' =>
      here <- starts_here token ;;
      if here then (t <- Token__init__ token indent ;; ret (Some t))
      else try_tokens classes' indent
  end.

(** One round of the [while True] loop of [tokenize]: the token it yields,
    or the character it drops. *)
Definition tokenize_round (indent : text) : M (Token + char) :=
  done_something <- try_tokens __ALLOWED_TOKENS indent ;;
  match done_something with
  | Some t => ret (inl t)
  | None => c <- next ;; ret (inr c)
  end.

(** What a run of the generator does, in order.  The indices are those of the
    iterator before and after: a token does not record which characters it
    was parsed from, the indices do.
    - [Yielded t i j]: [t] was yielded, parsed from [_text[i:j]];
    - [Discarded c]: no class started here, [c] was consumed and dropped;
    - [Caught i j]: the round that began at index [i] raised [StopIteration]
      with the iterator at [j], and the driver caught it. *)
Inductive event :=
| Yielded (t : Token) (i j : nat)
| Discarded (c : char)
| Caught (i j : nat).

(** How the generator ends: it returns, or an exception leaves it.
    [Diverged] is the model's budget running out. *)
Inductive outcome :=
| Finished
| Aborted (e : exn)
| Diverged.

Fixpoint tokenize_loop (fuel : nat) (indent : text) (stream : _TextIterator)
  : list event * outcome :=
  match fuel with
  | O => ([], Diverged)
  | S fuel' =>
      match tokenize_round indent stream with
      | Ok (inl t) stream' =>
          let '(evs, o) := tokenize_loop fuel' indent stream' in
          (Yielded t (_idx stream) (_idx stream') :: evs, o)
      | Ok (inr c) stream' =>
          let '(evs, o) := tokenize_loop fuel' indent stream' in
          (Discarded c :: evs, o)
      | Raise StopIteration stream' =>
          match Token__init__ EndOfTextToken indent stream' with
          | Ok t stream'' =>
              ([Caught (_idx stream) (_idx stream');
                Yielded t (_idx stream') (_idx stream'')], Finished)
          | Raise e _ => ([Caught (_idx stream) (_idx stream')], Aborted e)
          | OutOfFuel => ([Caught (_idx stream) (_idx stream')], Diverged)
          end
      | Raise e _ => ([], Aborted e)
      | OutOfFuel => ([], Diverged)
      end
  end.

(** [tokenize], with everything the run does. *)
Definition tokenize_trace (t indent : text) (offset : Position) : list event * outcome :=
  let stream := _TextIterator__init__ t offset in
  tokenize_loop (S (length (_text stream))) indent stream.

Fixpoint yielded (evs : list event) : list Token :=
  match evs with
  | [] => []
  | Yielded t _ _ :: evs' => t :: yielded evs'
  | _ :: evs' => yielded evs'
  end.

(** [tokenize]: the tokens the generator yields, and how it ends. *)
Definition tokenize (t indent : text) (offset : Position) : list Token * outcome :=
  let '(evs, o) := tokenize_trace t indent offset in (yielded evs, o).

(** The characters of the input that an event accounts for. *)
Definition consumed (t : text) (ev : event) : text :=
  match ev with
  | Yielded _ i j => slice t i j
  | Discarded c => [c]
  | Caught i j => slice t i j
  end.

Definition origin : Position := {| line := 0; col := 0 |}.

(* ------------------------------------------------------------------ *)
(** ** Runs of the driver as a relation                                *)
(* ------------------------------------------------------------------ *)

(** [run indent s evs o]: started with the iterator in state [s], the loop of
    [tokenize] does [evs] and ends as [o]. *)
Inductive run (indent : text) : _TextIterator -> list event -> outcome -> Prop :=
| run_yield s t s' evs o :
    tokenize_round indent s = Ok (inl t) s' ->
    run indent s' evs o ->
    run indent s (Yielded t (_idx s) (_idx s') :: evs) o
| run_discard s c s' evs o :
    tokenize_round indent s = Ok (inr c) s' ->
    run indent s' evs o ->
    run indent s (Discarded c :: evs) o
| run_end s s' t s'' :
    tokenize_round indent s = Raise StopIteration s' ->
    Token__init__ EndOfTextToken indent s' = Ok t s'' ->
    run indent s [Caught (_idx s) (_idx s'); Yielded t (_idx s') (_idx s'')] Finished
| run_abort s e s' :
    tokenize_round indent s = Raise e s' ->
    e <> StopIteration ->
    run indent s [] (Aborted e).

(** [drives indent s evs s']: the loop, started in state [s], does [evs] in
    complete rounds and is then at the top of a round in state [s']. *)
Inductive drives (indent : text) : _TextIterator -> list event -> _TextIterator -> Prop :=
| drives_here s : drives indent s [] s
| drives_yield s t s' evs s'' :
    tokenize_round indent s = Ok (inl t) s' ->
    drives indent s' evs s'' ->
    drives indent s (Yielded t (_idx s) (_idx s') :: evs) s''
| drives_discard s c s' evs s'' :
    tokenize_round indent s = Ok (inr c) s' ->
    drives indent s' evs s'' ->
    drives indent s (Discarded c :: evs) s''.

(** The first class of [classes], in order, whose [starts_here] holds in [s]. *)
Definition first_match (classes : list token_class) (s : _TextIterator)
  (cls : token_class) : Prop :=
  exists before after,
    classes = before ++ cls :: after /\
    (forall c, In c before -> starts_here c s = Ok false s) /\
    starts_here cls s = Ok true s.

Definition no_match (classes : list token_class) (s : _TextIterator) : Prop :=
  forall c, In c classes -> starts_here c s = Ok false s.

(** A computation seen from the driver: its value tagged, its exception
    passed on. *)
Definition passing {A B} (f : A -> B) (r : result A) : result B :=
  match r with
  | Ok a s => Ok (f a) s
  | Raise e s => Raise e s
  | OutOfFuel => OutOfFuel
  end.

(* ------------------------------------------------------------------ *)
(** ** Invariants of computations on the iterator                      *)
(* ------------------------------------------------------------------ *)

(** The index never passes the end of the text. *)
Definition wf (s : _TextIterator) : Prop := _idx s <= length (_text s).

(** From [s] to [s'] the iterator only moved forward in the same text, and
    its position moved with the characters in between. *)
Definition advances (s s' : _TextIterator) : Prop :=
  _text s' = _text s /\ _idx s <= _idx s' /\ wf s' /\
  pos_le (position s) (position s') /\
  position s' = advance_position (position s) (slice (_text s) (_idx s) (_idx s')).

(** A computation that only moves the iterator forward, raises
    [StopIteration] only at the end of the text, and stays within the budget
    of its loops. *)
Definition sound {A} (m : M A) : Prop :=
  forall s, wf s ->
    match m s with
    | Ok _ s' => advances s s'
    | Raise e s' => advances s s' /\ (e = StopIteration -> _idx s' = length (_text s'))
    | OutOfFuel => False
    end.

(** A computation that consumes at least one character when it returns. *)
Definition consuming {A} (m : M A) : Prop :=
  forall s, wf s ->
    match m s with
    | Ok _ s' => _idx s < _idx s'
    | _ => True
    end.

(** A loop body that consumes at least one character when it goes round. *)
Definition progressing {A B} (m : M (A + B)) : Prop :=
  forall s, wf s ->
    match m s with
    | Ok (inl _) s' => _idx s < _idx s'
    | _ => True
    end.

(* ------------------------------------------------------------------ *)
(** ** Notions of the specification                                    *)
(* ------------------------------------------------------------------ *)

Definition is_EndOfText (t : Token) : Prop := attrs t = EndOfText.

(** Spans that do not overlap and do not go back: every token ends no
    earlier than it starts, and starts no earlier than every token yielded
    before it ends. *)
Definition spans_ordered (toks : list Token) : Prop :=
  (forall t, In t toks -> pos_le (start t) (end_ t)) /\
  (forall i j ti tj, i < j ->
     nth_error toks i = Some ti -> nth_error toks j = Some tj ->
     pos_le (end_ ti) (start tj)).

(** Tokens in a chain from position [p] on: each starts no earlier than the
    one before ended ([p] for the first) and ends no earlier than it starts. *)
Fixpoint chain (p : Position) (toks : list Token) : Prop :=
  match toks with
  | [] => True
  | t :: toks' => pos_le p (start t) /\ pos_le (start t) (end_ t) /\ chain (end_ t) toks'
  end.

(** The text that the yielded tokens and the dropped characters account for,
    in order. *)
Fixpoint spans_and_discards (t : text) (evs : list event) : text :=
  match evs with
  | [] => []
  | Caught _ _ :: evs' => spans_and_discards t evs'
  | ev :: evs' => consumed t ev ++ spans_and_discards t evs'
  end.

(** The position of index [i] of the text, counted from [offset]. *)
Definition position_at (offset : Position) (t : text) (i : nat) : Position :=
  advance_position offset (firstn i t).

(** The indices of a yielded token are those of its span: its [start] and
    [end] are the positions of the two indices. *)
Definition span_recorded (offset : Position) (t : text) (ev : event) : Prop :=
  match ev with
  | Yielded tok i j =>
      i <= j /\ j <= length t /\
      start tok = position_at offset t i /\ end_ tok = position_at offset t j
  | _ => True
  end.

(** The same with what a round cut short by the end of the input consumed. *)
Definition all_consumed (t : text) (evs : list event) : text :=
  concat (map (consumed t) evs).

(** What [peek] returns: it never raises and leaves the iterator as it is. *)
Definition peek_value (count : nat) (s : _TextIterator) : option text :=
  if 1 <? count then Some (firstn count (remaining s))
  else match remaining s with
       | c :: _ => Some [c]
       | [] => None
       end.

(** What [starts_here] of a class of the driver returns. *)
Definition starts_here_value (cls : token_class) (s : _TextIterator) : bool :=
  match cls with
  | EscapeCharToken =>
      match firstn 2 (remaining s) with
      | [c0; c1] => char_eqb c0 backslash && str_in [c1] escapable
      | _ => false
      end
  | VisualToken => VisualToken_CHECK (firstn 10 (remaining s))
  | TransformationToken => TransformationToken_CHECK (firstn 10 (remaining s))
  | TabStopToken => TabStopToken_CHECK (firstn 10 (remaining s))
  | MirrorToken => MirrorToken_CHECK (firstn 10 (remaining s))
  | PythonCodeToken => PythonCodeToken_CHECK (firstn 4 (remaining s))
  | VimLCodeToken => VimLCodeToken_CHECK (firstn 4 (remaining s))
  | ShellCodeToken =>
      match remaining s with
      | c :: _ => text_eqb [c] (txt "`")
      | [] => false
      end
  | EndOfTextToken => false
  end.

(** The characters that a [peek] returned; [None] is no character. *)
Definition peeked (r : option text) : text :=
  match r with
  | Some cs => cs
  | None => []
  end.

(** The driver as the specification words it: in every state, the first
    class whose predicate holds yields a token of its own. *)
Definition first_match_yields : Prop :=
  forall indent s cls,
    wf s -> first_match __ALLOWED_TOKENS s cls ->
    exists t s', tokenize_round indent s = Ok (inl t) s' /\ class_of (attrs t) = cls.

(** The reconstruction as the specification words it: unless the run is
    aborted as a malformed transformation, the spans of the yielded tokens and
    the dropped characters make up the input. *)
Definition reconstructs_as_specified (t indent : text) (offset : Position) : Prop :=
  forall evs o,
    tokenize_trace t indent offset = (evs, o) ->
    (forall msg, o <> Aborted (RuntimeError msg)) ->
    spans_and_discards t evs = t /\ spans_ordered (yielded evs).

(** Exactly one [EndOfText] token, in the last place. *)
Definition one_EndOfText_last (toks : list Token) : Prop :=
  exists before last,
    toks = before ++ [last] /\ is_EndOfText last /\
    Forall (fun t => ~ is_EndOfText t) before.

(** The dedent as the specification words it: the first line as it is, every
    later line without exactly [len(indent)] leading characters, the lines
    joined by newlines. *)
Definition dedent_as_specified (indent code dedented : text) : Prop :=
  exists first rest rest',
    splitlines code = first :: rest /\
    Forall2 (fun l l' => exists p, length p = length indent /\ l = p ++ l') rest rest' /\
    dedented = join [LF] (first :: rest').

(** The single line as the specification words it: when the scanned code is
    one line, a non-empty indent gives that line with a newline appended and
    the empty indent gives the line without a trailing newline. *)
Definition single_line_as_specified : Prop :=
  forall indent s code s' line,
    PythonCodeToken_scan s = Ok code s' ->
    splitlines code = [line] ->
    (indent <> [] ->
     PythonCodeToken_parse indent s = Ok (PythonCode (line ++ [LF]) indent) s') /\
    PythonCodeToken_parse [] s = Ok (PythonCode line []) s'.


(** The brace depth that [_parse_till_closing_brace] keeps, over a text
    without escapes: one up at an opening brace, one down at a closing one. *)
Definition brace_step (depth : Z) (c : char) : Z :=
  if char_eqb c "{" then (depth + 1)%Z
  else if char_eqb c "}" then (depth - 1)%Z
  else depth.

Definition brace_depth (depth : Z) (body : text) : Z := fold_left brace_step body depth.

(** The depth does not come down to zero anywhere in [body]. *)
Fixpoint open_throughout (depth : Z) (body : text) : bool :=
  match body with
  | [] => true
  | c :: body' =>
      negb (brace_step depth c =? 0)%Z && open_throughout (brace_step depth c) body'
  end.

(** A text without backslash, hence without escapes. *)
Definition plain (body : text) : bool :=
  forallb (fun c => negb (char_eqb c backslash)) body.

(** A text that the balanced-brace scan takes whole: entered at depth
    [depth] in front of [body] and a closing brace, the scan stops at that
    brace.  Read from the left, a backslash with a brace behind it is an
    escaped brace and leaves the depth as it is; every other character counts
    as [brace_step] says; the depth does not come down to zero within [body]
    and is one at its end; [body] does not end in a backslash that would
    escape the closing brace. *)
Fixpoint brace_scanned (depth : Z) (body : text) : bool :=
  match body with
  | [] => (depth =? 1)%Z
  | c :: body' =>
      match body' with
      | d :: body'' =>
          if char_eqb c backslash && str_in [d] (txt "{}")
          then brace_scanned depth body''
          else negb (brace_step depth c =? 0)%Z &&
               brace_scanned (brace_step depth c) body'
      | [] => negb (char_eqb c backslash) && (brace_step depth c =? 1)%Z
      end
  end.

(** A text that the delimiter scan for [chars] takes whole: in front of
    [body] and a stop character, the scan stops at that character.  Read from
    the left, a backslash with a stop character behind it is an escaped stop
    character; no other character of [body] is a stop character; [body] does
    not end in a backslash that would escape the stop character behind it. *)
Fixpoint delimiter_scanned (chars : text) (body : text) : bool :=
  match body with
  | [] => true
  | c :: body' =>
      match body' with
      | d :: body'' =>
          if char_eqb c backslash && str_in [d] chars
          then delimiter_scanned chars body''
          else negb (str_in [c] chars) && delimiter_scanned chars body'
      | [] => negb (char_eqb c backslash) && negb (str_in [c] chars)
      end
  end.

(** The number that a digit run denotes. *)
Definition number_of (ds : text) : Z :=
  fold_left (fun acc c => (10 * acc + (Z.of_N c - 48))%Z) ds 0%Z.

(* ------------------------------------------------------------------ *)
(** ** Further notions                                                 *)
(* ------------------------------------------------------------------ *)

(** The characters that the iterator consumed from state [s] to state [s']. *)
Definition consumed_between (s s' : _TextIterator) : text :=
  slice (_text s) (_idx s) (_idx s').

(** A computation whose exceptions all satisfy [P]. *)
Definition raises_only {A} (P : exn -> Prop) (m : M A) : Prop :=
  forall s e s', m s = Raise e s' -> P e.

(** A text with a backslash put in front of every character. *)
Definition escape_all (t : text) : text :=
  flat_map (fun c => [backslash; c]) t.

(** The characters that a recognizer can start at. *)
Definition token_starter (c : char) : bool :=
  char_eqb c "$" || char_eqb c backslash || char_eqb c "`".

(** A text without any of the characters [chars]. *)
Definition without (chars : text) (body : text) : bool :=
  forallb (fun c => negb (str_in [c] chars)) body.

(** The number of newlines in a text. *)
Definition newlines (t : text) : nat := count_occ char_dec t LF.

(** The outcome of a delimiter scan with [p] put in front of the text it
    returns. *)
Definition prefixed (p : text) (r : result (text * char)) : result (text * char) :=
  match r with
  | Ok (rv, c) s => Ok (p ++ rv, c) s
  | Raise e s => Raise e s
  | OutOfFuel => OutOfFuel
  end.

(** A decimal digit for [\d] that is none of [string.digits]. *)
Definition other_decimal (c : char) : bool := is_decimal c && negb (is_digit c).

(** The exceptions that can leave [tokenize] on the text [t]: the malformed
    transformation of a Visual token; the [IndexError] of the indent
    stripping, which is only entered with a non-empty indent; and the
    [ValueError] of [int], which needs a decimal digit that is none of
    [string.digits] or more than [max_str_digits] characters in [t]. *)
Definition may_abort (t indent : text) (e : exn) : Prop :=
  e = RuntimeError malformed_transformation \/
  (e = IndexError /\ indent <> []) \/
  (e = ValueError /\
   (existsb other_decimal t = true \/ (max_str_digits < Z.of_nat (length t))%Z)).

(** Two outcomes with the same value or the same exception, in iterator
    states that are related by [R]. *)
Definition same_result {A} (R : _TextIterator -> _TextIterator -> Prop)
  (r1 r2 : result A) : Prop :=
  match r1, r2 with
  | Ok a s1, Ok b s2 => a = b /\ R s1 s2
  | Raise e1 s1, Raise e2 s2 => e1 = e2 /\ R s1 s2
  | OutOfFuel, OutOfFuel => True
  | _, _ => False
  end.

(** A computation that cannot tell iterator states related by [R] apart. *)
Definition respects {A} (R : _TextIterator -> _TextIterator -> Prop) (m : M A) : Prop :=
  forall s1 s2, R s1 s2 -> same_result R (m s1) (m s2).

(** Two iterators with the same characters ahead at the same position; the
    characters behind them may differ. *)
Definition same_ahead (s1 s2 : _TextIterator) : Prop :=
  remaining s1 = remaining s2 /\ position s1 = position s2.

(** Two iterators at the same index of the same text; their positions may
    differ. *)
Definition same_place (s1 s2 : _TextIterator) : Prop :=
  _text s1 = _text s2 /\ _idx s1 = _idx s2.

(* ------------------------------------------------------------------ *)
(** ** Lemmas on texts                                                 *)
(* ------------------------------------------------------------------ *)

(** Literal texts are made lists of characters by computation. *)
Ltac txt_literals :=
  repeat match goal with
         | |- context [txt ?s] =>
             let v := eval vm_compute in (txt s) in progress change (txt s) with v
         end.

Ltac txt_literals_in H :=
  repeat match type of H with
         | context [txt ?s] =>
             let v := eval vm_compute in (txt s) in progress change (txt s) with v in H
         end.

Lemma char_eqb_eq c d : char_eqb c d = true <-> c = d.
Proof. apply N.eqb_eq. Qed.

Lemma char_eqb_neq c d : char_eqb c d = false <-> c <> d.
Proof. apply N.eqb_neq. Qed.

Lemma char_eqb_refl c : char_eqb c c = true.
Proof. apply N.eqb_refl. Qed.

Lemma char_eqb_sym c d : char_eqb c d = char_eqb d c.
Proof. apply N.eqb_sym. Qed.

Lemma nth_error_skipn_cons (A : Type) (l : list A) i a :
  nth_error l i = Some a -> skipn i l = a :: skipn (S i) l.
Proof.
  revert i; induction l as [|b l IH]; intros [|i] H; simpl in *; try discriminate.
  - now inversion H.
  - now apply IH.
Qed.

Lemma nth_error_skipn_nil (A : Type) (l : list A) i :
  nth_error l i = None -> skipn i l = [].
Proof.
  intros H. apply nth_error_None in H. now apply skipn_all2.
Qed.

Lemma slice_from (t : text) i n : slice t i (i + n) = firstn n (skipn i t).
Proof. unfold slice. now replace (i + n - i) with n by lia. Qed.

Lemma slice_skipn (t : text) i j :
  i <= j -> slice t i j ++ skipn j t = skipn i t.
Proof.
  intros H. unfold slice.
  replace (skipn j t) with (skipn (j - i) (skipn i t)).
  - apply firstn_skipn.
  - rewrite skipn_skipn. f_equal. lia.
Qed.

Lemma slice_same (t : text) i : slice t i i = [].
Proof. unfold slice. now rewrite Nat.sub_diag. Qed.

Lemma text_eqb_eq x y : text_eqb x y = true <-> x = y.
Proof.
  revert y; induction x as [|a x IH]; intros [|b y]; simpl; split; intros H;
    try reflexivity; try discriminate.
  - apply andb_true_iff in H as [H1 H2]. apply char_eqb_eq in H1. apply IH in H2.
    now subst.
  - inversion H; subst. apply andb_true_iff. split.
    + apply char_eqb_refl.
    + now apply IH.
Qed.

Lemma str_in_char c (y : text) : str_in [c] y = existsb (char_eqb c) y.
Proof.
  induction y as [|b y IH]; simpl; [reflexivity|].
  rewrite IH. now destruct (char_eqb c b).
Qed.

(* ------------------------------------------------------------------ *)
(** ** Lemmas on the order of positions                                *)
(* ------------------------------------------------------------------ *)

Lemma pos_le_refl p : pos_le p p.
Proof. unfold pos_le. lia. Qed.

Lemma pos_le_trans p q r : pos_le p q -> pos_le q r -> pos_le p r.
Proof. unfold pos_le. lia. Qed.

Lemma firstn_plus (A : Type) a b (l : list A) :
  firstn (a + b) l = firstn a l ++ firstn b (skipn a l).
Proof.
  revert l. induction a as [|a IH]; intros [|x l]; simpl; try reflexivity.
  - now rewrite firstn_nil.
  - now rewrite IH.
Qed.

Lemma slice_app (t : text) i j k :
  i <= j -> j <= k -> slice t i k = slice t i j ++ slice t j k.
Proof.
  intros Hij Hjk. unfold slice.
  replace (k - i) with ((j - i) + (k - j)) by lia.
  rewrite firstn_plus, skipn_skipn. do 3 f_equal. lia.
Qed.

Lemma advance_position_app p (t u : text) :
  advance_position p (t ++ u) = advance_position (advance_position p t) u.
Proof. apply fold_left_app. Qed.

Lemma advances_refl s : wf s -> advances s s.
Proof.
  intros H. repeat split; auto using pos_le_refl.
  now rewrite slice_same.
Qed.

Lemma advances_trans s1 s2 s3 : advances s1 s2 -> advances s2 s3 -> advances s1 s3.
Proof.
  intros (T1 & I1 & W1 & P1 & A1) (T2 & I2 & W2 & P2 & A2). repeat split.
  - congruence.
  - lia.
  - exact W2.
  - eapply pos_le_trans; eauto.
  - rewrite (slice_app _ I1 I2), advance_position_app, <- A1, <- T1. exact A2.
Qed.

Lemma advances_wf s s' : advances s s' -> wf s'.
Proof. now intros (_ & _ & W & _). Qed.

(* ------------------------------------------------------------------ *)
(** ** Soundness of the monad operations and of the iterator           *)
(* ------------------------------------------------------------------ *)

Create HintDb lexer.

Lemma sound_ret A (a : A) : sound (ret a).
Proof. intros s W. now apply advances_refl. Qed.

Lemma sound_raise A (e : exn) : e <> StopIteration -> sound (@raise A e).
Proof.
  intros Hne s W. simpl. split; [now apply advances_refl | intros E; contradiction].
Qed.

Lemma sound_bind A B (m : M A) (k : A -> M B) :
  sound m -> (forall a, sound (k a)) -> sound (bind m k).
Proof.
  intros Hm Hk s W. unfold bind. specialize (Hm s W).
  destruct (m s) as [a s1|e s1|]; auto.
  specialize (Hk a s1 (advances_wf Hm)).
  destruct (k a s1) as [b s2|e s2|]; auto.
  - eapply advances_trans; eauto.
  - destruct Hk as [Hadv Hstop]. split; auto. eapply advances_trans; eauto.
Qed.

Lemma sound_try_except A (m : M A) (h : exn -> M A) :
  sound m -> (forall e, sound (h e)) -> sound (try_except m h).
Proof.
  intros Hm Hh s W. unfold try_except. specialize (Hm s W).
  destruct (m s) as [a s1|e s1|]; auto.
  destruct Hm as [Hadv _].
  specialize (Hh e s1 (advances_wf Hadv)).
  destruct (h e s1) as [b s2|e2 s2|]; auto.
  - eapply advances_trans; eauto.
  - destruct Hh as [Hadv2 Hstop]. split; auto. eapply advances_trans; eauto.
Qed.

Lemma next_Ok s c s' :
  next s = Ok c s' ->
  nth_error (_text s) (_idx s) = Some c /\
  _text s' = _text s /\ _idx s' = S (_idx s) /\
  (c = LF -> _line s' = (_line s + 1)%Z /\ _col s' = 0%Z) /\
  (c <> LF -> _line s' = _line s /\ _col s' = (_col s + 1)%Z).
Proof.
  unfold next. destruct (length (_text s) <=? _idx s); [discriminate|].
  destruct (nth_error (_text s) (_idx s)) as [rv|] eqn:E; [|discriminate].
  unfold in_tuple; simpl. rewrite !andb_false_r, !orb_false_r, andb_true_r.
  destruct (char_eqb rv LF) eqn:Erv; intros H; inversion H; subst; simpl.
  - apply char_eqb_eq in Erv. subst c.
    split; [reflexivity|]. split; [reflexivity|]. split; [lia|]. split.
    + intros _. split; reflexivity.
    + intros F. now contradiction F.
  - apply char_eqb_neq in Erv.
    split; [reflexivity|]. split; [reflexivity|]. split; [lia|]. split.
    + intros F. contradiction.
    + intros _. split; reflexivity.
Qed.

Lemma next_Raise s e s' :
  next s = Raise e s' -> wf s -> e = StopIteration /\ s' = s /\ _idx s = length (_text s).
Proof.
  unfold next, wf. destruct (length (_text s) <=? _idx s) eqn:E.
  - intros H W. inversion H; subst. apply Nat.leb_le in E. repeat split; lia.
  - apply Nat.leb_gt in E.
    destruct (nth_error (_text s) (_idx s)) as [rv|] eqn:En.
    + destruct (in_tuple _ _); discriminate.
    + apply nth_error_None in En. lia.
Qed.

Lemma next_not_OutOfFuel s : next s <> OutOfFuel.
Proof.
  unfold next. destruct (length (_text s) <=? _idx s); [discriminate|].
  destruct (nth_error _ _); [|discriminate]. destruct (in_tuple _ _); discriminate.
Qed.

Lemma sound_next : sound next.
Proof.
  intros s W. destruct (next s) as [c s'|e s'|] eqn:E.
  - apply next_Ok in E as (Hn & Ht & Hi & Hlf & Hnlf).
    assert (_idx s < length (_text s)) by (apply nth_error_Some; congruence).
    assert (Hs : slice (_text s) (_idx s) (_idx s') = [c]).
    { rewrite Hi. replace (S (_idx s)) with (_idx s + 1) by lia.
      rewrite slice_from, (nth_error_skipn_cons _ _ Hn). reflexivity. }
    repeat split; auto; unfold wf; try lia.
    + rewrite Ht. lia.
    + unfold pos_le, position; simpl.
      destruct (char_dec c LF) as [Hc|Hc]; [apply Hlf in Hc | apply Hnlf in Hc]; lia.
    + rewrite Hs. unfold advance_position, step_position, position. simpl.
      destruct (char_eqb c LF) eqn:Ec.
      * apply char_eqb_eq in Ec. destruct (Hlf Ec) as [-> ->]. reflexivity.
      * apply char_eqb_neq in Ec. destruct (Hnlf Ec) as [-> ->]. reflexivity.
  - apply next_Raise in E as (-> & -> & Hi); auto. split; auto using advances_refl.
  - now apply next_not_OutOfFuel in E.
Qed.

Lemma consuming_next : consuming next.
Proof.
  intros s W. destruct (next s) as [c s'|e s'|] eqn:E; auto.
  apply next_Ok in E as (_ & _ & Hi & _). lia.
Qed.

Lemma peek_spec count s : peek count s = Ok (peek_value count s) s.
Proof.
  unfold peek, peek_value, remaining. destruct (1 <? count).
  - now rewrite slice_from.
  - unfold try_except, bind, getitem.
    destruct (nth_error (_text s) (_idx s)) as [c|] eqn:E; simpl.
    + now rewrite (nth_error_skipn_cons _ _ E).
    + now rewrite (nth_error_skipn_nil _ _ E).
Qed.

Lemma sound_peek count : sound (peek count).
Proof. intros s W. rewrite peek_spec. now apply advances_refl. Qed.

Lemma sound_pos : sound pos.
Proof. intros s W. now apply advances_refl. Qed.

Lemma sound_getitem A (l : list A) i : sound (getitem l i).
Proof.
  unfold getitem. destruct (nth_error l i).
  - apply sound_ret.
  - apply sound_raise. discriminate.
Qed.

Lemma sound_for_range A n (m : M A) : sound m -> sound (for_range n m).
Proof.
  intros Hm. induction n as [|n IH]; simpl.
  - apply sound_ret.
  - apply sound_bind; auto.
Qed.

Lemma consuming_bind_l A B (m : M A) (k : A -> M B) :
  consuming m -> sound m -> (forall a, sound (k a)) -> consuming (bind m k).
Proof.
  intros Hc Hm Hk s W. unfold bind. specialize (Hc s W). specialize (Hm s W).
  destruct (m s) as [a s1|e s1|]; auto.
  specialize (Hk a s1 (advances_wf Hm)).
  destruct (k a s1) as [b s2|e s2|]; auto.
  destruct Hk as (_ & Hi & _). lia.
Qed.

Lemma consuming_for_range A n (m : M A) :
  consuming m -> sound m -> consuming (for_range (S n) m).
Proof.
  intros Hc Hm. simpl. apply consuming_bind_l; auto.
  intros _. now apply sound_for_range.
Qed.

Lemma progressing_consuming A B (m : M (A + B)) : consuming m -> progressing m.
Proof.
  intros Hc s W. specialize (Hc s W). destruct (m s) as [[a|b] s'|e s'|]; auto.
Qed.

Lemma progressing_bind A B C (m : M A) (k : A -> M (B + C)) :
  sound m -> (forall a, progressing (k a)) -> progressing (bind m k).
Proof.
  intros Hm Hk s W. unfold bind. specialize (Hm s W).
  destruct (m s) as [a s1|e s1|]; auto.
  specialize (Hk a s1 (advances_wf Hm)).
  destruct (k a s1) as [[b|c] s2|e s2|]; auto.
  destruct Hm as (_ & Hi & _). lia.
Qed.

Lemma progressing_leave A B (b : B) : progressing (@ret (A + B) (inr b)).
Proof. intros s W. exact I. Qed.

Lemma progressing_raise A B e : progressing (@raise (A + B) e).
Proof. intros s W. exact I. Qed.

(** A loop with a sound, progressing body is sound on any budget above the
    number of characters left. *)
Lemma while_true_sound A B (body : A -> M (A + B)) :
  (forall a, sound (body a)) -> (forall a, progressing (body a)) ->
  forall fuel a s, wf s -> length (_text s) - _idx s < fuel ->
    match while_true fuel body a s with
    | Ok _ s' => advances s s'
    | Raise e s' => advances s s' /\ (e = StopIteration -> _idx s' = length (_text s'))
    | OutOfFuel => False
    end.
Proof.
  intros Hs Hp. induction fuel as [|fuel IH]; intros a s W Hf; [lia|].
  simpl. specialize (Hs a s W). specialize (Hp a s W).
  destruct (body a s) as [[a'|b] s1|e s1|]; auto. simpl in Hp.
  assert (W1 : wf s1) by exact (advances_wf Hs).
  assert (Hf1 : length (_text s1) - _idx s1 < fuel).
  { destruct Hs as (Ht & _). unfold wf in *. rewrite Ht in *. lia. }
  specialize (IH a' s1 W1 Hf1).
  destruct (while_true fuel body a' s1) as [b s2|e s2|]; auto.
  - eapply advances_trans; eauto.
  - destruct IH as [Ha Hstop]. split; auto. eapply advances_trans; eauto.
Qed.

Lemma sound_loop A B (body : A -> M (A + B)) a :
  (forall a, sound (body a)) -> (forall a, progressing (body a)) ->
  sound (loop body a).
Proof.
  intros Hs Hp s W. unfold loop.
  apply while_true_sound; auto.
Qed.

(** Goals [sound m] are solved along the structure of [m]. *)
Ltac sound_step :=
  match goal with
  | |- sound (bind _ _) => apply sound_bind; [|intros ?]
  | |- sound (ret _) => apply sound_ret
  | |- sound (raise _) => apply sound_raise; discriminate
  | |- sound next => apply sound_next
  | |- sound (peek _) => apply sound_peek
  | |- sound pos => apply sound_pos
  | |- sound (getitem _ _) => apply sound_getitem
  | |- sound (for_range _ _) => apply sound_for_range
  | |- sound (try_except _ _) => apply sound_try_except; [|intros ?]
  | |- sound (match ?x with _ => _ end) => destruct x
  | |- sound _ => solve [auto with lexer]
  end.

Ltac sound_tac := repeat sound_step.

Lemma sound_EscapeCharToken_starts_here chars : sound (EscapeCharToken_starts_here chars).
Proof. unfold EscapeCharToken_starts_here. sound_tac. Qed.
#[local] Hint Resolve sound_EscapeCharToken_starts_here : lexer.

Lemma sound__parse_number : sound _parse_number.
Proof.
  unfold _parse_number. apply sound_bind; [|intros rv; sound_tac].
  apply sound_loop; intros rv; unfold _parse_number_body.
  - sound_tac.
  - apply progressing_bind; [sound_tac|]. intros [p|]; [|apply progressing_leave].
    apply progressing_bind; [sound_tac|]. intros [q|]; [|apply progressing_raise].
    destruct (str_in q digits); [|apply progressing_leave].
    apply progressing_consuming, consuming_bind_l;
      [apply consuming_next | apply sound_next | intros; sound_tac].
Qed.
#[local] Hint Resolve sound__parse_number : lexer.

Lemma sound__parse_till_closing_brace : sound _parse_till_closing_brace.
Proof.
  unfold _parse_till_closing_brace.
  apply sound_loop; intros [rv in_braces]; unfold _parse_till_closing_brace_body.
  - sound_tac.
  - apply progressing_bind; [sound_tac|]. intros esc.
    apply progressing_consuming. destruct esc.
    + apply consuming_bind_l; [apply consuming_next | apply sound_next | intros; sound_tac].
    + apply consuming_bind_l; [apply consuming_next | apply sound_next | intros; sound_tac].
Qed.
#[local] Hint Resolve sound__parse_till_closing_brace : lexer.

Lemma sound_escaped_pairs chars v : sound (escaped_pairs chars v).
Proof.
  revert v. induction chars as [|char chars IH]; intros v; simpl; sound_tac; apply IH.
Qed.
#[local] Hint Resolve sound_escaped_pairs : lexer.

(** When the [for char in chars] loop sets [escaped], it has consumed. *)
Lemma escaped_pairs_consumed chars : forall v s rv' s',
  wf s -> escaped_pairs chars v s = Ok (rv', true) s' ->
  snd v = true \/ _idx s < _idx s'.
Proof.
  induction chars as [|char chars IH]; intros v s rv' s' W H; simpl in H.
  - inversion H; subst. now left.
  - unfold bind in H.
    pose proof (sound_EscapeCharToken_starts_here [char] W) as He.
    destruct (EscapeCharToken_starts_here [char] s) as [esc s0|e s0|]; try discriminate.
    destruct esc.
    + pose proof (consuming_next (advances_wf He)) as Hc.
      pose proof (sound_next (advances_wf He)) as Hn.
      destruct (next s0) as [c0 s1|e s1|]; try discriminate.
      pose proof (sound_next (advances_wf Hn)) as Hn2.
      destruct (next s1) as [c1 s2|e s2|]; try discriminate.
      pose proof (sound_escaped_pairs chars (fst v ++ [c0; c1], true) (advances_wf Hn2)) as Hr.
      rewrite H in Hr. right.
      destruct He as (_ & ? & _), Hn2 as (_ & ? & _), Hr as (_ & ? & _). lia.
    + destruct (IH v s0 rv' s' (advances_wf He) H) as [Hv|Hlt]; [now left|right].
      destruct He as (_ & ? & _). lia.
Qed.

Lemma sound__parse_till_unescaped_char chars : sound (_parse_till_unescaped_char chars).
Proof.
  unfold _parse_till_unescaped_char.
  apply sound_loop; intros rv; unfold _parse_till_unescaped_char_body.
  - sound_tac.
  - intros s W. unfold bind.
    pose proof (sound_escaped_pairs chars (rv, false) W) as Hs.
    destruct (escaped_pairs chars (rv, false) s) as [[rv' escaped] s1|e s1|] eqn:E; auto.
    destruct escaped; simpl.
    + apply escaped_pairs_consumed in E as [F|Hlt]; auto. discriminate.
    + pose proof (consuming_next (advances_wf Hs)) as Hc.
      destruct (next s1) as [c s2|e s2|]; auto.
      destruct (str_in [c] chars); simpl; auto.
      destruct Hs as (_ & ? & _). lia.
Qed.
#[local] Hint Resolve sound__parse_till_unescaped_char : lexer.

(* ------------------------------------------------------------------ *)
(** ** Soundness of the token classes                                  *)
(* ------------------------------------------------------------------ *)

Lemma sound_check_here CHECK count : sound (check_here CHECK count).
Proof. unfold check_here. sound_tac. Qed.
#[local] Hint Resolve sound_check_here : lexer.

Lemma sound_starts_here cls : sound (starts_here cls).
Proof. destruct cls; simpl; sound_tac. Qed.
#[local] Hint Resolve sound_starts_here : lexer.

Lemma sound_skip_colon : sound skip_colon.
Proof. unfold skip_colon. sound_tac. Qed.
#[local] Hint Resolve sound_skip_colon : lexer.

Lemma sound_transformation_scans : sound transformation_scans.
Proof. unfold transformation_scans. sound_tac. Qed.
#[local] Hint Resolve sound_transformation_scans : lexer.

Lemma sound_VisualToken_alternative : sound VisualToken_alternative.
Proof. unfold VisualToken_alternative. sound_tac. Qed.
#[local] Hint Resolve sound_VisualToken_alternative : lexer.

Lemma sound_TransformationToken_number : sound TransformationToken_number.
Proof. unfold TransformationToken_number. sound_tac. Qed.
#[local] Hint Resolve sound_TransformationToken_number : lexer.

Lemma sound_strip_indent indent code : sound (strip_indent indent code).
Proof. unfold strip_indent. sound_tac. Qed.
#[local] Hint Resolve sound_strip_indent : lexer.

Lemma sound_PythonCodeToken_scan : sound PythonCodeToken_scan.
Proof. unfold PythonCodeToken_scan. sound_tac. Qed.
#[local] Hint Resolve sound_PythonCodeToken_scan : lexer.

Lemma sound__parse cls indent : sound (_parse cls indent).
Proof.
  destruct cls; simpl;
    unfold EscapeCharToken_parse, VisualToken_parse, TransformationToken_parse,
      TabStopToken_parse, MirrorToken_parse, PythonCodeToken_parse,
      VimLCodeToken_parse, ShellCodeToken_parse;
    sound_tac.
Qed.
#[local] Hint Resolve sound__parse : lexer.

Lemma sound_Token__init__ cls indent : sound (Token__init__ cls indent).
Proof. unfold Token__init__. sound_tac. Qed.
#[local] Hint Resolve sound_Token__init__ : lexer.

Lemma sound_try_tokens classes indent : sound (try_tokens classes indent).
Proof. induction classes as [|cls classes IH]; simpl; sound_tac. Qed.
#[local] Hint Resolve sound_try_tokens : lexer.

Lemma sound_tokenize_round indent : sound (tokenize_round indent).
Proof. unfold tokenize_round. sound_tac. Qed.

Lemma consuming_bind_r A B (m : M A) (k : A -> M B) :
  sound m -> (forall a, consuming (k a)) -> consuming (bind m k).
Proof.
  intros Hm Hk s W. unfold bind. specialize (Hm s W).
  destruct (m s) as [a s1|e s1|]; auto.
  specialize (Hk a s1 (advances_wf Hm)).
  destruct (k a s1) as [b s2|e s2|]; auto.
  destruct Hm as (_ & Hi & _). lia.
Qed.

Ltac consuming_head :=
  apply consuming_bind_l;
  [ first [ apply consuming_next
          | apply consuming_for_range; [apply consuming_next | apply sound_next] ]
  | sound_tac
  | intros; sound_tac ].

(** Every class of the driver consumes when its [_parse] returns. *)
Lemma consuming__parse cls indent :
  cls <> EndOfTextToken -> consuming (_parse cls indent).
Proof.
  intros Hc. destruct cls; simpl; try contradiction;
    unfold EscapeCharToken_parse, VisualToken_parse, TransformationToken_parse,
      TabStopToken_parse, MirrorToken_parse, PythonCodeToken_parse,
      VimLCodeToken_parse, ShellCodeToken_parse.
  - consuming_head.
  - apply consuming_bind_l; [|sound_tac|intros; sound_tac].
    unfold VisualToken_alternative. consuming_head.
  - apply consuming_bind_l; [|sound_tac|intros; sound_tac].
    unfold TransformationToken_number. consuming_head.
  - consuming_head.
  - consuming_head.
  - apply consuming_bind_l; [|sound_tac|intros; sound_tac].
    unfold PythonCodeToken_scan. consuming_head.
  - consuming_head.
  - consuming_head.
Qed.

Lemma bind_Ok A B (m : M A) (k : A -> M B) s b s' :
  bind m k s = Ok b s' -> exists a s1, m s = Ok a s1 /\ k a s1 = Ok b s'.
Proof.
  unfold bind. destruct (m s) as [a s1|e s1|]; try discriminate. eauto.
Qed.

Lemma bind_Raise A B (m : M A) (k : A -> M B) s e s' :
  bind m k s = Raise e s' ->
  m s = Raise e s' \/ exists a s1, m s = Ok a s1 /\ k a s1 = Raise e s'.
Proof.
  unfold bind. destruct (m s) as [a s1|e1 s1|]; try discriminate; intros H.
  - right. exists a, s1. now split.
  - inversion H; subst. now left.
Qed.

Lemma Token__init__Ok cls indent s t s' :
  Token__init__ cls indent s = Ok t s' ->
  start t = position s /\ end_ t = position s' /\
  _parse cls indent s = Ok (attrs t) s'.
Proof.
  unfold Token__init__, bind, pos, ret.
  destruct (_parse cls indent s) as [a s1|e s1|]; try discriminate.
  intros H. inversion H; subst. simpl. auto.
Qed.

Lemma consuming_Token__init__ cls indent :
  cls <> EndOfTextToken -> consuming (Token__init__ cls indent).
Proof.
  intros Hc s W. destruct (Token__init__ cls indent s) as [t s'|e s'|] eqn:E; auto.
  apply Token__init__Ok in E as (_ & _ & E).
  pose proof (consuming__parse indent Hc W) as H. now rewrite E in H.
Qed.

(** The attributes that [_parse] returns are those of its class. *)
Lemma _parse_class cls indent s a s' :
  _parse cls indent s = Ok a s' -> class_of a = cls.
Proof.
  destruct cls; simpl;
    unfold EscapeCharToken_parse, VisualToken_parse, TransformationToken_parse,
      TabStopToken_parse, MirrorToken_parse, PythonCodeToken_parse,
      VimLCodeToken_parse, ShellCodeToken_parse; intros H;
    repeat match type of H with
      | bind _ _ _ = Ok _ _ => apply bind_Ok in H as (? & ? & _ & H)
      | (let '(_, _) := ?x in _) _ = Ok _ _ => destruct x
      | (if ?c then _ else _) _ = Ok _ _ => destruct c
      end;
    try (inversion H; subst; reflexivity).
  unfold try_except in H.
  match type of H with
  | match ?m with _ => _ end = _ => destruct m as [v s1|e s1|] eqn:E
  end; try discriminate.
  - apply bind_Ok in E as ([[? ?] ?] & ? & _ & E).
    inversion E; inversion H; subst. reflexivity.
  - destruct e; discriminate.
Qed.

(* ------------------------------------------------------------------ *)
(** ** The rounds of the driver                                        *)
(* ------------------------------------------------------------------ *)

(** [starts_here] only peeks: it leaves the iterator where it is. *)
Lemma starts_here_state cls s :
  match starts_here cls s with
  | Ok _ s' => s' = s
  | Raise _ s' => s' = s
  | OutOfFuel => False
  end.
Proof.
  destruct cls; simpl;
    unfold check_here, EscapeCharToken_starts_here, bind; rewrite ?peek_spec;
    try reflexivity;
    destruct (peek_value _ s) as [cs|]; try reflexivity.
  destruct cs as [|c0 [|c1 [|c2 cs]]]; reflexivity.
Qed.

Lemma starts_here_Ok cls s b s' : starts_here cls s = Ok b s' -> s' = s.
Proof. intros H. pose proof (starts_here_state cls s) as P. now rewrite H in P. Qed.

Lemma try_tokens_Ok classes indent s r s' :
  try_tokens classes indent s = Ok r s' ->
  match r with
  | Some t => exists cls, In cls classes /\ Token__init__ cls indent s = Ok t s'
  | None => s' = s
  end.
Proof.
  revert s r s'. induction classes as [|cls classes IH]; intros s r s' H; simpl in H.
  - inversion H; subst. reflexivity.
  - apply bind_Ok in H as (here & s1 & Hh & H).
    apply starts_here_Ok in Hh as ->. destruct here.
    + apply bind_Ok in H as (t & s2 & Ht & H). inversion H; subst.
      exists cls. split; [now left | exact Ht].
    + apply IH in H. destruct r as [t|]; auto.
      destruct H as (c & Hin & Ht). exists c. split; [now right | exact Ht].
Qed.

Lemma EndOfTextToken_not_allowed : ~ In EndOfTextToken __ALLOWED_TOKENS.
Proof. simpl. intuition discriminate. Qed.

(** A round that yields: the token is of a class of the driver, spans from
    the position before the round to the position after it, and at least one
    character was consumed. *)
Lemma tokenize_round_yields indent s t s' :
  wf s -> tokenize_round indent s = Ok (inl t) s' ->
  advances s s' /\ _idx s < _idx s' /\
  start t = position s /\ end_ t = position s' /\
  In (class_of (attrs t)) __ALLOWED_TOKENS.
Proof.
  intros W H. pose proof (sound_tokenize_round indent W) as Hs. rewrite H in Hs.
  unfold tokenize_round in H. apply bind_Ok in H as (r & s1 & Hr & H).
  destruct r as [t'|].
  - inversion H; subst. apply try_tokens_Ok in Hr as (cls & Hin & Ht).
    assert (Hc : cls <> EndOfTextToken).
    { intros ->. now apply EndOfTextToken_not_allowed. }
    pose proof (consuming_Token__init__ indent Hc W) as Hlt. rewrite Ht in Hlt.
    apply Token__init__Ok in Ht as (Hst & Hen & Hp).
    apply _parse_class in Hp. rewrite Hp. auto.
  - apply bind_Ok in H as (c & s2 & _ & H). discriminate.
Qed.

(** A round that drops a character: it is the next character of the text. *)
Lemma tokenize_round_discards indent s c s' :
  wf s -> tokenize_round indent s = Ok (inr c) s' ->
  advances s s' /\ nth_error (_text s) (_idx s) = Some c /\ _idx s' = S (_idx s).
Proof.
  intros W H. pose proof (sound_tokenize_round indent W) as Hs. rewrite H in Hs.
  unfold tokenize_round in H. apply bind_Ok in H as (r & s1 & Hr & H).
  destruct r as [t'|]; [discriminate|].
  apply try_tokens_Ok in Hr as ->.
  apply bind_Ok in H as (c' & s2 & Hn & H). inversion H; subst.
  apply next_Ok in Hn as (Hn & _ & Hi & _). auto.
Qed.

Lemma tokenize_round_stops indent s s' :
  wf s -> tokenize_round indent s = Raise StopIteration s' ->
  advances s s' /\ _idx s' = length (_text s').
Proof.
  intros W H. pose proof (sound_tokenize_round indent W) as Hs. rewrite H in Hs.
  destruct Hs as [Ha Hstop]. auto.
Qed.

Lemma EndOfTextToken__init__ indent s :
  Token__init__ EndOfTextToken indent s =
  Ok {| start := position s; attrs := EndOfText; end_ := position s |} s.
Proof. reflexivity. Qed.

(** The loop of [tokenize] never uses up its budget, and what it computes is
    a run of the driver. *)
Lemma tokenize_loop_run indent fuel : forall s,
  wf s -> length (_text s) - _idx s < fuel ->
  run indent s (fst (tokenize_loop fuel indent s)) (snd (tokenize_loop fuel indent s)).
Proof.
  induction fuel as [|fuel IH]; intros s W Hf; [lia|]. simpl.
  pose proof (sound_tokenize_round indent W) as Hs.
  destruct (tokenize_round indent s) as [[t|c] s1|e s1|] eqn:E; try contradiction.
  - destruct (tokenize_round_yields _ W E) as (Ha & Hlt & _).
    assert (Hf1 : length (_text s1) - _idx s1 < fuel).
    { destruct Ha as (Ht & _ & W1 & _). unfold wf in *. rewrite Ht in *. lia. }
    specialize (IH s1 (advances_wf Ha) Hf1).
    destruct (tokenize_loop fuel indent s1) as [evs o]. simpl in *.
    eapply run_yield; eauto.
  - destruct (tokenize_round_discards _ W E) as (Ha & _ & Hi).
    assert (Hf1 : length (_text s1) - _idx s1 < fuel).
    { destruct Ha as (Ht & _ & W1 & _). unfold wf in *. rewrite Ht in *. lia. }
    specialize (IH s1 (advances_wf Ha) Hf1).
    destruct (tokenize_loop fuel indent s1) as [evs o]. simpl in *.
    eapply run_discard; eauto.
  - destruct e; try (simpl; eapply run_abort; [exact E | discriminate]).
    simpl. eapply run_end; [exact E | apply EndOfTextToken__init__].
Qed.

Lemma run_deterministic indent s evs o :
  run indent s evs o -> forall evs' o', run indent s evs' o' -> evs = evs' /\ o = o'.
Proof.
  induction 1 as [s t s1 evs o Hr _ IH | s c s1 evs o Hr _ IH
                 | s s1 t s2 Hr Ht | s e s1 Hr Hne];
    intros evs' o' H'; inversion H'; subst;
    match goal with
    | H1 : tokenize_round _ _ = _, H2 : tokenize_round _ _ = _ |- _ =>
        rewrite H1 in H2; inversion H2; subst
    end; try contradiction.
  - match goal with H : run _ _ _ _ |- _ => apply IH in H as [-> ->] end. auto.
  - match goal with H : run _ _ _ _ |- _ => apply IH in H as [-> ->] end. auto.
  - match goal with
    | H1 : Token__init__ _ _ _ = _, H2 : Token__init__ _ _ _ = _ |- _ =>
        rewrite H1 in H2; inversion H2; subst
    end. auto.
  - auto.
Qed.

Lemma wf_init t offset : wf (_TextIterator__init__ t offset).
Proof. unfold wf. simpl. lia. Qed.

(** [tokenize_trace] is the run of the driver from the start of the text. *)
Lemma tokenize_trace_run t indent offset evs o :
  tokenize_trace t indent offset = (evs, o) <->
  run indent (_TextIterator__init__ t offset) evs o.
Proof.
  assert (R : run indent (_TextIterator__init__ t offset)
                (fst (tokenize_trace t indent offset))
                (snd (tokenize_trace t indent offset))).
  { unfold tokenize_trace. apply tokenize_loop_run; [apply wf_init | simpl; lia]. }
  split.
  - intros H. rewrite H in R. exact R.
  - intros H. destruct (run_deterministic R H) as [<- <-].
    now destruct (tokenize_trace t indent offset).
Qed.

Lemma drives_wf indent s evs s' : drives indent s evs s' -> wf s -> wf s'.
Proof.
  induction 1 as [s | s t s1 evs s2 Hr _ IH | s c s1 evs s2 Hr _ IH]; intros W; auto.
  - apply IH. now destruct (tokenize_round_yields _ W Hr) as ((_ & _ & W1 & _) & _).
  - apply IH. now destruct (tokenize_round_discards _ W Hr) as ((_ & _ & W1 & _) & _).
Qed.

(** Complete rounds followed by a run are a run. *)
Lemma drives_run indent s evs s' :
  drives indent s evs s' -> forall evs' o, run indent s' evs' o -> run indent s (evs ++ evs') o.
Proof.
  induction 1 as [s | s t s1 evs s2 Hr _ IH | s c s1 evs s2 Hr _ IH];
    intros evs' o R; simpl; auto.
  - eapply run_yield; eauto.
  - eapply run_discard; eauto.
Qed.

Lemma yielded_app evs evs' : yielded (evs ++ evs') = yielded evs ++ yielded evs'.
Proof.
  induction evs as [|[t i j|c|i j] evs IH]; simpl; auto. now rewrite IH.
Qed.

(* ------------------------------------------------------------------ *)
(** ** The examples of the specification                               *)
(* ------------------------------------------------------------------ *)

(** The attributes of the tokens that [tokenize] yields on an input. *)
Example tokenize_hello :
  map attrs (fst (tokenize (txt "${1:hello}") [] origin)) = [TabStop 1 (txt "hello"); EndOfText].
Proof. vm_compute. reflexivity. Qed.

Example tokenize_mirror :
  map attrs (fst (tokenize (txt "$1") [] origin)) = [Mirror 1; EndOfText].
Proof. vm_compute. reflexivity. Qed.

Example tokenize_transformation :
  map attrs (fst (tokenize (txt "${1/foo/bar/g}") [] origin))
  = [Transformation 1 (txt "foo") (txt "bar") (txt "g"); EndOfText].
Proof. vm_compute. reflexivity. Qed.

Example tokenize_visual :
  map attrs (fst (tokenize (txt "${VISUAL}") [] origin)) = [Visual [] None None None; EndOfText].
Proof. vm_compute. reflexivity. Qed.

Example tokenize_visual_transformation :
  map attrs (fst (tokenize (txt "${VISUAL/a/b/}") [] origin))
  = [Visual [] (Some (txt "a")) (Some (txt "b")) (Some []); EndOfText].
Proof. vm_compute. reflexivity. Qed.

Example tokenize_escape :
  map attrs (fst (tokenize (txt "\$") [] origin)) = [EscapeChar (txt "$"); EndOfText].
Proof. vm_compute. reflexivity. Qed.

Example tokenize_python :
  map attrs (fst (tokenize (txt "`!p snip.rv = 1`") [] origin))
  = [PythonCode (txt "snip.rv = 1") []; EndOfText].
Proof. vm_compute. reflexivity. Qed.

(** Plain text between tokens is dropped; the positions count lines. *)
Example tokenize_two_lines :
  fst (tokenize (txt "a" ++ [LF] ++ txt "b$1") [] origin)
  = [ {| start := {| line := 1; col := 1 |}; attrs := Mirror 1;
         end_ := {| line := 1; col := 3 |} |};
      {| start := {| line := 1; col := 3 |}; attrs := EndOfText;
         end_ := {| line := 1; col := 3 |} |} ].
Proof. vm_compute. reflexivity. Qed.

(** With an indent, Python code that is empty makes [lines[0]] fail. *)
Example tokenize_empty_python :
  tokenize (txt "`!p `") (txt "  ") origin = ([], Aborted IndexError).
Proof. vm_compute. reflexivity. Qed.

(* ------------------------------------------------------------------ *)
(** ** The character stream                                            *)
(* ------------------------------------------------------------------ *)

Lemma remaining_cons s c r :
  remaining s = c :: r ->
  nth_error (_text s) (_idx s) = Some c /\ _idx s < length (_text s) /\
  skipn (S (_idx s)) (_text s) = r.
Proof.
  unfold remaining. intros H.
  destruct (nth_error (_text s) (_idx s)) as [c'|] eqn:E.
  - rewrite (nth_error_skipn_cons _ _ E) in H. inversion H; subst.
    repeat split. apply nth_error_Some. congruence.
  - rewrite (nth_error_skipn_nil _ _ E) in H. discriminate.
Qed.

Lemma next_remaining s c r :
  remaining s = c :: r -> exists s', next s = Ok c s' /\ remaining s' = r.
Proof.
  intros H. apply remaining_cons in H as (Hn & Hlt & Hr).
  destruct (next s) as [c' s'|e s'|] eqn:E.
  - destruct (next_Ok s E) as (Hn' & Ht & Hi & _).
    assert (c' = c) by congruence. subst c'. exists s'. split; auto.
    unfold remaining. now rewrite Ht, Hi.
  - apply next_Raise in E as (_ & _ & Hi); unfold wf; lia.
  - now apply next_not_OutOfFuel in E.
Qed.

(** C10: [next] consumes the upcoming character; the line number goes up by
    one, with the column back at 0, exactly when that character is the
    newline; every other character, the carriage return among them, moves
    the column on by one and leaves the line as it is. *)
Theorem next_counts_lines s c r :
  remaining s = c :: r ->
  exists s',
    next s = Ok c s' /\ remaining s' = r /\
    (c = LF -> _line s' = (_line s + 1)%Z /\ _col s' = 0%Z) /\
    (c <> LF -> _line s' = _line s /\ _col s' = (_col s + 1)%Z) /\
    (c = CR -> _line s' = _line s /\ _col s' = (_col s + 1)%Z).
Proof.
  intros H. destruct (next_remaining _ H) as (s' & Hn & Hr).
  exists s'. destruct (next_Ok s Hn) as (_ & _ & _ & Hlf & Hnlf).
  split; [exact Hn|]. split; [exact Hr|]. split; [exact Hlf|]. split; [exact Hnlf|].
  intros ->. apply Hnlf. discriminate.
Qed.

Lemma next_counts_lines_witness :
  exists s',
    next (_TextIterator__init__ (txt "a") origin) = Ok "a"%char s' /\
    remaining s' = [] /\ _line s' = 0%Z /\ _col s' = 1%Z.
Proof.
  destruct (@next_counts_lines (_TextIterator__init__ (txt "a") origin) "a"%char [])
    as (s' & Hn & Hr & _ & Hother & _); [reflexivity|].
  exists s'. destruct Hother as [Hl Hc]; [discriminate|].
  repeat split; assumption.
Defined.

(** C7: for [n >= 1], [peek n] returns without raising and leaves the
    iterator as it was; what it returns are the upcoming characters, at most
    [n] of them, fewer than [n] when fewer are left, and [None] only when
    none is left. *)
Theorem peek_never_fails s n :
  1 <= n ->
  exists r,
    peek n s = Ok r s /\
    peeked r = firstn n (remaining s) /\
    length (peeked r) <= n /\
    (length (remaining s) < n -> length (peeked r) = length (remaining s)) /\
    (r = None -> remaining s = []).
Proof.
  intros Hn. exists (peek_value n s). split; [apply peek_spec|].
  assert (E : peeked (peek_value n s) = firstn n (remaining s)).
  { unfold peek_value. destruct (1 <? n) eqn:E1; [reflexivity|].
    apply Nat.ltb_ge in E1. assert (n = 1) by lia. subst n.
    destruct (remaining s) as [|c r]; reflexivity. }
  split; [exact E|]. rewrite E. split; [apply firstn_le_length|]. split.
  - intros Hlt. rewrite firstn_all2; [reflexivity | lia].
  - unfold peek_value. destruct (1 <? n); [discriminate|].
    destruct (remaining s); [reflexivity | discriminate].
Qed.

Lemma peek_never_fails_witness :
  exists r,
    peek 10 (_TextIterator__init__ (txt "$1") origin) = Ok r (_TextIterator__init__ (txt "$1") origin) /\
    peeked r = txt "$1".
Proof.
  destruct (@peek_never_fails (_TextIterator__init__ (txt "$1") origin) 10)
    as (r & Hp & Hv & _); [lia|].
  exists r. split; [exact Hp | exact Hv].
Defined.

(* ------------------------------------------------------------------ *)
(** ** The Python code token                                           *)
(* ------------------------------------------------------------------ *)

Example splitlines_two : splitlines (txt "a" ++ [CR; LF] ++ txt "  b" ++ [LF]) = [txt "a"; txt "  b"].
Proof. reflexivity. Qed.

Example splitlines_blank : splitlines [LF] = [[]] /\ splitlines [] = [].
Proof. split; reflexivity. Qed.

Example splitlines_separators :
  splitlines (txt "a" ++ [0x2028%N] ++ txt "b" ++ [0x85%N] ++ txt "c" ++ [0x1C%N])
  = [txt "a"; txt "b"; txt "c"].
Proof. reflexivity. Qed.

Lemma length_eqb_nil (indent : text) : indent <> [] -> (length indent =? 0) = false.
Proof. destruct indent; [contradiction | reflexivity]. Qed.

(** What [PythonCodeToken._parse] makes of the scanned code. *)
Lemma PythonCodeToken_parse_scanned indent s code s' :
  PythonCodeToken_scan s = Ok code s' ->
  PythonCodeToken_parse indent s =
  if length indent =? 0 then Ok (PythonCode code indent) s'
  else match splitlines code with
       | first :: rest =>
           Ok (PythonCode ((first ++ [LF]) ++
                           join [LF] (map (fun l => skipn (length indent) l) rest))
                          indent) s'
       | [] => Raise IndexError s'
       end.
Proof.
  intros H. unfold PythonCodeToken_parse, bind. rewrite H.
  destruct (length indent =? 0); simpl; [reflexivity|].
  unfold strip_indent, bind, getitem.
  destruct (splitlines code) as [|first rest]; reflexivity.
Qed.

Lemma splitlines_from_nonempty (t : text) : forall cur,
  cur <> [] -> splitlines_from cur t <> [].
Proof.
  induction t as [|c t IH]; intros cur Hc; cbn [splitlines_from].
  - destruct cur; [contradiction | discriminate].
  - destruct (is_linebreak c); [discriminate|].
    apply IH. destruct cur; discriminate.
Qed.

Lemma splitlines_from_nil (t : text) : splitlines_from [] t = [] -> t = [].
Proof.
  destruct t as [|c t]; [reflexivity|]. cbn [splitlines_from].
  destruct (is_linebreak c); [discriminate|].
  intros H. now apply splitlines_from_nonempty in H.
Qed.

(** A text that is a single line for [splitlines] is that line, with one
    line terminator behind it or none. *)
Lemma splitlines_single (t : text) : forall cur l,
  splitlines_from cur t = [l] ->
  exists pre term,
    t = pre ++ term /\ l = cur ++ pre /\
    (term = [] \/ term = [CR; LF] \/ exists c, term = [c] /\ is_linebreak c = true).
Proof.
  induction t as [|c t IH]; intros cur l H; cbn [splitlines_from] in H.
  - exists [], []. destruct cur; [discriminate|]. inversion H.
    split; [reflexivity|]. split; [now rewrite app_nil_r | now left].
  - destruct (is_linebreak c) eqn:E.
    + inversion H as [[Hl Hrest]]. exists [], (c :: t). rewrite app_nil_r.
      split; [reflexivity|]. split; [reflexivity|]. right.
      destruct t as [|d t].
      * right. exists c. auto.
      * destruct (char_eqb c CR && char_eqb d LF) eqn:Ecr.
        -- apply splitlines_from_nil in Hrest. subst t.
           apply andb_true_iff in Ecr as [Ec Ed].
           apply char_eqb_eq in Ec, Ed. subst c d. now left.
        -- apply splitlines_from_nil in Hrest. discriminate.
    + destruct (IH (cur ++ [c]) l H) as (pre & term & -> & -> & Ht).
      exists (c :: pre), term. rewrite <- app_assoc. auto.
Qed.

(** C9, as the code has it: when the scanned code is a single line and the
    indent is not empty, the code of the token is that line with a newline
    appended.  With the empty indent the code of the token is the scanned
    code as it is: the line and, where the scanned code has one, the line
    terminator behind it.  It is the line without a newline behind it only
    when the scanned code has no terminator. *)
Theorem single_line_gets_newline indent s code s' line :
  PythonCodeToken_scan s = Ok code s' ->
  splitlines code = [line] ->
  (indent <> [] ->
   PythonCodeToken_parse indent s = Ok (PythonCode (line ++ [LF]) indent) s') /\
  PythonCodeToken_parse [] s = Ok (PythonCode code []) s' /\
  (exists term,
     code = line ++ term /\
     (term = [] \/ term = [CR; LF] \/ exists c, term = [c] /\ is_linebreak c = true)).
Proof.
  intros Hscan Hline. split; [|split].
  - intros Hne. rewrite (PythonCodeToken_parse_scanned indent s Hscan).
    rewrite (length_eqb_nil Hne), Hline. simpl. now rewrite app_nil_r.
  - now rewrite (PythonCodeToken_parse_scanned [] s Hscan).
  - destruct (@splitlines_single code [] line Hline) as (pre & term & -> & -> & Ht).
    exists term. auto.
Qed.

Lemma single_line_gets_newline_witness :
  let s := _TextIterator__init__ (txt "`!p x = 1`") origin in
  let s' := {| _text := txt "`!p x = 1`"; _line := 0; _col := 10; _idx := 10 |} in
  PythonCodeToken_parse (txt "  ") s = Ok (PythonCode (txt "x = 1" ++ [LF]) (txt "  ")) s' /\
  PythonCodeToken_parse [] s = Ok (PythonCode (txt "x = 1") []) s'.
Proof.
  intros s s'.
  assert (Hscan : PythonCodeToken_scan s = Ok (txt "x = 1") s') by (vm_compute; reflexivity).
  assert (Hline : splitlines (txt "x = 1") = [txt "x = 1"]) by (vm_compute; reflexivity).
  destruct (@single_line_gets_newline (txt "  ") s (txt "x = 1") s' (txt "x = 1") Hscan Hline)
    as (H1 & H2 & _).
  split; [apply H1; discriminate | exact H2].
Defined.

(** C9 as stated fails: the scanned code of [`!p x], a newline and the
    closing backtick is the single line [x] with its newline, and with the
    empty indent the code of the token keeps that newline. *)
Lemma scanned_newline_is_kept : ~ single_line_as_specified.
Proof.
  intros H.
  pose (input := txt "`!p x" ++ [LF] ++ txt "`").
  destruct (H [] (_TextIterator__init__ input origin) (txt "x" ++ [LF])
              {| _text := input; _line := 1; _col := 1; _idx := 7 |} (txt "x"))
    as [_ F]; [vm_compute; reflexivity | vm_compute; reflexivity |].
  vm_compute in F. discriminate.
Qed.

Lemma join_cons sep (p : text) (rest : list text) :
  rest <> [] -> join sep (p :: rest) = p ++ sep ++ join sep rest.
Proof. destruct rest; [contradiction | reflexivity]. Qed.

(** C6, as the code has it: with a non-empty indent the code of the token is
    the first line of the scanned code, a newline, and the later lines joined
    by newlines, each later line [l] cut to [l[len(indent):]]; that cut takes
    exactly [len(indent)] leading characters from a line that has as many and
    leaves the empty text of a shorter line.  With two lines or more this is
    the lines joined by newlines; with the empty indent the scanned code is
    kept as it is. *)
Theorem indent_stripped indent s code s' :
  PythonCodeToken_scan s = Ok code s' ->
  (indent = [] -> PythonCodeToken_parse indent s = Ok (PythonCode code indent) s') /\
  (forall first rest,
     indent <> [] -> splitlines code = first :: rest ->
     let stripped := map (fun l => skipn (length indent) l) rest in
     PythonCodeToken_parse indent s
     = Ok (PythonCode (first ++ [LF] ++ join [LF] stripped) indent) s' /\
     (rest <> [] -> first ++ [LF] ++ join [LF] stripped = join [LF] (first :: stripped)) /\
     Forall2 (fun l l' =>
                (length indent <= length l ->
                 exists p, length p = length indent /\ l = p ++ l') /\
                (length l < length indent -> l' = []))
             rest stripped).
Proof.
  intros Hscan. split.
  - intros ->. now rewrite (PythonCodeToken_parse_scanned [] s Hscan).
  - intros first rest Hne Hlines stripped. split; [|split].
    + rewrite (PythonCodeToken_parse_scanned indent s Hscan).
      rewrite (length_eqb_nil Hne), Hlines. now rewrite <- app_assoc.
    + intros Hrest. rewrite join_cons; [reflexivity|].
      subst stripped. destruct rest; [contradiction | discriminate].
    + subst stripped. clear Hlines. induction rest as [|l rest IH]; simpl; constructor; auto.
      split.
      * intros Hle. exists (firstn (length indent) l). split.
        -- rewrite length_firstn. lia.
        -- symmetry. apply firstn_skipn.
      * intros Hlt. apply skipn_all2. lia.
Qed.

Lemma indent_stripped_witness :
  let input := txt "`!p if x:" ++ [LF] ++ txt "    y = 1" ++ [LF] ++ txt " `" in
  let s := _TextIterator__init__ input origin in
  let s' := {| _text := input; _line := 2; _col := 2; _idx := 22 |} in
  PythonCodeToken_parse (txt "  ") s
  = Ok (PythonCode (txt "if x:" ++ [LF] ++ txt "  y = 1" ++ [LF]) (txt "  ")) s'.
Proof.
  intros input s s'.
  assert (Hscan : PythonCodeToken_scan s
                  = Ok (txt "if x:" ++ [LF] ++ txt "    y = 1" ++ [LF] ++ txt " ") s')
    by (vm_compute; reflexivity).
  destruct (@indent_stripped (txt "  ") s _ s' Hscan) as [_ H].
  destruct (H (txt "if x:") [txt "    y = 1"; txt " "]) as [Hp _];
    [discriminate | vm_compute; reflexivity | exact Hp].
Defined.

(** C6 as stated fails: a single scanned line comes back with a newline
    appended, which is not the lines joined by newlines. *)
Lemma dedent_not_as_specified :
  exists s code s' dedented,
    PythonCodeToken_scan s = Ok code s' /\
    PythonCodeToken_parse (txt " ") s = Ok (PythonCode dedented (txt " ")) s' /\
    ~ dedent_as_specified (txt " ") code dedented.
Proof.
  exists (_TextIterator__init__ (txt "`!p x`") origin), (txt "x").
  exists {| _text := txt "`!p x`"; _line := 0; _col := 6; _idx := 6 |}.
  exists (txt "x" ++ [LF]).
  split; [vm_compute; reflexivity|]. split; [vm_compute; reflexivity|].
  intros (first & rest & rest' & Hl & Hf & Hj).
  vm_compute in Hl. inversion Hl; subst. inversion Hf; subst. discriminate.
Qed.

(* ------------------------------------------------------------------ *)
(** ** Runs of the driver                                              *)
(* ------------------------------------------------------------------ *)

Lemma slice_to_end (t : text) i : slice t i (length t) = skipn i t.
Proof. unfold slice. apply firstn_all2. rewrite length_skipn. lia. Qed.

(** A run never ends as [Diverged]: it finishes or it is aborted. *)
Lemma run_outcome indent s evs o :
  run indent s evs o -> o = Finished \/ exists e, o = Aborted e.
Proof. induction 1; eauto. Qed.

(** A run that finishes accounts for every character that was left. *)
Lemma run_consumed indent s evs o :
  run indent s evs o -> wf s -> o = Finished ->
  all_consumed (_text s) evs = remaining s.
Proof.
  unfold all_consumed, remaining.
  induction 1 as [s t s1 evs o Hr _ IH | s c s1 evs o Hr _ IH
                 | s s1 t s2 Hr Ht | s e s1 Hr Hne]; intros W Ho; simpl.
  - destruct (tokenize_round_yields _ W Hr) as ((Ht & Hi & W1 & _) & _).
    rewrite Ht in IH. rewrite (IH W1 Ho). now apply slice_skipn.
  - destruct (tokenize_round_discards _ W Hr) as ((Ht & _ & W1 & _) & Hn & Hi).
    rewrite Ht in IH. rewrite (IH W1 Ho), Hi.
    symmetry. now apply nth_error_skipn_cons.
  - destruct (tokenize_round_stops _ W Hr) as ((Htx & _) & Hend).
    rewrite EndOfTextToken__init__ in Ht. inversion Ht; subst.
    rewrite slice_same, app_nil_r, Hend, Htx. apply slice_to_end.
  - discriminate.
Qed.

Lemma chain_weaken p q toks : pos_le p q -> chain q toks -> chain p toks.
Proof.
  destruct toks as [|t toks]; simpl; auto.
  intros Hpq (H1 & H2 & H3). repeat split; auto. eapply pos_le_trans; eauto.
Qed.

Lemma chain_all p toks :
  chain p toks -> forall t, In t toks -> pos_le p (start t) /\ pos_le (start t) (end_ t).
Proof.
  revert p. induction toks as [|t0 toks IH]; intros p H t Hin; [contradiction|].
  destruct H as (H1 & H2 & H3). destruct Hin as [<-|Hin]; [auto|].
  apply IH; auto. eapply chain_weaken; [|exact H3]. eapply pos_le_trans; eauto.
Qed.

Lemma chain_spans_ordered p toks : chain p toks -> spans_ordered toks.
Proof.
  intros H. split.
  - intros t Hin. now apply (chain_all _ _ H).
  - revert p H. induction toks as [|t0 toks IH]; intros p H i j ti tj Hij Hi Hj.
    + destruct i; discriminate.
    + destruct H as (H1 & H2 & H3). destruct j as [|j]; [lia|]. simpl in Hj.
      destruct i as [|i]; simpl in Hi.
      * inversion Hi; subst. apply nth_error_In in Hj.
        now apply (chain_all _ _ H3).
      * eapply (IH _ H3 i j); eauto. lia.
Qed.

(** The tokens of a run are in a chain from the position the run starts at. *)
Lemma run_chain indent s evs o :
  run indent s evs o -> wf s -> chain (position s) (yielded evs).
Proof.
  induction 1 as [s t s1 evs o Hr _ IH | s c s1 evs o Hr _ IH
                 | s s1 t s2 Hr Ht | s e s1 Hr Hne]; intros W; simpl; auto.
  - destruct (tokenize_round_yields _ W Hr) as ((_ & _ & W1 & Hp & _) & _ & Hst & Hen & _).
    rewrite Hst, Hen. repeat split; auto using pos_le_refl.
  - destruct (tokenize_round_discards _ W Hr) as ((_ & _ & W1 & Hp & _) & _).
    eapply chain_weaken; eauto.
  - destruct (tokenize_round_stops _ W Hr) as ((_ & _ & _ & Hp & _) & _).
    rewrite EndOfTextToken__init__ in Ht. inversion Ht; subst. simpl.
    repeat split; auto using pos_le_refl.
Qed.

Lemma firstn_slice (t : text) i j : i <= j -> firstn j t = firstn i t ++ slice t i j.
Proof.
  intros H. unfold slice. replace j with (i + (j - i)) at 1 by lia.
  apply firstn_plus.
Qed.

Lemma advances_position_at offset s s' :
  advances s s' ->
  position s = position_at offset (_text s) (_idx s) ->
  position s' = position_at offset (_text s') (_idx s').
Proof.
  intros (Ht & Hi & _ & _ & Ha) Hp. unfold position_at in *.
  rewrite Ht, (firstn_slice (_text s) Hi), advance_position_app, <- Hp. exact Ha.
Qed.

(** The indices that a run records with a token are those of the token's
    span: the token starts and ends at their positions. *)
Lemma run_spans indent s evs o :
  run indent s evs o -> wf s ->
  forall offset,
    position s = position_at offset (_text s) (_idx s) ->
    Forall (span_recorded offset (_text s)) evs.
Proof.
  induction 1 as [s t s1 evs o Hr _ IH | s c s1 evs o Hr _ IH
                 | s s1 t s2 Hr Ht | s e s1 Hr Hne]; intros W offset Hp.
  - destruct (tokenize_round_yields _ W Hr) as (Ha & Hlt & Hst & Hen & _).
    pose proof (advances_position_at offset Ha Hp) as Hp1.
    destruct Ha as (Htx & _ & W1 & _). constructor.
    + simpl. unfold wf in W1. rewrite Htx in *. rewrite Hst, Hen, Hp, Hp1.
      repeat split; auto; lia.
    + rewrite <- Htx. apply IH; auto.
  - destruct (tokenize_round_discards _ W Hr) as (Ha & _).
    pose proof (advances_position_at offset Ha Hp) as Hp1.
    destruct Ha as (Htx & _ & W1 & _). constructor; [exact I|].
    rewrite <- Htx. apply IH; auto.
  - destruct (tokenize_round_stops _ W Hr) as (Ha & _).
    pose proof (advances_position_at offset Ha Hp) as Hp1.
    destruct Ha as (Htx & _ & W1 & _).
    rewrite EndOfTextToken__init__ in Ht. inversion Ht; subst.
    constructor; [exact I|]. constructor; [|constructor].
    simpl. unfold wf in W1. rewrite Htx in *. rewrite Hp1. repeat split; auto.
  - constructor.
Qed.

Lemma allowed_not_EndOfText t :
  In (class_of (attrs t)) __ALLOWED_TOKENS -> ~ is_EndOfText t.
Proof.
  unfold is_EndOfText. intros Hin E. rewrite E in Hin.
  now apply EndOfTextToken_not_allowed.
Qed.

(** A run yields [EndOfText] once, last, when it finishes, and not at all
    when it is aborted. *)
Lemma run_EndOfText indent s evs o :
  run indent s evs o -> wf s ->
  (o = Finished -> one_EndOfText_last (yielded evs)) /\
  (o <> Finished -> Forall (fun t => ~ is_EndOfText t) (yielded evs)).
Proof.
  induction 1 as [s t s1 evs o Hr _ IH | s c s1 evs o Hr _ IH
                 | s s1 t s2 Hr Ht | s e s1 Hr Hne]; intros W; simpl.
  - destruct (tokenize_round_yields _ W Hr) as ((_ & _ & W1 & _) & _ & _ & _ & Hc).
    apply allowed_not_EndOfText in Hc. destruct (IH W1) as [IH1 IH2]. split.
    + intros Ho. destruct (IH1 Ho) as (before & last & -> & Hl & Hb).
      exists (t :: before), last. repeat split; auto.
    + intros Ho. constructor; auto.
  - destruct (tokenize_round_discards _ W Hr) as ((_ & _ & W1 & _) & _). auto.
  - rewrite EndOfTextToken__init__ in Ht. inversion Ht; subst. split.
    + intros _. eexists [], _. repeat split; constructor.
    + intros F. now contradiction F.
  - split; [discriminate | constructor].
Qed.

(** [tokenize] always ends: it finishes or it is aborted by an exception. *)
Lemma tokenize_total t indent offset :
  snd (tokenize t indent offset) = Finished \/
  exists e, snd (tokenize t indent offset) = Aborted e.
Proof.
  unfold tokenize. destruct (tokenize_trace t indent offset) as [evs o] eqn:E.
  apply tokenize_trace_run in E. simpl. eapply run_outcome; eauto.
Qed.

(** C1, as the code has it: on every input on which [tokenize] finishes, the
    spans consumed by the yielded tokens, the characters dropped where no
    class started, and what was consumed by the round that ran into the end
    of the input (a token cut short there is not yielded) make up the input
    again, in order, where the span of a token is the text between the
    positions it records as [start] and [end]; and the spans of the yielded
    tokens never overlap and never go back. *)
Theorem spans_reconstruct_input t indent offset evs :
  tokenize_trace t indent offset = (evs, Finished) ->
  all_consumed t evs = t /\
  Forall (span_recorded offset t) evs /\
  spans_ordered (yielded evs).
Proof.
  intros H. apply tokenize_trace_run in H. split; [|split].
  - apply (run_consumed H (wf_init t offset) eq_refl).
  - apply (run_spans H (wf_init t offset) offset). now destruct offset.
  - eapply chain_spans_ordered. apply (run_chain H (wf_init t offset)).
Qed.

Lemma spans_reconstruct_input_witness :
  let t := txt "a${1:b}$2" in
  exists evs,
    yielded evs = fst (tokenize t [] origin) /\
    all_consumed t evs = t /\
    Forall (span_recorded origin t) evs /\
    spans_ordered (yielded evs).
Proof.
  intros t. exists (fst (tokenize_trace t [] origin)).
  split; [vm_compute; reflexivity|].
  apply (@spans_reconstruct_input t [] origin). vm_compute. reflexivity.
Defined.

(** C1 as stated fails: a transformation cut short by the end of the input
    is consumed but neither yielded nor dropped character by character. *)
Lemma cut_short_not_reconstructed :
  ~ reconstructs_as_specified (txt "${1/foo") [] origin.
Proof.
  intros H.
  destruct (H [Caught 0 7;
               Yielded {| start := {| line := 0; col := 7 |}; attrs := EndOfText;
                          end_ := {| line := 0; col := 7 |} |} 7 7] Finished) as [F _].
  - vm_compute. reflexivity.
  - discriminate.
  - vm_compute in F. discriminate.
Qed.

(** C3, as the code has it: on every input on which [tokenize] is not
    aborted by an error, it finishes, and the sequence it yields has exactly
    one [EndOfText] token, in the last place. *)
Theorem one_EndOfText_at_the_end t indent offset toks o :
  tokenize t indent offset = (toks, o) ->
  (forall e, o <> Aborted e) ->
  o = Finished /\ one_EndOfText_last toks.
Proof.
  unfold tokenize. destruct (tokenize_trace t indent offset) as [evs o'] eqn:E.
  intros H Hno. inversion H; subst. apply tokenize_trace_run in E.
  assert (Ho : o = Finished).
  { destruct (run_outcome E) as [Ho|[e Ho]]; [exact Ho | now apply Hno in Ho]. }
  split; [exact Ho|].
  now apply (run_EndOfText E (wf_init t offset)).
Qed.

Lemma one_EndOfText_at_the_end_witness :
  one_EndOfText_last (fst (tokenize (txt "$1 and ${2:two}") [] origin)).
Proof.
  destruct (@one_EndOfText_at_the_end (txt "$1 and ${2:two}") [] origin
              (fst (tokenize (txt "$1 and ${2:two}") [] origin)) Finished) as [_ H].
  - vm_compute. reflexivity.
  - discriminate.
  - exact H.
Defined.

(** C3 as stated fails: a run aborted as a malformed transformation yields
    no [EndOfText] token. *)
Lemma aborted_run_has_no_EndOfText :
  ~ (forall t indent offset, one_EndOfText_last (fst (tokenize t indent offset))).
Proof.
  intros H. specialize (H (txt "${VISUAL/a}") [] origin).
  vm_compute in H. destruct H as (before & last & E & _).
  destruct before; discriminate.
Qed.

(* ------------------------------------------------------------------ *)
(** ** The order of the recognizers                                    *)
(* ------------------------------------------------------------------ *)

Lemma starts_here_spec cls s :
  cls <> EndOfTextToken -> starts_here cls s = Ok (starts_here_value cls s) s.
Proof.
  intros Hc. destruct cls; try contradiction;
    unfold starts_here, starts_here_value, check_here, EscapeCharToken_starts_here, bind;
    rewrite peek_spec; unfold peek_value; try reflexivity.
  - destruct (firstn 2 (remaining s)) as [|c0 [|c1 [|c2 cs]]]; reflexivity.
  - destruct (remaining s); reflexivity.
Qed.

Lemma try_tokens_first_match classes indent s cls :
  first_match classes s cls ->
  try_tokens classes indent s = passing Some (Token__init__ cls indent s).
Proof.
  intros (before & after & -> & Hb & Hc).
  induction before as [|c before IH]; simpl.
  - unfold bind at 1. rewrite Hc. unfold bind, passing, ret.
    destruct (Token__init__ cls indent s); reflexivity.
  - unfold bind at 1. rewrite (Hb c (or_introl eq_refl)).
    apply IH. intros c' Hin. apply Hb. now right.
Qed.

Lemma try_tokens_no_match classes indent s :
  no_match classes s -> try_tokens classes indent s = Ok None s.
Proof.
  unfold no_match. induction classes as [|c classes IH]; intros H; simpl; [reflexivity|].
  unfold bind at 1. rewrite (H c (or_introl eq_refl)).
  apply IH. intros c' Hin. apply H. now right.
Qed.

Lemma tokenize_round_first_match indent s cls :
  first_match __ALLOWED_TOKENS s cls ->
  tokenize_round indent s = passing inl (Token__init__ cls indent s).
Proof.
  intros H. unfold tokenize_round, bind.
  rewrite (try_tokens_first_match indent H).
  destruct (Token__init__ cls indent s); reflexivity.
Qed.

Lemma tokenize_round_no_match indent s :
  no_match __ALLOWED_TOKENS s ->
  tokenize_round indent s = passing inr (next s).
Proof.
  intros H. unfold tokenize_round, bind.
  rewrite (try_tokens_no_match indent H).
  destruct (next s); reflexivity.
Qed.

(** In every state some class is the first to start here, or none starts. *)
Lemma first_match_or_none classes s :
  ~ In EndOfTextToken classes ->
  (exists cls, first_match classes s cls) \/ no_match classes s.
Proof.
  induction classes as [|c classes IH]; intros Hn.
  - right. intros c [].
  - assert (Hc : c <> EndOfTextToken) by (intros ->; apply Hn; now left).
    pose proof (starts_here_spec s Hc) as Hs.
    destruct (starts_here_value c s).
    + left. exists c, [], classes. repeat split; auto. intros c' [].
    + destruct IH as [(cls & before & after & -> & Hb & Hcls)|Hnone].
      * intros Hin. apply Hn. now right.
      * left. exists cls, (c :: before), after. repeat split; auto.
        intros c' [<-|Hin]; auto.
      * right. intros c' [<-|Hin]; auto.
Qed.

(** C2, as the code has it: the classes are tried in the order EscapeChar,
    Visual, Transformation, TabStop, Mirror, PythonCode, VimLCode, ShellCode.
    In every state either one class is the first whose predicate holds or
    none holds.  The round runs the parse of the first and, when that parse
    returns, yields its token (an exception of the parse leaves the round
    instead: no token of the round is yielded).  When no predicate holds and
    a character is left, the round consumes exactly that one character, and
    it is not among the yielded tokens. *)
Theorem first_recognizer_wins indent s :
  __ALLOWED_TOKENS =
    [ EscapeCharToken; VisualToken; TransformationToken; TabStopToken;
      MirrorToken; PythonCodeToken; VimLCodeToken; ShellCodeToken ] /\
  ((exists cls, first_match __ALLOWED_TOKENS s cls) \/ no_match __ALLOWED_TOKENS s) /\
  (forall cls,
     first_match __ALLOWED_TOKENS s cls ->
     tokenize_round indent s = passing inl (Token__init__ cls indent s) /\
     forall t s' fuel,
       Token__init__ cls indent s = Ok t s' ->
       class_of (attrs t) = cls /\
       tokenize_loop (S fuel) indent s =
       (Yielded t (_idx s) (_idx s') :: fst (tokenize_loop fuel indent s'),
        snd (tokenize_loop fuel indent s'))) /\
  (no_match __ALLOWED_TOKENS s ->
   tokenize_round indent s = passing inr (next s) /\
   forall c r fuel,
     remaining s = c :: r ->
     exists s',
       next s = Ok c s' /\ remaining s' = r /\
       tokenize_loop (S fuel) indent s =
       (Discarded c :: fst (tokenize_loop fuel indent s'),
        snd (tokenize_loop fuel indent s')) /\
       yielded (fst (tokenize_loop (S fuel) indent s)) =
       yielded (fst (tokenize_loop fuel indent s'))).
Proof.
  split; [reflexivity|]. split; [apply first_match_or_none, EndOfTextToken_not_allowed|].
  split.
  - intros cls H. pose proof (tokenize_round_first_match indent H) as Hr.
    split; [exact Hr|]. intros t s' fuel Ht. split.
    + apply Token__init__Ok in Ht as (_ & _ & Hp). now apply _parse_class in Hp.
    + simpl. rewrite Hr, Ht. simpl.
      now destruct (tokenize_loop fuel indent s').
  - intros H. pose proof (tokenize_round_no_match indent H) as Hr.
    split; [exact Hr|]. intros c r fuel Hrem.
    destruct (next_remaining _ Hrem) as (s' & Hn & Hr').
    exists s'. split; [exact Hn|]. split; [exact Hr'|].
    assert (E : tokenize_loop (S fuel) indent s =
                (Discarded c :: fst (tokenize_loop fuel indent s'),
                 snd (tokenize_loop fuel indent s'))).
    { simpl. rewrite Hr, Hn. simpl. now destruct (tokenize_loop fuel indent s'). }
    split; [exact E|]. now rewrite E.
Qed.

Lemma first_recognizer_wins_witness :
  let s := _TextIterator__init__ (txt "$1") origin in
  let s' := {| _text := txt "$1"; _line := 0; _col := 2; _idx := 2 |} in
  tokenize_round [] s =
  Ok (inl {| start := origin; attrs := Mirror 1; end_ := {| line := 0; col := 2 |} |}) s'.
Proof.
  intros s s'.
  destruct (first_recognizer_wins [] s) as (_ & _ & H & _).
  destruct (H MirrorToken) as [Hr _].
  - exists [EscapeCharToken; VisualToken; TransformationToken; TabStopToken],
           [PythonCodeToken; VimLCodeToken; ShellCodeToken].
    split; [reflexivity|]. split; [|vm_compute; reflexivity].
    intros c [<-|[<-|[<-|[<-|[]]]]]; vm_compute; reflexivity.
  - rewrite Hr. vm_compute. reflexivity.
Defined.

(** C2 as stated fails: at the start of a transformation that the input cuts
    short, Transformation is the first class whose predicate holds, and the
    round yields no token. *)
Lemma first_match_may_not_yield : ~ first_match_yields.
Proof.
  intros H.
  destruct (H [] (_TextIterator__init__ (txt "${1/foo") origin) TransformationToken)
    as (t & s' & Hr & _).
  - apply wf_init.
  - exists [EscapeCharToken; VisualToken],
           [TabStopToken; MirrorToken; PythonCodeToken; VimLCodeToken; ShellCodeToken].
    split; [reflexivity|]. split; [|vm_compute; reflexivity].
    intros c [<-|[<-|[]]]; vm_compute; reflexivity.
  - vm_compute in Hr. discriminate.
Qed.

(* ------------------------------------------------------------------ *)
(** ** Transformations that the input cuts short                       *)
(* ------------------------------------------------------------------ *)

Arguments is_digit : simpl never.
Arguments is_decimal : simpl never.
Arguments char_eqb : simpl never.

Lemma dollar_not_escape s r :
  remaining s = "$"%char :: r -> starts_here EscapeCharToken s = Ok false s.
Proof.
  intros H. rewrite starts_here_spec by discriminate.
  unfold starts_here_value. rewrite H. destruct r as [|c1 [|c2 r]]; reflexivity.
Qed.

Lemma VisualToken_CHECK_head (t : text) :
  VisualToken_CHECK (firstn 10 t) = true -> exists r, t = "$"%char :: r.
Proof.
  destruct t as [|c t]; [discriminate|]. unfold VisualToken_CHECK. simpl.
  intros H. apply andb_true_iff in H as [H _]. apply andb_true_iff in H as [H _].
  apply char_eqb_eq in H. subst c. eauto.
Qed.

Lemma TransformationToken_CHECK_head (t : text) :
  TransformationToken_CHECK (firstn 10 t) = true ->
  exists d r, t = "$"%char :: "{"%char :: d :: r /\ is_decimal d = true.
Proof.
  destruct t as [|c0 [|c1 [|d r]]]; try discriminate; unfold TransformationToken_CHECK;
    simpl; intros H.
  - rewrite andb_false_r in H. discriminate.
  - apply andb_true_iff in H as [H Hd]. apply andb_true_iff in H as [H0 H1].
    apply char_eqb_eq in H0, H1. subst c0 c1. exists d, r. split; [reflexivity|].
    unfold after_digits in Hd. simpl in Hd.
    destruct (is_decimal d); [reflexivity | discriminate].
Qed.

Lemma digit_not_visual (t : text) :
  TransformationToken_CHECK (firstn 10 t) = true -> VisualToken_CHECK (firstn 10 t) = false.
Proof.
  intros H. apply TransformationToken_CHECK_head in H as (d & r & -> & Hd).
  unfold VisualToken_CHECK. simpl.
  destruct (char_eqb "V" d) eqn:E; [|reflexivity].
  apply char_eqb_eq in E. subst d. vm_compute in Hd. discriminate.
Qed.

Lemma Visual_first_match s :
  starts_here VisualToken s = Ok true s -> first_match __ALLOWED_TOKENS s VisualToken.
Proof.
  intros H. exists [EscapeCharToken], [TransformationToken; TabStopToken; MirrorToken;
                                       PythonCodeToken; VimLCodeToken; ShellCodeToken].
  split; [reflexivity|]. split; [|exact H].
  intros c [<-|[]]. rewrite starts_here_spec in H by discriminate.
  inversion H as [Hv]. apply VisualToken_CHECK_head in Hv as (r & Hr).
  eapply dollar_not_escape; eauto.
Qed.

Lemma Transformation_first_match s :
  starts_here TransformationToken s = Ok true s ->
  first_match __ALLOWED_TOKENS s TransformationToken.
Proof.
  intros H. exists [EscapeCharToken; VisualToken],
                   [TabStopToken; MirrorToken; PythonCodeToken; VimLCodeToken; ShellCodeToken].
  split; [reflexivity|]. split; [|exact H].
  rewrite starts_here_spec in H by discriminate. inversion H as [Hv].
  intros c [<-|[<-|[]]].
  - apply TransformationToken_CHECK_head in Hv as (d & r & Hr & _).
    eapply dollar_not_escape; eauto.
  - rewrite starts_here_spec by discriminate. unfold starts_here_value.
    now rewrite (digit_not_visual _ Hv).
Qed.

Lemma Token__init__Raise cls indent s e s' :
  _parse cls indent s = Raise e s' -> Token__init__ cls indent s = Raise e s'.
Proof. intros H. unfold Token__init__, bind, pos. now rewrite H. Qed.

(** A round that raises an exception other than [StopIteration] aborts the
    run that got there. *)
Lemma tokenize_aborts t indent offset evs s e s' :
  drives indent (_TextIterator__init__ t offset) evs s ->
  tokenize_round indent s = Raise e s' -> e <> StopIteration ->
  tokenize t indent offset = (yielded evs, Aborted e).
Proof.
  intros Hd Hr Hne.
  assert (R : run indent (_TextIterator__init__ t offset) (evs ++ []) (Aborted e)).
  { eapply drives_run; eauto. eapply run_abort; eauto. }
  rewrite app_nil_r in R. apply tokenize_trace_run in R.
  unfold tokenize. now rewrite R.
Qed.

(** A round that raises [StopIteration] ends the run that got there with the
    [EndOfText] token. *)
Lemma tokenize_ends t indent offset evs s s' :
  drives indent (_TextIterator__init__ t offset) evs s ->
  tokenize_round indent s = Raise StopIteration s' ->
  tokenize t indent offset =
  (yielded evs ++ [{| start := position s'; attrs := EndOfText; end_ := position s' |}],
   Finished).
Proof.
  intros Hd Hr.
  pose proof (drives_run Hd (run_end _ Hr (EndOfTextToken__init__ indent s'))) as R.
  apply tokenize_trace_run in R. unfold tokenize. rewrite R.
  now rewrite yielded_app.
Qed.

(** C4: when the driver gets to a Visual token whose alternative text ends at
    a slash, and the scan for the search pattern, or after it the scan for the
    replacement, runs out of input before its closing slash, [tokenize] is
    aborted by the malformed-transformation error (after the tokens yielded on
    the way there); so it is on [${VISUAL/a}], which yields nothing. *)
Theorem malformed_visual_is_fatal :
  (forall t indent offset evs s alternative_text s1,
     drives indent (_TextIterator__init__ t offset) evs s ->
     starts_here VisualToken s = Ok true s ->
     VisualToken_alternative s = Ok (alternative_text, "/"%char) s1 ->
     ((exists s2, _parse_till_unescaped_char (txt "/") s1 = Raise StopIteration s2) \/
      (exists search s2 s3,
         _parse_till_unescaped_char (txt "/") s1 = Ok search s2 /\
         _parse_till_unescaped_char (txt "/") s2 = Raise StopIteration s3)) ->
     tokenize t indent offset =
     (yielded evs, Aborted (RuntimeError malformed_transformation))) /\
  tokenize (txt "${VISUAL/a}") [] origin =
  ([], Aborted (RuntimeError malformed_transformation)).
Proof.
  split; [|vm_compute; reflexivity].
  intros t indent offset evs s alt s1 Hd Hv Halt Hscan.
  assert (Hp : exists s', VisualToken_parse s
                          = Raise (RuntimeError malformed_transformation) s').
  { unfold VisualToken_parse, bind at 1. rewrite Halt. simpl.
    unfold try_except, transformation_scans.
    destruct Hscan as [(s2 & H1)|(search & s2 & s3 & H1 & H2)].
    - exists s2. unfold bind at 1. unfold bind at 1. now rewrite H1.
    - exists s3. unfold bind at 1. unfold bind at 1. rewrite H1.
      unfold bind at 1. now rewrite H2. }
  destruct Hp as (s' & Hp).
  eapply tokenize_aborts; [exact Hd| |discriminate].
  rewrite (@tokenize_round_first_match indent s VisualToken (@Visual_first_match s Hv)).
  now rewrite (@Token__init__Raise VisualToken indent s _ s' Hp).
Qed.

Lemma malformed_visual_is_fatal_witness :
  tokenize (txt "$1${VISUAL:x/y}") [] origin =
  ([{| start := origin; attrs := Mirror 1; end_ := {| line := 0; col := 2 |} |}],
   Aborted (RuntimeError malformed_transformation)).
Proof.
  pose (s0 := _TextIterator__init__ (txt "$1${VISUAL:x/y}") origin).
  pose (s := {| _text := txt "$1${VISUAL:x/y}"; _line := 0; _col := 2; _idx := 2 |}).
  pose (s1 := {| _text := txt "$1${VISUAL:x/y}"; _line := 0; _col := 13; _idx := 13 |}).
  pose (s2 := {| _text := txt "$1${VISUAL:x/y}"; _line := 0; _col := 15; _idx := 15 |}).
  pose (m := {| start := origin; attrs := Mirror 1; end_ := {| line := 0; col := 2 |} |}).
  apply (proj1 malformed_visual_is_fatal (txt "$1${VISUAL:x/y}") [] origin
           [Yielded m 0 2] s (txt "x") s1).
  - apply (@drives_yield [] s0 m s [] s); [vm_compute; reflexivity | apply drives_here].
  - vm_compute. reflexivity.
  - vm_compute. reflexivity.
  - left. exists s2. vm_compute. reflexivity.
Defined.

(** C8: when the driver gets to a Transformation token and the scan for the
    search pattern, for the replacement or for the options runs out of input
    before its closing delimiter, [tokenize] raises no error: the driver
    catches the end of the input, the token cut short is not yielded, and the
    sequence ends with the one [EndOfText] token after the tokens yielded on
    the way there; so it is on [${1/foo], which yields [EndOfText] alone. *)
Theorem cut_short_transformation_ends_quietly :
  (forall t indent offset evs s number s1 s',
     drives indent (_TextIterator__init__ t offset) evs s ->
     starts_here TransformationToken s = Ok true s ->
     TransformationToken_number s = Ok number s1 ->
     (_parse_till_unescaped_char (txt "/") s1 = Raise StopIteration s' \/
      (exists search s2,
         _parse_till_unescaped_char (txt "/") s1 = Ok search s2 /\
         _parse_till_unescaped_char (txt "/") s2 = Raise StopIteration s') \/
      (exists search s2 replace s3,
         _parse_till_unescaped_char (txt "/") s1 = Ok search s2 /\
         _parse_till_unescaped_char (txt "/") s2 = Ok replace s3 /\
         _parse_till_closing_brace s3 = Raise StopIteration s')) ->
     tokenize t indent offset =
     (yielded evs ++
        [{| start := position s'; attrs := EndOfText; end_ := position s' |}],
      Finished) /\
     Forall (fun tok => ~ is_EndOfText tok) (yielded evs)) /\
  tokenize (txt "${1/foo") [] origin =
  ([{| start := {| line := 0; col := 7 |}; attrs := EndOfText;
       end_ := {| line := 0; col := 7 |} |}], Finished).
Proof.
  split; [|vm_compute; reflexivity].
  intros t indent offset evs s number s1 s' Hd Hv Hnum Hscan.
  assert (Hp : TransformationToken_parse s = Raise StopIteration s').
  { unfold TransformationToken_parse, bind at 1. rewrite Hnum.
    unfold transformation_scans.
    destruct Hscan as [H1|[(search & s2 & H1 & H2)|(search & s2 & replace & s3 & H1 & H2 & H3)]].
    - unfold bind at 1. unfold bind at 1. now rewrite H1.
    - unfold bind at 1. unfold bind at 1. rewrite H1.
      unfold bind at 1. now rewrite H2.
    - unfold bind at 1. unfold bind at 1. rewrite H1.
      unfold bind at 1. rewrite H2. unfold bind at 1. now rewrite H3. }
  assert (Hr : tokenize_round indent s = Raise StopIteration s').
  { rewrite (@tokenize_round_first_match indent s TransformationToken
               (@Transformation_first_match s Hv)).
    now rewrite (@Token__init__Raise TransformationToken indent s _ s' Hp). }
  pose proof (@tokenize_ends t indent offset evs s s' Hd Hr) as Ht.
  split; [exact Ht|].
  assert (R : run indent (_TextIterator__init__ t offset)
                (evs ++ [Caught (_idx s) (_idx s');
                         Yielded {| start := position s'; attrs := EndOfText;
                                    end_ := position s' |} (_idx s') (_idx s')])
                Finished).
  { eapply drives_run; [exact Hd|].
    eapply run_end; [exact Hr | apply EndOfTextToken__init__]. }
  destruct (run_EndOfText R (wf_init t offset)) as [Hone _].
  destruct (Hone eq_refl) as (before & last & E & _ & Hb).
  rewrite yielded_app in E. simpl in E.
  apply app_inj_tail in E as [-> _]. exact Hb.
Qed.

Lemma cut_short_transformation_ends_quietly_witness :
  tokenize (txt "$1${2/a/b") [] origin =
  ([{| start := origin; attrs := Mirror 1; end_ := {| line := 0; col := 2 |} |};
    {| start := {| line := 0; col := 9 |}; attrs := EndOfText;
       end_ := {| line := 0; col := 9 |} |}], Finished).
Proof.
  pose (s0 := _TextIterator__init__ (txt "$1${2/a/b") origin).
  pose (s := {| _text := txt "$1${2/a/b"; _line := 0; _col := 2; _idx := 2 |}).
  pose (s1 := {| _text := txt "$1${2/a/b"; _line := 0; _col := 6; _idx := 6 |}).
  pose (s2 := {| _text := txt "$1${2/a/b"; _line := 0; _col := 8; _idx := 8 |}).
  pose (s' := {| _text := txt "$1${2/a/b"; _line := 0; _col := 9; _idx := 9 |}).
  pose (m := {| start := origin; attrs := Mirror 1; end_ := {| line := 0; col := 2 |} |}).
  apply (proj1 cut_short_transformation_ends_quietly (txt "$1${2/a/b") [] origin
           [Yielded m 0 2] s 2%Z s1 s').
  - apply (@drives_yield [] s0 m s [] s); [vm_compute; reflexivity | apply drives_here].
  - vm_compute. reflexivity.
  - vm_compute. reflexivity.
  - right. left. exists (txt "a", "/"%char), s2. split; vm_compute; reflexivity.
Defined.

(* ------------------------------------------------------------------ *)
(** ** The tab stop                                                    *)
(* ------------------------------------------------------------------ *)

Unset Implicit Arguments.

(** The digits of [string.digits] are decimal digits, with the value that
    their place among the characters gives them. *)
Lemma is_digit_cases c :
  is_digit c = true <->
  (c = "0" \/ c = "1" \/ c = "2" \/ c = "3" \/ c = "4" \/
   c = "5" \/ c = "6" \/ c = "7" \/ c = "8" \/ c = "9")%char.
Proof.
  unfold is_digit. rewrite str_in_char. unfold digits. cbn [txt existsb].
  rewrite !orb_true_iff, !char_eqb_eq. change (N_of_ascii "0") with ("0"%char).
  change (N_of_ascii "1") with ("1"%char). change (N_of_ascii "2") with ("2"%char).
  change (N_of_ascii "3") with ("3"%char). change (N_of_ascii "4") with ("4"%char).
  change (N_of_ascii "5") with ("5"%char). change (N_of_ascii "6") with ("6"%char).
  change (N_of_ascii "7") with ("7"%char). change (N_of_ascii "8") with ("8"%char).
  change (N_of_ascii "9") with ("9"%char).
  intuition discriminate.
Qed.

Lemma decimal_value_digit c :
  is_digit c = true -> decimal_value c = Some (Z.of_N c - 48)%Z.
Proof.
  intros H. apply is_digit_cases in H.
  repeat (destruct H as [->|H]; [reflexivity|]). subst c. reflexivity.
Qed.

Lemma is_digit_decimal c : is_digit c = true -> is_decimal c = true.
Proof.
  intros H. unfold is_decimal. now rewrite (decimal_value_digit c H).
Qed.

Lemma span_digits_spec (t : text) :
  let '(ds, r) := span_digits t in
  t = ds ++ r /\ forallb is_decimal ds = true /\
  match r with c :: _ => is_decimal c = false | [] => True end.
Proof.
  induction t as [|c t IH]; simpl; [auto|].
  destruct (is_decimal c) eqn:E.
  - destruct (span_digits t) as [ds r]. destruct IH as (-> & Hd & Hr).
    simpl. rewrite E. auto.
  - simpl. rewrite E. auto.
Qed.

Lemma span_digits_app (ds : text) c (r : text) :
  forallb is_decimal ds = true -> is_decimal c = false ->
  span_digits (ds ++ c :: r) = (ds, c :: r).
Proof.
  intros Hd Hc. induction ds as [|d ds IH]; simpl.
  - now rewrite Hc.
  - simpl in Hd. apply andb_true_iff in Hd as [Hd1 Hd2].
    rewrite Hd1, (IH Hd2). reflexivity.
Qed.





Lemma while_true_S (A B : Type) fuel (body : A -> M (A + B)) a s :
  while_true (S fuel) body a s =
  match body a s with
  | Ok (inl a') s' => while_true fuel body a' s'
  | Ok (inr b) s' => Ok b s'
  | Raise e s' => Raise e s'
  | OutOfFuel => OutOfFuel
  end.
Proof. reflexivity. Qed.

Lemma next_cons s c r :
  remaining s = c :: r ->
  exists s', next s = Ok c s' /\ remaining s' = r /\ _text s' = _text s.
Proof.
  intros H. destruct (next_remaining s H) as (s' & Hn & Hr).
  exists s'. destruct (next_Ok s Hn) as (_ & Ht & _). auto.
Qed.

Lemma peek1_cons s c r : remaining s = c :: r -> peek 1 s = Ok (Some [c]) s.
Proof. intros H. rewrite peek_spec. unfold peek_value. now rewrite H. Qed.

Lemma peek1_nil s : remaining s = [] -> peek 1 s = Ok None s.
Proof. intros H. rewrite peek_spec. unfold peek_value. now rewrite H. Qed.

Lemma remaining_length s : length (remaining s) = length (_text s) - _idx s.
Proof. unfold remaining. apply length_skipn. Qed.

Lemma _parse_number_body_digit rv s d r :
  remaining s = d :: r -> is_digit d = true ->
  exists s',
    _parse_number_body rv s = Ok (inl (rv ++ [d])) s' /\
    remaining s' = r /\ _text s' = _text s.
Proof.
  intros Hrem Hd. unfold _parse_number_body.
  unfold bind at 1. rewrite (peek1_cons s d r Hrem).
  unfold bind at 1. rewrite (peek1_cons s d r Hrem).
  unfold is_digit in Hd. rewrite Hd.
  destruct (next_cons s d r Hrem) as (s1 & Hn & Hr1 & Ht1).
  exists s1. unfold bind. rewrite Hn. auto.
Qed.

Lemma _parse_number_body_stop rv s :
  head_in digits (remaining s) = false -> _parse_number_body rv s = Ok (inr rv) s.
Proof.
  intros Hrest. unfold _parse_number_body. destruct (remaining s) as [|c rest'] eqn:Hrem.
  - unfold bind at 1. now rewrite (peek1_nil s Hrem).
  - unfold bind at 1. rewrite (peek1_cons s c rest' Hrem).
    unfold bind at 1. rewrite (peek1_cons s c rest' Hrem).
    unfold head_in in Hrest. now rewrite Hrest.
Qed.

(** The loop of [_parse_number] on a run of digits: it takes the whole run
    and stops in front of what follows. *)
Lemma _parse_number_loop (ds rest : text) :
  forallb is_digit ds = true -> head_in digits rest = false ->
  forall rv fuel s,
    remaining s = ds ++ rest -> length ds < fuel ->
    exists s',
      while_true fuel _parse_number_body rv s = Ok (rv ++ ds) s' /\
      remaining s' = rest /\ _text s' = _text s.
Proof.
  intros Hd Hrest. induction ds as [|d ds IH]; intros rv fuel s Hrem Hf;
    (destruct fuel as [|fuel]; [simpl in Hf; lia|]); rewrite while_true_S.
  - simpl in Hrem. exists s. rewrite app_nil_r.
    rewrite _parse_number_body_stop; [auto | now rewrite Hrem].
  - simpl in Hrem, Hd. apply andb_true_iff in Hd as [Hd1 Hd2].
    destruct (_parse_number_body_digit rv s d _ Hrem Hd1) as (s1 & Hb & Hr1 & Ht1).
    rewrite Hb.
    destruct (IH Hd2 (rv ++ [d]) fuel s1 Hr1) as (s' & Hw & Hr' & Ht'); [simpl in Hf; lia|].
    exists s'. rewrite Hw, <- app_assoc. simpl. split; [reflexivity|]. split; congruence.
Qed.

Lemma int_digits_fold (ds : text) :
  forallb is_digit ds = true ->
  forall acc,
    int_digits acc ds =
    Some (fold_left (fun acc c => (10 * acc + (Z.of_N c - 48))%Z) ds acc).
Proof.
  induction ds as [|d ds IH]; intros Hd acc; simpl; [reflexivity|].
  simpl in Hd. apply andb_true_iff in Hd as [Hd1 Hd2].
  rewrite (decimal_value_digit d Hd1). now apply IH.
Qed.

(** [int] of a run of digits of [string.digits]: the number that the run
    denotes when the run has at most [max_str_digits] digits, the
    [ValueError] when it has more, or none. *)
Lemma py_int_digits (ds : text) :
  ds <> [] -> forallb is_digit ds = true ->
  (Z.of_nat (length ds) <= max_str_digits)%Z ->
  py_int ds = Some (number_of ds).
Proof.
  intros Hne Hd Hl. unfold py_int. destruct ds as [|d ds]; [contradiction|].
  destruct (max_str_digits <? Z.of_nat (length (d :: ds)))%Z eqn:E.
  - apply Z.ltb_lt in E. lia.
  - apply int_digits_fold. exact Hd.
Qed.

Lemma py_int_long (ds : text) :
  (max_str_digits < Z.of_nat (length ds))%Z -> py_int ds = None.
Proof.
  intros Hl. unfold py_int. destruct ds as [|d ds]; [reflexivity|].
  apply Z.ltb_lt in Hl. now rewrite Hl.
Qed.

(** [_parse_number] in front of a run of digits of [string.digits] takes the
    whole run and passes it to [int]. *)
Lemma _parse_number_run s (ds rest : text) :
  remaining s = ds ++ rest ->
  forallb is_digit ds = true -> head_in digits rest = false ->
  exists s',
    remaining s' = rest /\ _text s' = _text s /\
    _parse_number s = match py_int ds with
                      | Some n => Ok n s'
                      | None => Raise ValueError s'
                      end.
Proof.
  intros Hrem Hd Hrest.
  assert (Hf : length ds < S (length (_text s) - _idx s)).
  { rewrite <- remaining_length, Hrem, length_app. lia. }
  destruct (_parse_number_loop ds rest Hd Hrest [] _ s Hrem Hf) as (s' & Hw & Hr & Ht).
  exists s'. split; [exact Hr|]. split; [exact Ht|].
  unfold _parse_number, bind, loop. rewrite Hw. cbn [app].
  destruct (py_int ds); reflexivity.
Qed.


Lemma EscapeCharToken_starts_here_spec chars s :
  EscapeCharToken_starts_here chars s =
  Ok (match firstn 2 (remaining s) with
      | [c0; c1] => char_eqb c0 backslash && str_in [c1] chars
      | _ => false
      end) s.
Proof.
  unfold EscapeCharToken_starts_here, bind. rewrite peek_spec. unfold peek_value.
  destruct (firstn 2 (remaining s)) as [|c0 [|c1 [|c2 cs]]]; reflexivity.
Qed.

Lemma escape_here chars s c r :
  remaining s = c :: r ->
  EscapeCharToken_starts_here chars s = Ok (char_eqb c backslash && head_in chars r) s.
Proof.
  intros H. rewrite EscapeCharToken_starts_here_spec, H.
  destruct r as [|d r]; cbn [firstn head_in]; [now rewrite andb_false_r | reflexivity].
Qed.

Lemma _parse_till_closing_brace_body_escape rv depth s d r :
  remaining s = backslash :: d :: r -> str_in [d] (txt "{}") = true ->
  exists s',
    _parse_till_closing_brace_body (rv, depth) s = Ok (inl (rv ++ [backslash; d], depth)) s' /\
    remaining s' = r /\ _text s' = _text s.
Proof.
  intros Hrem Hd. unfold _parse_till_closing_brace_body.
  unfold bind at 1. rewrite (escape_here _ s _ _ Hrem).
  cbn [head_in]. rewrite Hd, char_eqb_refl. cbn [andb].
  destruct (next_cons s _ _ Hrem) as (s1 & Hn1 & Hr1 & Ht1).
  destruct (next_cons s1 _ _ Hr1) as (s2 & Hn2 & Hr2 & Ht2).
  exists s2. unfold bind. rewrite Hn1, Hn2. split; [reflexivity|]. split; congruence.
Qed.

Lemma _parse_till_closing_brace_body_step rv depth s c r :
  remaining s = c :: r -> char_eqb c backslash && head_in (txt "{}") r = false ->
  exists s',
    _parse_till_closing_brace_body (rv, depth) s =
    Ok (if (brace_step depth c =? 0)%Z then inr rv
        else inl (rv ++ [c], brace_step depth c)) s' /\
    remaining s' = r /\ _text s' = _text s.
Proof.
  intros Hrem Hc. unfold _parse_till_closing_brace_body.
  unfold bind at 1. rewrite (escape_here _ s _ _ Hrem), Hc.
  destruct (next_cons s _ _ Hrem) as (s1 & Hn & Hr1 & Ht1).
  exists s1. unfold bind. rewrite Hn. unfold brace_step.
  split; [|auto]. cbv zeta.
  match goal with |- context [(?x =? 0)%Z] => destruct (x =? 0)%Z end; reflexivity.
Qed.

(** The loop of [_parse_till_closing_brace] over a text that the scan takes
    whole: it returns the text, escapes included, and stops behind the
    closing brace that follows it. *)
Lemma _parse_till_closing_brace_loop (rest : text) n :
  forall (body : text) rv depth fuel s,
    length body < n ->
    brace_scanned depth body = true ->
    remaining s = body ++ "}"%char :: rest -> length body < fuel ->
    exists s',
      while_true fuel _parse_till_closing_brace_body (rv, depth) s = Ok (rv ++ body) s' /\
      remaining s' = rest /\ _text s' = _text s.
Proof.
  induction n as [|n IH]; intros body rv depth fuel s Hn Hb Hrem Hf; [lia|].
  destruct fuel as [|fuel]; [lia|]. rewrite while_true_S.
  destruct body as [|c [|d body]].
  - cbn [brace_scanned] in Hb. apply Z.eqb_eq in Hb. subst depth. simpl in Hrem.
    destruct (_parse_till_closing_brace_body_step rv 1%Z s _ _ Hrem eq_refl)
      as (s1 & Hs & Hr1 & Ht1).
    rewrite Hs. exists s1. rewrite app_nil_r. auto.
  - cbn [brace_scanned] in Hb. apply andb_true_iff in Hb as [Hc Hd].
    apply negb_true_iff in Hc. apply Z.eqb_eq in Hd. simpl in Hrem.
    destruct (_parse_till_closing_brace_body_step rv depth s _ _ Hrem)
      as (s1 & Hs & Hr1 & Ht1); [now rewrite Hc|].
    rewrite Hs, Hd. cbv beta iota.
    destruct (IH [] (rv ++ [c]) 1%Z fuel s1) as (s' & Hw & Hr' & Ht');
      [simpl; simpl in Hn; lia | reflexivity | exact Hr1 | simpl in Hf; simpl; lia|].
    rewrite app_nil_r in Hw. exists s'. split; [exact Hw|]. split; congruence.
  - cbn [brace_scanned] in Hb. simpl in Hrem.
    destruct (char_eqb c backslash && str_in [d] (txt "{}")) eqn:E.
    + apply andb_true_iff in E as [Ec Ed]. apply char_eqb_eq in Ec. subst c.
      destruct (_parse_till_closing_brace_body_escape rv depth s _ _ Hrem Ed)
        as (s1 & Hs & Hr1 & Ht1).
      rewrite Hs.
      destruct (IH body (rv ++ [backslash; d]) depth fuel s1) as (s' & Hw & Hr' & Ht');
        [simpl in Hn; lia | exact Hb | exact Hr1 | simpl in Hf; lia|].
      exists s'. rewrite <- app_assoc in Hw. split; [exact Hw|]. split; congruence.
    + apply andb_true_iff in Hb as [Hz Hb]. apply negb_true_iff in Hz.
      destruct (_parse_till_closing_brace_body_step rv depth s _ _ Hrem E)
        as (s1 & Hs & Hr1 & Ht1).
      rewrite Hs, Hz. cbv beta iota.
      destruct (IH (d :: body) (rv ++ [c]) (brace_step depth c) fuel s1)
        as (s' & Hw & Hr' & Ht');
        [simpl in Hn; simpl; lia | exact Hb | exact Hr1 | simpl in Hf; simpl; lia|].
      exists s'. rewrite <- app_assoc in Hw. split; [exact Hw|]. split; congruence.
Qed.

Lemma _parse_till_closing_brace_scanned s (body rest : text) :
  brace_scanned 1 body = true ->
  remaining s = body ++ "}"%char :: rest ->
  exists s', _parse_till_closing_brace s = Ok body s' /\ remaining s' = rest.
Proof.
  intros Hb Hrem.
  assert (Hf : length body < S (length (_text s) - _idx s)).
  { rewrite <- remaining_length, Hrem, length_app. lia. }
  destruct (_parse_till_closing_brace_loop rest (S (length body)) body [] 1%Z _ s
              (Nat.lt_succ_diag_r _) Hb Hrem Hf) as (s' & Hw & Hr & _).
  exists s'. split; [exact Hw | exact Hr].
Qed.

(** A text without backslash whose braces are balanced is taken whole. *)
Lemma plain_brace_scanned (body : text) :
  forall depth,
    plain body = true -> open_throughout depth body = true ->
    brace_depth depth body = 1%Z -> brace_scanned depth body = true.
Proof.
  induction body as [|c body IH]; intros depth Hp Ho Hd.
  - unfold brace_depth in Hd. simpl in Hd. subst depth. reflexivity.
  - simpl in Hp, Ho. apply andb_true_iff in Hp as [Hc Hp].
    apply andb_true_iff in Ho as [Hz Ho]. apply negb_true_iff in Hc.
    specialize (IH (brace_step depth c) Hp Ho Hd).
    cbn [brace_scanned]. destruct body as [|d body].
    + rewrite Hc. cbn [brace_scanned] in IH. exact IH.
    + rewrite Hc. cbn [andb]. now rewrite Hz.
Qed.



(** Where no digit of [string.digits] is next, [_parse_number] raises the
    [ValueError] of [int] on the empty text and consumes nothing. *)
Lemma _parse_number_no_digit s :
  head_in digits (remaining s) = false -> _parse_number s = Raise ValueError s.
Proof.
  intros Hh. unfold _parse_number, bind, loop. rewrite while_true_S.
  now rewrite (_parse_number_body_stop [] s Hh).
Qed.





(** The same at a tab stop that the recognizer matches: behind [${] the
    Arabic-Indic digit one (U+0661) is a decimal digit for [\d] and none of
    [string.digits], and [tokenize] is aborted by the [ValueError]. *)
Example tab_stop_of_another_digit :
  starts_here TabStopToken (_TextIterator__init__ (txt "${" ++ [0x661%N] ++ txt "}") origin)
  = Ok true (_TextIterator__init__ (txt "${" ++ [0x661%N] ++ txt "}") origin) /\
  tokenize (txt "${" ++ [0x661%N] ++ txt "}") [] origin = ([], Aborted ValueError).
Proof. split; vm_compute; reflexivity. Qed.

(* ------------------------------------------------------------------ *)
(** ** Further properties: the iterator and the scanners               *)
(* ------------------------------------------------------------------ *)

Lemma remaining_nil s : remaining s = [] <-> length (_text s) <= _idx s.
Proof.
  unfold remaining. split; intros H.
  - apply (f_equal (@length char)) in H. rewrite length_skipn in H. simpl in H. lia.
  - now apply skipn_all2.
Qed.

Lemma next_stops_at_the_end_aux s e s' :
  next s = Raise e s' -> e = StopIteration /\ s' = s /\ remaining s = [].
Proof.
  intros H. unfold next in H.
  destruct (length (_text s) <=? _idx s) eqn:E.
  - inversion H; subst. apply Nat.leb_le in E. repeat split. now apply remaining_nil.
  - apply Nat.leb_gt in E.
    destruct (nth_error (_text s) (_idx s)) as [rv|] eqn:En.
    + destruct (in_tuple _ _); discriminate.
    + apply nth_error_None in En. lia.
Qed.

(** X1: at the end of the text [next] raises [StopIteration] and leaves the
    iterator as it is; it raises nothing else, and raises only there. *)
Theorem next_stops_at_the_end s :
  (remaining s = [] -> next s = Raise StopIteration s) /\
  (forall e s', next s = Raise e s' -> e = StopIteration /\ s' = s /\ remaining s = []).
Proof.
  split.
  - intros H. apply remaining_nil in H. unfold next.
    apply Nat.leb_le in H. now rewrite H.
  - intros e s'. apply next_stops_at_the_end_aux.
Qed.

Lemma next_stops_at_the_end_witness :
  next {| _text := txt "ab"; _line := 0; _col := 2; _idx := 2 |}
  = Raise StopIteration {| _text := txt "ab"; _line := 0; _col := 2; _idx := 2 |}.
Proof.
  apply (proj1 (next_stops_at_the_end
                  {| _text := txt "ab"; _line := 0; _col := 2; _idx := 2 |})).
  reflexivity.
Defined.

Lemma _unescape_cons2 c d (t : text) :
  _unescape (c :: d :: t) =
  if char_eqb c backslash then d :: _unescape t else c :: _unescape (d :: t).
Proof. reflexivity. Qed.

Lemma _unescape_length_both (t : text) :
  length (_unescape t) <= length t /\
  forall c, length (_unescape (c :: t)) <= S (length t).
Proof.
  induction t as [|d t [IH1 IH2]].
  - split; [simpl; lia | intros c; simpl; lia].
  - split; [apply IH2|]. intros c. rewrite _unescape_cons2.
    destruct (char_eqb c backslash).
    + simpl length. lia.
    + specialize (IH2 d). set (u := _unescape (d :: t)) in *. simpl length in *. lia.
Qed.

(** X2: [_unescape] gives back a text that has no backslash as it is, takes
    the backslashes out of a text in which every character is escaped, and
    never makes a text longer. *)
Theorem _unescape_removes_escapes (t : text) :
  (plain t = true -> _unescape t = t) /\
  _unescape (escape_all t) = t /\
  length (_unescape t) <= length t.
Proof.
  split; [|split].
  - induction t as [|c t IH]; [reflexivity|]. intros Hp.
    simpl in Hp. apply andb_true_iff in Hp as [Hc Hp]. apply negb_true_iff in Hc.
    destruct t as [|d t]; [reflexivity|].
    rewrite _unescape_cons2, Hc. f_equal. now apply IH.
  - induction t as [|c t IH]; [reflexivity|].
    change (escape_all (c :: t)) with (backslash :: c :: escape_all t).
    rewrite _unescape_cons2, char_eqb_refl. now f_equal.
  - apply _unescape_length_both.
Qed.

Lemma _unescape_removes_escapes_witness :
  _unescape (txt "a/b") = txt "a/b".
Proof.
  apply (proj1 (_unescape_removes_escapes (txt "a/b"))). reflexivity.
Defined.

Lemma digit_value_range d : is_digit d = true -> (48 <= Z.of_N d <= 57)%Z.
Proof.
  intros H. apply is_digit_cases in H.
  repeat (destruct H as [->|H]; [vm_compute; split; discriminate|]).
  subst d. vm_compute; split; discriminate.
Qed.

Lemma number_of_nonneg (ds : text) :
  forallb is_digit ds = true -> (0 <= number_of ds)%Z.
Proof.
  unfold number_of. intros Hd.
  assert (H : forall acc, (0 <= acc)%Z ->
            (0 <= fold_left (fun acc c => 10 * acc + (Z.of_N c - 48)) ds acc)%Z).
  { induction ds as [|d ds IH]; intros acc Hacc; cbn [fold_left]; [exact Hacc|].
    cbn [forallb] in Hd. apply andb_true_iff in Hd as [Hd1 Hd2].
    apply digit_value_range in Hd1. apply IH; [exact Hd2 | lia]. }
  apply H. lia.
Qed.

(** X3: in front of a run of digits of [string.digits] [_parse_number]
    consumes the run and nothing behind it.  It returns the number that the
    run denotes, which is not negative, when the run has at most
    [max_str_digits] digits (4300, the limit of [int]); it raises [ValueError]
    when the run is longer.  Where no such digit is next it raises
    [ValueError] and consumes nothing. *)
Theorem _parse_number_reads_the_run s :
  (forall ds rest,
     remaining s = ds ++ rest -> ds <> [] ->
     forallb is_digit ds = true -> head_in digits rest = false ->
     exists s',
       remaining s' = rest /\ consumed_between s s' = ds /\ (0 <= number_of ds)%Z /\
       ((Z.of_nat (length ds) <= max_str_digits)%Z ->
        _parse_number s = Ok (number_of ds) s') /\
       ((max_str_digits < Z.of_nat (length ds))%Z ->
        _parse_number s = Raise ValueError s')) /\
  (head_in digits (remaining s) = false -> _parse_number s = Raise ValueError s).
Proof.
  split.
  - intros ds rest Hrem Hne Hd Hrest.
    destruct (_parse_number_run s ds rest Hrem Hd Hrest) as (s' & Hr & Ht & Hp).
    exists s'. split; [exact Hr|]. split; [|split; [now apply number_of_nonneg|]].
    + assert (W : wf s).
      { unfold wf. destruct (Nat.le_gt_cases (_idx s) (length (_text s))); [assumption|].
        assert (F : remaining s = []) by (apply remaining_nil; lia).
        rewrite Hrem in F. destruct ds; [contradiction | discriminate]. }
      pose proof (sound__parse_number W) as Hs. rewrite Hp in Hs.
      assert (Ha : advances s s') by (destruct (py_int ds); [exact Hs | exact (proj1 Hs)]).
      destruct Ha as (_ & Hi & W' & _). unfold wf in W, W'.
      pose proof (remaining_length s) as L. pose proof (remaining_length s') as L'.
      rewrite Hrem, length_app in L. rewrite Hr, Ht in L'. rewrite Ht in W'.
      unfold consumed_between, slice. fold (remaining s). rewrite Hrem.
      replace (_idx s' - _idx s) with (length ds) by lia.
      rewrite firstn_app, Nat.sub_diag, firstn_all. simpl. apply app_nil_r.
    + split; intros Hl; rewrite Hp.
      * now rewrite (py_int_digits ds Hne Hd Hl).
      * now rewrite (py_int_long ds Hl).
  - apply _parse_number_no_digit.
Qed.

Lemma _parse_number_reads_the_run_witness :
  exists s',
    _parse_number (_TextIterator__init__ (txt "042}") origin) = Ok 42%Z s' /\
    remaining s' = txt "}".
Proof.
  destruct (proj1 (_parse_number_reads_the_run (_TextIterator__init__ (txt "042}") origin))
              (txt "042") (txt "}")) as (s' & Hr & _ & _ & Hok & _);
    [reflexivity | discriminate | reflexivity | reflexivity |].
  exists s'. split; [apply Hok; vm_compute; discriminate | exact Hr].
Defined.

(* ------------------------------------------------------------------ *)
(** ** Further properties: what the scanners consume and raise         *)
(* ------------------------------------------------------------------ *)

Lemma consumed_between_next s c s' : next s = Ok c s' -> consumed_between s s' = [c].
Proof.
  intros H. apply next_Ok in H as (Hn & _ & Hi & _).
  unfold consumed_between. rewrite Hi. replace (S (_idx s)) with (_idx s + 1) by lia.
  rewrite slice_from, (nth_error_skipn_cons _ _ Hn). reflexivity.
Qed.

Lemma consumed_between_same s : consumed_between s s = [].
Proof. apply slice_same. Qed.

Lemma consumed_between_trans s1 s2 s3 :
  advances s1 s2 -> advances s2 s3 ->
  consumed_between s1 s3 = consumed_between s1 s2 ++ consumed_between s2 s3.
Proof.
  intros (T1 & I1 & _) (T2 & I2 & _). unfold consumed_between.
  rewrite T1. now apply slice_app.
Qed.

Lemma advances_next s c s' : wf s -> next s = Ok c s' -> advances s s'.
Proof. intros W H. pose proof (sound_next W) as Hs. now rewrite H in Hs. Qed.

(** An invariant of the loop variables and of the iterator carries through a
    [while True] loop. *)
Lemma while_true_invariant (A B : Type) (body : A -> M (A + B))
  (Inv : A -> _TextIterator -> Prop) (Q : B -> _TextIterator -> Prop)
  (E : exn -> _TextIterator -> Prop) :
  (forall a s, Inv a s ->
     match body a s with
     | Ok (inl a') s' => Inv a' s'
     | Ok (inr b) s' => Q b s'
     | Raise e s' => E e s'
     | OutOfFuel => True
     end) ->
  forall fuel a s, Inv a s ->
    match while_true fuel body a s with
    | Ok b s' => Q b s'
    | Raise e s' => E e s'
    | OutOfFuel => True
    end.
Proof.
  intros Hbody. induction fuel as [|fuel IH]; intros a s HI; [exact I|].
  rewrite while_true_S. specialize (Hbody a s HI).
  destruct (body a s) as [[a'|b] s'|e s'|]; try exact Hbody.
  apply IH. exact Hbody.
Qed.

Lemma raises_only_ret (A : Type) P (a : A) : raises_only P (ret a).
Proof. intros s e s' H. discriminate. Qed.

Lemma raises_only_raise (A : Type) (P : exn -> Prop) e : P e -> raises_only P (@raise A e).
Proof. intros HP s e' s' H. inversion H; subst. exact HP. Qed.

Lemma raises_only_bind (A B : Type) P (m : M A) (k : A -> M B) :
  raises_only P m -> (forall a, raises_only P (k a)) -> raises_only P (bind m k).
Proof.
  intros Hm Hk s e s' H. apply bind_Raise in H as [H|(a & s1 & _ & H)].
  - eapply Hm; eauto.
  - eapply Hk; eauto.
Qed.

Lemma raises_only_next (P : exn -> Prop) : P StopIteration -> raises_only P next.
Proof.
  intros HP s e s' H. destruct (next_stops_at_the_end_aux s e s' H) as (-> & _). exact HP.
Qed.

Lemma raises_only_peek P count : raises_only P (peek count).
Proof. intros s e s' H. rewrite peek_spec in H. discriminate. Qed.

Lemma raises_only_EscapeCharToken_starts_here P chars :
  raises_only P (EscapeCharToken_starts_here chars).
Proof. intros s e s' H. rewrite EscapeCharToken_starts_here_spec in H. discriminate. Qed.

Lemma raises_only_while_true (A B : Type) P (body : A -> M (A + B)) :
  (forall a, raises_only P (body a)) ->
  forall fuel a, raises_only P (while_true fuel body a).
Proof.
  intros Hb. induction fuel as [|fuel IH]; intros a s e s' H; [discriminate|].
  rewrite while_true_S in H.
  destruct (body a s) as [[a'|b] s1|e1 s1|] eqn:E; try discriminate.
  - eapply IH; eauto.
  - inversion H; subst. eapply Hb; eauto.
Qed.

Lemma raises_only_loop (A B : Type) P (body : A -> M (A + B)) a :
  (forall a, raises_only P (body a)) -> raises_only P (loop body a).
Proof. intros Hb s. unfold loop. now apply raises_only_while_true. Qed.

Lemma raises_only_for_range (A : Type) P n (m : M A) :
  raises_only P m -> raises_only P (for_range n m).
Proof.
  intros Hm. induction n as [|n IH]; simpl.
  - apply raises_only_ret.
  - apply raises_only_bind; auto.
Qed.

Lemma raises_only_weaken (A : Type) (P Q : exn -> Prop) (m : M A) :
  (forall e, P e -> Q e) -> raises_only P m -> raises_only Q m.
Proof. intros HPQ Hm s e s' H. eapply HPQ, Hm; eauto. Qed.

Lemma raises_only_escaped_pairs (P : exn -> Prop) chars v :
  P StopIteration -> raises_only P (escaped_pairs chars v).
Proof.
  intros HP. revert v. induction chars as [|char chars IH]; intros v; simpl.
  - apply raises_only_ret.
  - apply raises_only_bind; [apply raises_only_EscapeCharToken_starts_here|].
    intros [|]; [|apply IH].
    apply raises_only_bind; [now apply raises_only_next|]. intros c0.
    apply raises_only_bind; [now apply raises_only_next|]. intros c1. apply IH.
Qed.

Lemma raises_only__parse_till_unescaped_char (P : exn -> Prop) chars :
  P StopIteration -> raises_only P (_parse_till_unescaped_char chars).
Proof.
  intros HP. apply raises_only_loop. intros rv. unfold _parse_till_unescaped_char_body.
  apply raises_only_bind; [now apply raises_only_escaped_pairs|]. intros [rv' escaped].
  destruct escaped; simpl; [apply raises_only_ret|].
  apply raises_only_bind; [now apply raises_only_next|]. intros c.
  destruct (str_in [c] chars); apply raises_only_ret.
Qed.

Lemma raises_only__parse_till_closing_brace (P : exn -> Prop) :
  P StopIteration -> raises_only P _parse_till_closing_brace.
Proof.
  intros HP. apply raises_only_loop. intros [rv d]. unfold _parse_till_closing_brace_body.
  apply raises_only_bind; [apply raises_only_EscapeCharToken_starts_here|]. intros [|].
  - apply raises_only_bind; [now apply raises_only_next|]. intros c0.
    apply raises_only_bind; [now apply raises_only_next|]. intros c1. apply raises_only_ret.
  - apply raises_only_bind; [now apply raises_only_next|]. intros c. cbv zeta.
    match goal with |- context [(?x =? 0)%Z] => destruct (x =? 0)%Z end; apply raises_only_ret.
Qed.

Lemma escaped_pairs_consumes chars : forall v s v' s',
  wf s -> escaped_pairs chars v s = Ok v' s' ->
  advances s s' /\ fst v' = fst v ++ consumed_between s s'.
Proof.
  induction chars as [|char chars IH]; intros v s v' s' W H; simpl in H.
  - inversion H; subst. split; [now apply advances_refl|].
    now rewrite consumed_between_same, app_nil_r.
  - unfold bind at 1 in H. rewrite EscapeCharToken_starts_here_spec in H.
    match type of H with (if ?b then _ else _) _ = _ => destruct b end; [|now apply IH].
    apply bind_Ok in H as (c0 & s1 & H0 & H). apply bind_Ok in H as (c1 & s2 & H1 & H).
    pose proof (advances_next _ _ _ W H0) as A0.
    pose proof (advances_next _ _ _ (advances_wf A0) H1) as A1.
    destruct (IH _ _ _ _ (advances_wf A1) H) as (A2 & E). simpl in E.
    pose proof (advances_trans A0 A1) as A01.
    split; [eapply advances_trans; eauto|].
    rewrite (consumed_between_trans _ _ _ A01 A2), (consumed_between_trans _ _ _ A0 A1).
    rewrite (consumed_between_next _ _ _ H0), (consumed_between_next _ _ _ H1).
    rewrite E, <- !app_assoc. reflexivity.
Qed.

(** X4: what [_parse_till_unescaped_char] returns is what it consumed: the
    text it returns followed by the character it returns is exactly the input
    it consumed (escapes are still in it), and that character is one of the
    stop characters.  The only exception it raises is [StopIteration], with
    the iterator at the end of the text. *)
Theorem _parse_till_unescaped_char_returns_consumed chars s :
  wf s ->
  (forall rv c s',
     _parse_till_unescaped_char chars s = Ok (rv, c) s' ->
     consumed_between s s' = rv ++ [c] /\ str_in [c] chars = true) /\
  (forall e s',
     _parse_till_unescaped_char chars s = Raise e s' ->
     e = StopIteration /\ remaining s' = []).
Proof.
  intros W. split.
  - intros rv c s' H.
    pose proof (while_true_invariant _ _ (_parse_till_unescaped_char_body chars)
                  (fun rv s1 => advances s s1 /\ rv = consumed_between s s1)
                  (fun r s1 => consumed_between s s1 = fst r ++ [snd r] /\
                               str_in [snd r] chars = true)
                  (fun _ _ => True)) as Hinv.
    unfold _parse_till_unescaped_char, loop in H.
    specialize (Hinv) with (2 := conj (advances_refl W) (eq_sym (consumed_between_same s))).
    match type of H with while_true ?f _ _ _ = _ => specialize (Hinv) with (fuel := f) end.
    rewrite H in Hinv. apply Hinv. clear.
    intros rv s1 (A & ->). unfold _parse_till_unescaped_char_body, bind.
    destruct (escaped_pairs chars (consumed_between s s1, false) s1)
      as [[rv' escaped] s2|e s2|] eqn:E; auto.
    destruct (escaped_pairs_consumes _ _ _ _ _ (advances_wf A) E) as (A2 & E2). simpl in E2.
    destruct escaped; simpl.
    + split; [eapply advances_trans; eauto|].
      now rewrite (consumed_between_trans _ _ _ A A2).
    + destruct (next s2) as [c s3|e s3|] eqn:En; auto.
      pose proof (advances_next _ _ _ (advances_wf A2) En) as A3.
      pose proof (advances_trans A A2) as A02.
      destruct (str_in [c] chars) eqn:Ec; simpl.
      * split; [|exact Ec].
        rewrite (consumed_between_trans _ _ _ A02 A3), (consumed_between_trans _ _ _ A A2).
        now rewrite (consumed_between_next _ _ _ En), E2.
      * split; [eapply advances_trans; eauto|].
        rewrite (consumed_between_trans _ _ _ A02 A3), (consumed_between_trans _ _ _ A A2).
        now rewrite (consumed_between_next _ _ _ En), E2.
  - intros e s' H.
    assert (He : e = StopIteration).
    { eapply (@raises_only__parse_till_unescaped_char (fun e => e = StopIteration));
        [reflexivity | exact H]. }
    split; [exact He|].
    pose proof (sound__parse_till_unescaped_char chars W) as Hs. rewrite H in Hs.
    destruct Hs as [_ Hend]. apply remaining_nil. rewrite (Hend He). lia.
Qed.

Lemma _parse_till_unescaped_char_returns_consumed_witness :
  let s := _TextIterator__init__ (txt "a\/b/c") origin in
  let s' := {| _text := txt "a\/b/c"; _line := 0; _col := 5; _idx := 5 |} in
  consumed_between s s' = txt "a\/b" ++ [ "/"%char ].
Proof.
  intros s s'.
  apply (proj1 (_parse_till_unescaped_char_returns_consumed (txt "/") s (wf_init _ _))
           (txt "a\/b") "/"%char s').
  vm_compute. reflexivity.
Defined.

(** X5: what [_parse_till_closing_brace] returns is what it consumed in front
    of the closing brace: the text it returns followed by [}] is exactly the
    input it consumed.  The only exception it raises is [StopIteration], with
    the iterator at the end of the text. *)
Theorem _parse_till_closing_brace_returns_consumed s :
  wf s ->
  (forall rv s',
     _parse_till_closing_brace s = Ok rv s' ->
     consumed_between s s' = rv ++ [ "}"%char ]) /\
  (forall e s',
     _parse_till_closing_brace s = Raise e s' ->
     e = StopIteration /\ remaining s' = []).
Proof.
  intros W. split.
  - intros rv s' H.
    pose proof (while_true_invariant _ _ _parse_till_closing_brace_body
                  (fun v s1 => advances s s1 /\ fst v = consumed_between s s1 /\
                               (1 <= snd v)%Z)
                  (fun r s1 => consumed_between s s1 = r ++ [ "}"%char ])
                  (fun _ _ => True)) as Hinv.
    unfold _parse_till_closing_brace, loop in H.
    specialize (Hinv) with (a := (@nil char, 1%Z)) (s := s).
    match type of H with while_true ?f _ _ _ = _ => specialize (Hinv) with (fuel := f) end.
    rewrite H in Hinv. apply Hinv; clear Hinv H.
    + intros [rv0 d] s1 (A & E0 & Hd). simpl in E0, Hd. subst rv0.
      unfold _parse_till_closing_brace_body, bind at 1.
      rewrite EscapeCharToken_starts_here_spec.
      match goal with |- context [if ?b then _ else _] => destruct b end.
      * unfold bind.
        destruct (next s1) as [c0 s2|e s2|] eqn:E0; auto.
        destruct (next s2) as [c1 s3|e s3|] eqn:E1; auto.
        pose proof (advances_next _ _ _ (advances_wf A) E0) as A0.
        pose proof (advances_next _ _ _ (advances_wf A0) E1) as A1.
        pose proof (advances_trans A A0) as A02.
        simpl. split; [eapply advances_trans; eauto|]. split; [|exact Hd].
        rewrite (consumed_between_trans _ _ _ A02 A1), (consumed_between_trans _ _ _ A A0).
        rewrite (consumed_between_next _ _ _ E0), (consumed_between_next _ _ _ E1).
        now rewrite <- app_assoc.
      * unfold bind.
        destruct (next s1) as [c s2|e s2|] eqn:E0; auto.
        pose proof (advances_next _ _ _ (advances_wf A) E0) as A0.
        cbv zeta. fold (brace_step d c).
        assert (Hc : consumed_between s s2 = consumed_between s s1 ++ [c]).
        { now rewrite (consumed_between_trans _ _ _ A A0), (consumed_between_next _ _ _ E0). }
        destruct (brace_step d c =? 0)%Z eqn:Ez; simpl.
        -- apply Z.eqb_eq in Ez. unfold brace_step in Ez.
           destruct (char_eqb c "{"); [lia|].
           destruct (char_eqb c "}") eqn:Ec; [|lia].
           apply char_eqb_eq in Ec. subst c. exact Hc.
        -- apply Z.eqb_neq in Ez. split; [eapply advances_trans; eauto|].
           split; [symmetry; exact Hc|]. unfold brace_step in *.
           destruct (char_eqb c "{"); [lia|]. destruct (char_eqb c "}"); lia.
    + simpl. split; [now apply advances_refl|].
      split; [now rewrite consumed_between_same | lia].
  - intros e s' H.
    assert (He : e = StopIteration).
    { eapply (@raises_only__parse_till_closing_brace (fun e => e = StopIteration));
        [reflexivity | exact H]. }
    split; [exact He|].
    pose proof (sound__parse_till_closing_brace W) as Hs. rewrite H in Hs.
    destruct Hs as [_ Hend]. apply remaining_nil. rewrite (Hend He). lia.
Qed.

Lemma _parse_till_closing_brace_returns_consumed_witness :
  let s := _TextIterator__init__ (txt "a{\}b}c}d") origin in
  let s' := {| _text := txt "a{\}b}c}d"; _line := 0; _col := 8; _idx := 8 |} in
  consumed_between s s' = txt "a{\}b}c" ++ [ "}"%char ].
Proof.
  intros s s'.
  apply (proj1 (_parse_till_closing_brace_returns_consumed s (wf_init _ _))
           (txt "a{\}b}c") s').
  vm_compute. reflexivity.
Defined.

Lemma escaped_pairs_none chars v s :
  head_in [backslash] (remaining s) = false -> escaped_pairs chars v s = Ok v s.
Proof.
  intros Hh. induction chars as [|char chars IH]; simpl; [reflexivity|].
  unfold bind at 1. rewrite EscapeCharToken_starts_here_spec.
  destruct (remaining s) as [|c0 [|c1 r]]; simpl; try exact IH.
  unfold head_in in Hh. rewrite str_in_char in Hh. simpl in Hh.
  rewrite orb_false_r in Hh. rewrite Hh. exact IH.
Qed.

Lemma eqb_backslash_head c (r : text) :
  char_eqb c backslash = false -> head_in [backslash] (c :: r) = false.
Proof.
  intros H. unfold head_in. rewrite str_in_char. simpl. now rewrite H.
Qed.

Lemma _parse_till_unescaped_char_body_plain chars rv s x r :
  remaining s = x :: r -> char_eqb x backslash = false ->
  exists s',
    _parse_till_unescaped_char_body chars rv s =
    Ok (if str_in [x] chars then inr (rv, x) else inl (rv ++ [x])) s' /\
    remaining s' = r /\ _text s' = _text s.
Proof.
  intros Hrem Hx. unfold _parse_till_unescaped_char_body, bind at 1.
  rewrite escaped_pairs_none by (rewrite Hrem; now apply eqb_backslash_head).
  destruct (next_cons s x r Hrem) as (s' & Hn & Hr & Ht).
  exists s'. simpl. unfold bind. rewrite Hn.
  split; [|auto]. destruct (str_in [x] chars); reflexivity.
Qed.

Lemma _parse_till_unescaped_char_body_end chars rv s :
  remaining s = [] -> _parse_till_unescaped_char_body chars rv s = Raise StopIteration s.
Proof.
  intros Hrem. unfold _parse_till_unescaped_char_body, bind at 1.
  rewrite escaped_pairs_none by (now rewrite Hrem).
  simpl. unfold bind. apply remaining_nil in Hrem. unfold next.
  apply Nat.leb_le in Hrem. now rewrite Hrem.
Qed.

Lemma _parse_till_unescaped_char_loop_plain chars (body : text) c (rest : text) :
  char_eqb c backslash = false -> str_in [c] chars = true ->
  forall rv fuel s,
    plain body = true -> without chars body = true ->
    remaining s = body ++ c :: rest -> length body < fuel ->
    exists s',
      while_true fuel (_parse_till_unescaped_char_body chars) rv s = Ok (rv ++ body, c) s' /\
      remaining s' = rest /\ _text s' = _text s.
Proof.
  intros Hc Hin. induction body as [|x body IH]; intros rv fuel s Hp Hw Hrem Hf;
    (destruct fuel as [|fuel]; [simpl in Hf; lia|]); rewrite while_true_S.
  - simpl in Hrem.
    destruct (_parse_till_unescaped_char_body_plain chars rv s c rest Hrem Hc)
      as (s' & Hb & Hr & Ht).
    rewrite Hb, Hin. exists s'. rewrite app_nil_r. auto.
  - simpl in Hrem, Hp, Hw. apply andb_true_iff in Hp as [Hx Hp].
    apply andb_true_iff in Hw as [Hxc Hw]. apply negb_true_iff in Hx, Hxc.
    destruct (_parse_till_unescaped_char_body_plain chars rv s x _ Hrem Hx)
      as (s1 & Hb & Hr1 & Ht1).
    rewrite Hb, Hxc.
    destruct (IH (rv ++ [x]) fuel s1 Hp Hw Hr1) as (s' & Hl & Hr' & Ht');
      [simpl in Hf; lia|].
    exists s'. split; [|split; congruence]. rewrite <- app_assoc in Hl. exact Hl.
Qed.

Lemma _parse_till_unescaped_char_loop_exhausted chars (body : text) :
  forall rv fuel s,
    plain body = true -> without chars body = true ->
    remaining s = body -> length body < fuel ->
    exists s',
      while_true fuel (_parse_till_unescaped_char_body chars) rv s = Raise StopIteration s' /\
      remaining s' = [] /\ _text s' = _text s.
Proof.
  induction body as [|x body IH]; intros rv fuel s Hp Hw Hrem Hf;
    (destruct fuel as [|fuel]; [simpl in Hf; lia|]); rewrite while_true_S.
  - rewrite (_parse_till_unescaped_char_body_end chars rv s Hrem). exists s. auto.
  - simpl in Hp, Hw. apply andb_true_iff in Hp as [Hx Hp].
    apply andb_true_iff in Hw as [Hxc Hw]. apply negb_true_iff in Hx, Hxc.
    destruct (_parse_till_unescaped_char_body_plain chars rv s x _ Hrem Hx)
      as (s1 & Hb & Hr1 & Ht1).
    rewrite Hb, Hxc.
    destruct (IH (rv ++ [x]) fuel s1 Hp Hw Hr1) as (s' & Hl & Hr' & Ht');
      [simpl in Hf; lia|].
    exists s'. split; [exact Hl|]. split; congruence.
Qed.

(** The delimiter scan over a text without backslash and without stop
    character, with a stop character behind it: it returns the text and the
    stop character and stops behind the stop character. *)
Lemma _parse_till_unescaped_char_plain chars s (body : text) c (rest : text) :
  plain body = true -> without chars body = true ->
  char_eqb c backslash = false -> str_in [c] chars = true ->
  remaining s = body ++ c :: rest ->
  exists s',
    _parse_till_unescaped_char chars s = Ok (body, c) s' /\
    remaining s' = rest /\ _text s' = _text s.
Proof.
  intros Hp Hw Hc Hin Hrem.
  assert (Hf : length body < S (length (_text s) - _idx s)).
  { rewrite <- remaining_length, Hrem, length_app. lia. }
  destruct (_parse_till_unescaped_char_loop_plain chars body c rest Hc Hin [] _ s
              Hp Hw Hrem Hf) as (s' & Hl & Hr & Ht).
  exists s'. split; [exact Hl | auto].
Qed.

Lemma _parse_till_unescaped_char_exhausted chars s :
  plain (remaining s) = true -> without chars (remaining s) = true ->
  exists s',
    _parse_till_unescaped_char chars s = Raise StopIteration s' /\
    remaining s' = [] /\ _text s' = _text s.
Proof.
  intros Hp Hw.
  assert (Hf : length (remaining s) < S (length (_text s) - _idx s)).
  { rewrite <- remaining_length. lia. }
  destruct (_parse_till_unescaped_char_loop_exhausted chars (remaining s) [] _ s
              Hp Hw eq_refl Hf) as (s' & Hl & Hr & Ht).
  exists s'. split; [exact Hl | auto].
Qed.

(** X6: over input without backslash the delimiter scan stops at the first
    stop character: it returns the text in front of it and the stop
    character, and leaves what follows; when the input that is left has no
    stop character, it raises [StopIteration] with the iterator at the end. *)
Theorem _parse_till_unescaped_char_stops_at_first chars s :
  (forall body c rest,
     plain body = true -> without chars body = true ->
     char_eqb c backslash = false -> str_in [c] chars = true ->
     remaining s = body ++ c :: rest ->
     exists s',
       _parse_till_unescaped_char chars s = Ok (body, c) s' /\ remaining s' = rest) /\
  (plain (remaining s) = true -> without chars (remaining s) = true ->
   exists s',
     _parse_till_unescaped_char chars s = Raise StopIteration s' /\ remaining s' = []).
Proof.
  split.
  - intros body c rest Hp Hw Hc Hin Hrem.
    destruct (_parse_till_unescaped_char_plain chars s body c rest Hp Hw Hc Hin Hrem)
      as (s' & H & Hr & _).
    exists s'. auto.
  - intros Hp Hw.
    destruct (_parse_till_unescaped_char_exhausted chars s Hp Hw) as (s' & H & Hr & _).
    exists s'. auto.
Qed.

Lemma _parse_till_unescaped_char_stops_at_first_witness :
  exists s',
    _parse_till_unescaped_char (txt "/}") (_TextIterator__init__ (txt "ab}c/") origin)
    = Ok (txt "ab", "}"%char) s' /\ remaining s' = txt "c/".
Proof.
  apply (proj1 (_parse_till_unescaped_char_stops_at_first (txt "/}")
                  (_TextIterator__init__ (txt "ab}c/") origin))
           (txt "ab") "}"%char (txt "c/")); reflexivity.
Defined.

(** A loop that ends within its budget ends the same way on a larger one. *)
Lemma while_true_more_fuel (A B : Type) (body : A -> M (A + B)) :
  forall fuel1 fuel2 a s,
    fuel1 <= fuel2 -> while_true fuel1 body a s <> OutOfFuel ->
    while_true fuel2 body a s = while_true fuel1 body a s.
Proof.
  induction fuel1 as [|fuel1 IH]; intros fuel2 a s Hle Hne; [now contradiction Hne|].
  destruct fuel2 as [|fuel2]; [lia|]. rewrite !while_true_S in *.
  destruct (body a s) as [[a'|b] s'|e s'|]; try reflexivity.
  apply IH; [lia | exact Hne].
Qed.

Lemma escaped_pairs_cons char chars v s :
  escaped_pairs (char :: chars) v s =
  match EscapeCharToken_starts_here [char] s with
  | Ok true s0 =>
      match next s0 with
      | Ok c0 s1 =>
          match next s1 with
          | Ok c1 s2 => escaped_pairs chars (fst v ++ [c0; c1], true) s2
          | Raise e s' => Raise e s'
          | OutOfFuel => OutOfFuel
          end
      | Raise e s' => Raise e s'
      | OutOfFuel => OutOfFuel
      end
  | Ok false s0 => escaped_pairs chars v s0
  | Raise e s' => Raise e s'
  | OutOfFuel => OutOfFuel
  end.
Proof.
  simpl. unfold bind.
  destruct (EscapeCharToken_starts_here [char] s) as [[|] s0|e s0|]; reflexivity.
Qed.

Lemma escaped_pairs_shift chars (p : text) : forall (rv : text) b s,
  escaped_pairs chars (p ++ rv, b) s =
  match escaped_pairs chars (rv, b) s with
  | Ok (rv', b') s' => Ok (p ++ rv', b') s'
  | Raise e s' => Raise e s'
  | OutOfFuel => OutOfFuel
  end.
Proof.
  induction chars as [|char chars IH]; intros rv b s; [reflexivity|].
  rewrite !escaped_pairs_cons.
  destruct (EscapeCharToken_starts_here [char] s) as [[|] s0|e s0|]; try reflexivity.
  - destruct (next s0) as [c0 s1|e s1|]; try reflexivity.
    destruct (next s1) as [c1 s2|e s2|]; try reflexivity.
    simpl fst. rewrite <- app_assoc. apply IH.
  - apply IH.
Qed.

Lemma _parse_till_unescaped_char_body_shift chars (p rv : text) s :
  _parse_till_unescaped_char_body chars (p ++ rv) s =
  match _parse_till_unescaped_char_body chars rv s with
  | Ok (inl rv') s' => Ok (inl (p ++ rv')) s'
  | Ok (inr (rv', c)) s' => Ok (inr (p ++ rv', c)) s'
  | Raise e s' => Raise e s'
  | OutOfFuel => OutOfFuel
  end.
Proof.
  unfold _parse_till_unescaped_char_body, bind.
  rewrite escaped_pairs_shift.
  destruct (escaped_pairs chars (rv, false) s) as [[rv' escaped] s1|e s1|]; try reflexivity.
  destruct escaped; simpl; [reflexivity|].
  destruct (next s1) as [c s2|e s2|]; try reflexivity.
  destruct (str_in [c] chars); simpl; [reflexivity|]. now rewrite <- app_assoc.
Qed.

Lemma _parse_till_unescaped_char_loop_shift chars (p : text) : forall fuel rv s,
  while_true fuel (_parse_till_unescaped_char_body chars) (p ++ rv) s =
  prefixed p (while_true fuel (_parse_till_unescaped_char_body chars) rv s).
Proof.
  induction fuel as [|fuel IH]; intros rv s; [reflexivity|].
  rewrite !while_true_S, _parse_till_unescaped_char_body_shift.
  destruct (_parse_till_unescaped_char_body chars rv s) as [[rv'|[rv' c]] s'|e s'|];
    try reflexivity.
  apply IH.
Qed.

(** X7: in front of an escaped stop character the scan for that character
    does not stop: it takes the backslash and the character into the text it
    returns, both of them, and goes on as the scan behind them does. *)
Theorem escaped_stop_character_is_kept c s r :
  remaining s = backslash :: c :: r ->
  exists s2,
    (next ;;; next) s = Ok c s2 /\
    remaining s2 = r /\
    _parse_till_unescaped_char [c] s =
    prefixed [backslash; c] (_parse_till_unescaped_char [c] s2).
Proof.
  intros Hrem.
  destruct (next_cons s _ _ Hrem) as (s1 & Hn1 & Hr1 & Ht1).
  destruct (next_cons s1 _ _ Hr1) as (s2 & Hn2 & Hr2 & Ht2).
  exists s2. split; [unfold bind; now rewrite Hn1|]. split; [exact Hr2|].
  assert (W : wf s).
  { unfold wf. destruct (Nat.le_gt_cases (_idx s) (length (_text s))); [assumption|].
    assert (F : remaining s = []) by (apply remaining_nil; lia).
    rewrite Hrem in F. discriminate. }
  pose proof (advances_next _ _ _ W Hn1) as A1.
  pose proof (advances_next _ _ _ (advances_wf A1) Hn2) as A2.
  assert (W2 : wf s2) by exact (advances_wf A2).
  destruct (next_Ok s Hn1) as (_ & _ & Hi1 & _).
  destruct (next_Ok s1 Hn2) as (_ & _ & Hi2 & _).
  unfold wf in W2. rewrite Ht2, Ht1 in W2.
  assert (Hstep : _parse_till_unescaped_char_body [c] [] s = Ok (inl [backslash; c]) s2).
  { assert (He : EscapeCharToken_starts_here [c] s = Ok true s).
    { rewrite EscapeCharToken_starts_here_spec, Hrem.
      change (firstn 2 (backslash :: c :: r)) with [backslash; c]. cbv beta iota.
      rewrite str_in_char. cbn [existsb]. now rewrite ?char_eqb_refl. }
    unfold _parse_till_unescaped_char_body, bind at 1.
    rewrite escaped_pairs_cons, He, Hn1, Hn2. reflexivity. }
  unfold _parse_till_unescaped_char, loop. rewrite while_true_S, Hstep.
  rewrite <- (app_nil_r [backslash; c]) at 1.
  rewrite _parse_till_unescaped_char_loop_shift. f_equal.
  apply while_true_more_fuel.
  - rewrite Ht2, Ht1. lia.
  - pose proof (sound__parse_till_unescaped_char [c] (advances_wf A2)) as Hs.
    unfold _parse_till_unescaped_char, loop in Hs. intros F. now rewrite F in Hs.
Qed.

Lemma escaped_stop_character_is_kept_witness :
  _parse_till_unescaped_char (txt "/") (_TextIterator__init__ (txt "\/a/") origin)
  = Ok (txt "\/a", "/"%char) {| _text := txt "\/a/"; _line := 0; _col := 4; _idx := 4 |}.
Proof.
  destruct (escaped_stop_character_is_kept "/"%char
              (_TextIterator__init__ (txt "\/a/") origin) (txt "a/") eq_refl)
    as (s2 & Hnn & _ & H).
  vm_compute in Hnn. inversion Hnn; subst s2. clear Hnn.
  etransitivity; [exact H|]. vm_compute. reflexivity.
Defined.

(* ------------------------------------------------------------------ *)
(** ** Further properties: what starts a token                         *)
(* ------------------------------------------------------------------ *)

Lemma starts_here_false cls s :
  cls <> EndOfTextToken -> starts_here_value cls s = false ->
  starts_here cls s = Ok false s.
Proof. intros Hc Hv. rewrite (starts_here_spec s Hc). now rewrite Hv. Qed.

Lemma starts_here_true cls s :
  cls <> EndOfTextToken -> starts_here_value cls s = true ->
  starts_here cls s = Ok true s.
Proof. intros Hc Hv. rewrite (starts_here_spec s Hc). now rewrite Hv. Qed.

Lemma escape_value_head s c r :
  remaining s = c :: r -> char_eqb c backslash = false ->
  starts_here_value EscapeCharToken s = false.
Proof.
  intros Hrem Hc. unfold starts_here_value. rewrite Hrem.
  destruct r as [|c1 [|c2 r]]; cbn [firstn]; [reflexivity | |]; now rewrite Hc.
Qed.

Lemma firstn_S_cons (n : nat) c (r : text) : firstn (S n) (c :: r) = c :: firstn n r.
Proof. reflexivity. Qed.

(** The four recognizers of the dollar need a dollar. *)
Lemma dollar_values_head s c r cls :
  remaining s = c :: r -> char_eqb c "$" = false ->
  In cls [VisualToken; TransformationToken; TabStopToken; MirrorToken] ->
  starts_here_value cls s = false.
Proof.
  intros Hrem Hc Hin. unfold starts_here_value.
  destruct Hin as [<-|[<-|[<-|[<-|[]]]]]; rewrite Hrem, firstn_S_cons.
  - unfold VisualToken_CHECK. txt_literals; cbn [startswith].
    rewrite char_eqb_sym, Hc. reflexivity.
  - unfold TransformationToken_CHECK. destruct (firstn 9 r); [reflexivity|].
    now rewrite Hc.
  - unfold TabStopToken_CHECK. destruct (firstn 9 r); [reflexivity|].
    now rewrite Hc.
  - unfold MirrorToken_CHECK. now rewrite Hc.
Qed.

(** The three recognizers of the backtick need a backtick. *)
Lemma backtick_values_head s c r cls :
  remaining s = c :: r -> char_eqb c "`" = false ->
  In cls [PythonCodeToken; VimLCodeToken; ShellCodeToken] ->
  starts_here_value cls s = false.
Proof.
  intros Hrem Hc Hin. unfold starts_here_value.
  destruct Hin as [<-|[<-|[<-|[]]]]; rewrite Hrem; rewrite ?firstn_S_cons.
  - unfold PythonCodeToken_CHECK. txt_literals; cbn [startswith].
    rewrite char_eqb_sym, Hc. reflexivity.
  - unfold VimLCodeToken_CHECK. txt_literals; cbn [startswith].
    rewrite char_eqb_sym, Hc. reflexivity.
  - txt_literals; cbn [text_eqb]. now rewrite Hc.
Qed.

Lemma no_match_by_head s c r :
  remaining s = c :: r ->
  char_eqb c "$" = false -> char_eqb c "`" = false ->
  starts_here_value EscapeCharToken s = false ->
  no_match __ALLOWED_TOKENS s.
Proof.
  intros Hrem Hd Hb He cls Hin.
  assert (Hc : cls <> EndOfTextToken).
  { intros ->. now apply EndOfTextToken_not_allowed. }
  apply (starts_here_false cls s Hc).
  destruct Hin as [<-|Hin]; [exact He|].
  destruct Hin as [<-|[<-|[<-|[<-|Hin]]]];
    try (apply (dollar_values_head s c r _ Hrem Hd); simpl; tauto).
  apply (backtick_values_head s c r _ Hrem Hb). exact Hin.
Qed.

Lemma tokenize_round_drops indent s c r :
  remaining s = c :: r -> no_match __ALLOWED_TOKENS s ->
  exists s',
    tokenize_round indent s = Ok (inr c) s' /\ remaining s' = r /\ _text s' = _text s.
Proof.
  intros Hrem Hno. destruct (next_cons s c r Hrem) as (s' & Hn & Hr & Ht).
  exists s'. rewrite (tokenize_round_no_match indent Hno), Hn. auto.
Qed.

Lemma plain_character_is_dropped_aux indent s c r :
  remaining s = c :: r -> token_starter c = false ->
  exists s', tokenize_round indent s = Ok (inr c) s' /\ remaining s' = r.
Proof.
  intros Hrem Hs. unfold token_starter in Hs.
  apply orb_false_iff in Hs as [Hs Hb]. apply orb_false_iff in Hs as [Hd Hbs].
  destruct (tokenize_round_drops indent s c r Hrem) as (s' & Hr & Hr' & _).
  - apply (no_match_by_head s c r Hrem Hd Hb).
    apply (escape_value_head s c r Hrem Hbs).
  - exists s'. auto.
Qed.

(** X8: a character other than the dollar, the backslash and the backtick
    starts no token: whatever follows it, the round of the driver consumes
    that one character and yields nothing. *)
Theorem plain_character_is_dropped indent s c r :
  remaining s = c :: r -> token_starter c = false ->
  exists s', tokenize_round indent s = Ok (inr c) s' /\ remaining s' = r.
Proof. exact (plain_character_is_dropped_aux indent s c r). Qed.

Lemma plain_character_is_dropped_witness :
  exists s',
    tokenize_round [] (_TextIterator__init__ (txt "{$1}") origin) = Ok (inr "{"%char) s' /\
    remaining s' = txt "$1}".
Proof.
  apply (plain_character_is_dropped [] (_TextIterator__init__ (txt "{$1}") origin)
           "{"%char (txt "$1}")); reflexivity.
Defined.

(** X9: a backslash in front of one of [{ } \ $ `] is yielded with it as an
    EscapeChar token whose text is that character; a backslash in front of
    any other character, or at the very end, is dropped alone. *)
Theorem backslash_escapes_or_is_dropped indent s :
  (forall c r,
     remaining s = backslash :: c :: r -> str_in [c] escapable = true ->
     exists s',
       tokenize_round indent s
       = Ok (inl {| start := position s; attrs := EscapeChar [c]; end_ := position s' |}) s' /\
       remaining s' = r) /\
  (forall r,
     remaining s = backslash :: r -> head_in escapable r = false ->
     exists s', tokenize_round indent s = Ok (inr backslash) s' /\ remaining s' = r).
Proof.
  split.
  - intros c r Hrem Hc.
    assert (Hfm : first_match __ALLOWED_TOKENS s EscapeCharToken).
    { exists [], [VisualToken; TransformationToken; TabStopToken; MirrorToken;
                  PythonCodeToken; VimLCodeToken; ShellCodeToken].
      split; [reflexivity|]. split; [intros ? []|].
      apply starts_here_true; [discriminate|]. unfold starts_here_value. rewrite Hrem.
      change (firstn 2 (backslash :: c :: r)) with [backslash; c]. cbv beta iota.
      now rewrite Hc, char_eqb_refl. }
    destruct (next_cons s _ _ Hrem) as (s1 & Hn1 & Hr1 & _).
    destruct (next_cons s1 _ _ Hr1) as (s2 & Hn2 & Hr2 & _).
    exists s2. split; [|exact Hr2].
    rewrite (tokenize_round_first_match indent Hfm).
    unfold Token__init__, bind, pos. simpl _parse.
    unfold EscapeCharToken_parse, bind. rewrite Hn1, Hn2. reflexivity.
  - intros r Hrem Hr.
    destruct (tokenize_round_drops indent s backslash r Hrem) as (s' & H & Hr' & _).
    + apply (no_match_by_head s backslash r Hrem); try reflexivity.
      unfold starts_here_value. rewrite Hrem.
      destruct r as [|c1 [|c2 r]]; cbn [firstn]; try reflexivity;
        unfold head_in in Hr; now rewrite Hr, andb_false_r.
    + exists s'. auto.
Qed.

Lemma backslash_escapes_or_is_dropped_witness :
  exists s',
    tokenize_round [] (_TextIterator__init__ (txt "\n") origin) = Ok (inr backslash) s' /\
    remaining s' = txt "n".
Proof.
  apply (proj2 (backslash_escapes_or_is_dropped [] (_TextIterator__init__ (txt "\n") origin))
           (txt "n")); reflexivity.
Defined.

(** What the patterns of the Python and VimL code tokens match. *)
Lemma code_CHECK_syntax (t : text) (x : char) :
  startswith ("`"%char :: "!"%char :: [x]) (firstn 4 t) &&
  match skipn 3 (firstn 4 t) with c :: _ => is_space c | [] => false end = true <->
  exists w r, t = "`"%char :: "!"%char :: x :: w :: r /\ is_space w = true.
Proof.
  split.
  - intros H. apply andb_true_iff in H as [H Hw].
    destruct t as [|c0 [|c1 [|c2 [|w r]]]]; try discriminate.
    cbn [firstn startswith] in H.
    apply andb_true_iff in H as [H0 H]. apply andb_true_iff in H as [H1 H].
    apply andb_true_iff in H as [H2 _].
    apply char_eqb_eq in H0, H1, H2. subst c0 c1 c2.
    exists w, r. split; [reflexivity | exact Hw].
  - intros (w & r & -> & Hw). cbn [firstn startswith skipn].
    now rewrite !char_eqb_refl, Hw.
Qed.

(** At a backtick the first class whose predicate holds is one of the three
    code tokens. *)
Lemma backtick_first_match s r :
  remaining s = "`"%char :: r ->
  first_match __ALLOWED_TOKENS s
    (if PythonCodeToken_CHECK (firstn 4 (remaining s)) then PythonCodeToken
     else if VimLCodeToken_CHECK (firstn 4 (remaining s)) then VimLCodeToken
     else ShellCodeToken).
Proof.
  intros Hrem.
  assert (He : starts_here EscapeCharToken s = Ok false s).
  { apply starts_here_false; [discriminate|].
    now apply (escape_value_head s _ r Hrem). }
  assert (Hd : forall cls,
             In cls [VisualToken; TransformationToken; TabStopToken; MirrorToken] ->
             starts_here cls s = Ok false s).
  { intros cls Hin. apply starts_here_false.
    - intros ->. simpl in Hin. intuition discriminate.
    - now apply (dollar_values_head s _ r cls Hrem). }
  destruct (PythonCodeToken_CHECK (firstn 4 (remaining s))) eqn:Ep;
    [|destruct (VimLCodeToken_CHECK (firstn 4 (remaining s))) eqn:Ev].
  - exists [EscapeCharToken; VisualToken; TransformationToken; TabStopToken; MirrorToken],
           [VimLCodeToken; ShellCodeToken].
    split; [reflexivity|]. split.
    + intros c [<-|Hin]; [exact He | now apply Hd].
    + apply starts_here_true; [discriminate | exact Ep].
  - exists [EscapeCharToken; VisualToken; TransformationToken; TabStopToken; MirrorToken;
            PythonCodeToken], [ShellCodeToken].
    split; [reflexivity|]. split.
    + intros c Hin.
      destruct Hin as [<-|[<-|[<-|[<-|[<-|[<-|[]]]]]]]; try exact He;
        try (apply Hd; simpl; tauto).
      apply starts_here_false; [discriminate | exact Ep].
    + apply starts_here_true; [discriminate | exact Ev].
  - exists [EscapeCharToken; VisualToken; TransformationToken; TabStopToken; MirrorToken;
            PythonCodeToken; VimLCodeToken], [].
    split; [reflexivity|]. split.
    + intros c Hin.
      destruct Hin as [<-|[<-|[<-|[<-|[<-|[<-|[<-|[]]]]]]]]; try exact He;
        try (apply Hd; simpl; tauto).
      * apply starts_here_false; [discriminate | exact Ep].
      * apply starts_here_false; [discriminate | exact Ev].
    + apply starts_here_true; [discriminate|]. unfold starts_here_value.
      now rewrite Hrem.
Qed.

(** X10: a backtick always starts a code token, never plain text.  The first
    class whose predicate holds there is PythonCode when [!p] and a whitespace
    character follow the backtick, VimLCode when [!v] and a whitespace
    character follow it, and ShellCode at every other backtick.  The
    whitespace characters are those of [\s]: the whitespace of Unicode, the
    separators U+001C to U+001F and the no-break space among them. *)
Theorem backtick_starts_code s r :
  remaining s = "`"%char :: r ->
  (forall w r',
     r = "!"%char :: "p"%char :: w :: r' -> is_space w = true ->
     first_match __ALLOWED_TOKENS s PythonCodeToken) /\
  (forall w r',
     r = "!"%char :: "v"%char :: w :: r' -> is_space w = true ->
     first_match __ALLOWED_TOKENS s VimLCodeToken) /\
  ((forall x w r',
      r = "!"%char :: x :: w :: r' -> x = "p"%char \/ x = "v"%char ->
      is_space w = false) ->
   first_match __ALLOWED_TOKENS s ShellCodeToken).
Proof.
  intros Hrem. pose proof (backtick_first_match s r Hrem) as H.
  assert (Hp : PythonCodeToken_CHECK (firstn 4 (remaining s)) = true <->
               exists w r', remaining s = "`"%char :: "!"%char :: "p"%char :: w :: r' /\
                            is_space w = true)
    by apply (code_CHECK_syntax (remaining s) "p"%char).
  assert (Hv : VimLCodeToken_CHECK (firstn 4 (remaining s)) = true <->
               exists w r', remaining s = "`"%char :: "!"%char :: "v"%char :: w :: r' /\
                            is_space w = true)
    by apply (code_CHECK_syntax (remaining s) "v"%char).
  split; [|split].
  - intros w r' -> Hw. rewrite (proj2 Hp) in H by eauto. exact H.
  - intros w r' -> Hw.
    assert (Ep : PythonCodeToken_CHECK (firstn 4 (remaining s)) = false).
    { apply not_true_is_false. intros F. apply Hp in F as (w' & r'' & E & _).
      rewrite Hrem in E. discriminate. }
    rewrite Ep, (proj2 Hv) in H by eauto. exact H.
  - intros Hno.
    assert (Ep : PythonCodeToken_CHECK (firstn 4 (remaining s)) = false).
    { apply not_true_is_false. intros F. apply Hp in F as (w & r' & E & Hw).
      rewrite Hrem in E. inversion E; subst r.
      rewrite (Hno "p"%char w r' eq_refl (or_introl eq_refl)) in Hw. discriminate. }
    assert (Ev : VimLCodeToken_CHECK (firstn 4 (remaining s)) = false).
    { apply not_true_is_false. intros F. apply Hv in F as (w & r' & E & Hw).
      rewrite Hrem in E. inversion E; subst r.
      rewrite (Hno "v"%char w r' eq_refl (or_intror eq_refl)) in Hw. discriminate. }
    rewrite Ep, Ev in H. exact H.
Qed.

Lemma backtick_starts_code_witness :
  first_match __ALLOWED_TOKENS
    (_TextIterator__init__ (txt "`!p" ++ [0x1C%N] ++ txt "x`") origin) PythonCodeToken.
Proof.
  apply (proj1 (backtick_starts_code
                  (_TextIterator__init__ (txt "`!p" ++ [0x1C%N] ++ txt "x`") origin)
                  (txt "!p" ++ [0x1C%N] ++ txt "x`") eq_refl)
           0x1C%N (txt "x`")); reflexivity.
Defined.

(* ------------------------------------------------------------------ *)
(** ** Further properties: mirrors, positions and the end of the text  *)
(* ------------------------------------------------------------------ *)

Lemma decimal_not_brace d : is_decimal d = true -> char_eqb d "{" = false.
Proof.
  intros Hd. destruct (char_eqb d "{") eqn:E; [|reflexivity].
  apply char_eqb_eq in E. subst d. vm_compute in Hd. discriminate.
Qed.

Lemma span_digits_head d (r : text) :
  is_decimal d = true ->
  exists ds rest,
    span_digits (d :: r) = (d :: ds, rest) /\ d :: r = (d :: ds) ++ rest /\
    forallb is_decimal (d :: ds) = true.
Proof.
  intros Hd. pose proof (span_digits_spec (d :: r)) as Hs.
  destruct (span_digits r) as [ds rest] eqn:Er.
  assert (E : span_digits (d :: r) = (d :: ds, rest)).
  { cbn [span_digits]. now rewrite Hd, Er. }
  rewrite E in Hs. destruct Hs as (Ht & Hf & _).
  exists ds, rest. auto.
Qed.

(** Every text is a run of digits of [string.digits], which may be empty, and
    a rest that does not begin with one. *)
Lemma digits_split (t : text) :
  exists ds rest,
    t = ds ++ rest /\ forallb is_digit ds = true /\ head_in digits rest = false.
Proof.
  induction t as [|c t (ds & rest & -> & Hd & Hr)].
  - exists [], []. auto.
  - destruct (is_digit c) eqn:E.
    + exists (c :: ds), rest. simpl. rewrite E. auto.
    + exists [], (c :: ds ++ rest). auto.
Qed.

(** [_parse_number] raises nothing but the [ValueError] of [int]: where no
    digit of [string.digits] is next, or where more than [max_str_digits]
    characters are left. *)
Lemma _parse_number_raises s e s' :
  _parse_number s = Raise e s' ->
  e = ValueError /\
  (head_in digits (remaining s) = false \/
   (max_str_digits < Z.of_nat (length (remaining s)))%Z).
Proof.
  intros H. destruct (digits_split (remaining s)) as (ds & rest & E & Hd & Hr).
  destruct (_parse_number_run s ds rest E Hd Hr) as (s0 & _ & _ & Hp).
  rewrite Hp in H. destruct (py_int ds) eqn:Epy; [discriminate|].
  inversion H; subst. split; [reflexivity|].
  destruct ds as [|d ds]; [left; now rewrite E|]. right.
  unfold py_int in Epy.
  destruct (max_str_digits <? Z.of_nat (length (d :: ds)))%Z eqn:El.
  - apply Z.ltb_lt in El. rewrite E, length_app. lia.
  - rewrite (int_digits_fold (d :: ds) Hd) in Epy. discriminate.
Qed.

(** A dollar in front of a decimal digit: Mirror is the first class whose
    predicate holds. *)
Lemma Mirror_first_match s d r :
  remaining s = "$"%char :: d :: r -> is_decimal d = true ->
  first_match __ALLOWED_TOKENS s MirrorToken.
Proof.
  intros Hrem Hd0.
  exists [EscapeCharToken; VisualToken; TransformationToken; TabStopToken],
         [PythonCodeToken; VimLCodeToken; ShellCodeToken].
  split; [reflexivity|]. split.
  - intros c Hin. destruct Hin as [<-|[<-|[<-|[<-|[]]]]].
    + now apply (@dollar_not_escape s _ Hrem).
    + apply starts_here_false; [discriminate|]. unfold starts_here_value.
      rewrite Hrem. rewrite !firstn_S_cons. unfold VisualToken_CHECK.
      txt_literals; cbn [startswith].
      rewrite (char_eqb_sym "{" d), (decimal_not_brace d Hd0).
      now rewrite andb_false_r.
    + apply starts_here_false; [discriminate|]. unfold starts_here_value.
      rewrite Hrem. rewrite !firstn_S_cons. unfold TransformationToken_CHECK.
      now rewrite (decimal_not_brace d Hd0), andb_false_r.
    + apply starts_here_false; [discriminate|]. unfold starts_here_value.
      rewrite Hrem. rewrite !firstn_S_cons. unfold TabStopToken_CHECK.
      now rewrite (decimal_not_brace d Hd0), andb_false_r.
  - apply starts_here_true; [discriminate|]. unfold starts_here_value.
    rewrite Hrem. rewrite !firstn_S_cons. unfold MirrorToken_CHECK.
    rewrite char_eqb_refl. unfold after_digits.
    destruct (span_digits_head d (firstn 8 r) Hd0) as (x & y & -> & _).
    reflexivity.
Qed.

(** What the iterator consumed, read off the characters that are left. *)
Lemma consumed_between_remaining s s' (pre rest : text) :
  wf s' -> _text s' = _text s ->
  remaining s = pre ++ rest -> remaining s' = rest ->
  consumed_between s s' = pre.
Proof.
  intros W Ht Hrem Hr.
  pose proof (remaining_length s) as L. pose proof (remaining_length s') as L'.
  rewrite Hrem, length_app in L. rewrite Hr, Ht in L'. unfold wf in W. rewrite Ht in W.
  unfold consumed_between, slice. fold (remaining s). rewrite Hrem.
  replace (_idx s' - _idx s) with (length pre) by lia.
  rewrite firstn_app, Nat.sub_diag, firstn_all. simpl. apply app_nil_r.
Qed.

(** The round of the driver at a dollar in front of a decimal digit is the
    parse of the Mirror token: the dollar is consumed and the number read. *)
Lemma tokenize_round_mirror indent s d r :
  remaining s = "$"%char :: d :: r -> is_decimal d = true ->
  exists s1,
    remaining s1 = d :: r /\ _text s1 = _text s /\ wf s1 /\
    tokenize_round indent s =
    match _parse_number s1 with
    | Ok n s2 => Ok (inl {| start := position s; attrs := Mirror n;
                            end_ := position s2 |}) s2
    | Raise e s2 => Raise e s2
    | OutOfFuel => OutOfFuel
    end.
Proof.
  intros Hrem Hd.
  assert (W : wf s).
  { unfold wf. destruct (Nat.le_gt_cases (_idx s) (length (_text s))); [assumption|].
    assert (F : remaining s = []) by (apply remaining_nil; lia).
    rewrite Hrem in F. discriminate. }
  destruct (next_cons s _ _ Hrem) as (s1 & Hn1 & Hr1 & Ht1).
  exists s1. split; [exact Hr1|]. split; [exact Ht1|]. split.
  - pose proof (sound_next W) as Hs. rewrite Hn1 in Hs. exact (advances_wf Hs).
  - rewrite (tokenize_round_first_match indent (Mirror_first_match s d r Hrem Hd)).
    unfold Token__init__, bind, pos. simpl _parse.
    unfold MirrorToken_parse, bind. rewrite Hn1.
    destruct (_parse_number s1); reflexivity.
Qed.

(** X11: a dollar in front of a run of digits of [string.digits] is parsed as
    a Mirror token; the parse consumes the dollar and the whole run.  When the
    run has at most [max_str_digits] digits (4300, the limit of [int]) the
    round yields the Mirror token with the number that the run denotes,
    spanning the dollar and the run; when the run is longer the round raises
    [ValueError].  A dollar in front of a decimal digit that is none of
    [string.digits] is recognized as a Mirror as well, and the round raises
    [ValueError] behind the dollar. *)
Theorem dollar_digits_is_a_mirror indent s :
  (forall ds rest : text,
     remaining s = "$"%char :: ds ++ rest ->
     ds <> [] -> forallb is_digit ds = true -> head_in digits rest = false ->
     exists s',
       remaining s' = rest /\
       consumed_between s s' = "$"%char :: ds /\
       ((Z.of_nat (length ds) <= max_str_digits)%Z ->
        tokenize_round indent s
        = Ok (inl {| start := position s; attrs := Mirror (number_of ds);
                     end_ := position s' |}) s') /\
       ((max_str_digits < Z.of_nat (length ds))%Z ->
        tokenize_round indent s = Raise ValueError s')) /\
  (forall d r,
     remaining s = "$"%char :: d :: r -> is_decimal d = true -> is_digit d = false ->
     exists s', tokenize_round indent s = Raise ValueError s' /\ remaining s' = d :: r).
Proof.
  split.
  - intros ds rest Hrem Hne Hd Hrest.
    destruct ds as [|d ds]; [contradiction|].
    assert (Hd0 : is_decimal d = true).
    { simpl in Hd. apply andb_true_iff in Hd as [Hd _]. now apply is_digit_decimal. }
    destruct (tokenize_round_mirror indent s d (ds ++ rest) Hrem Hd0)
      as (s1 & Hr1 & Ht1 & W1 & Hround).
    destruct (_parse_number_run s1 (d :: ds) rest Hr1 Hd Hrest) as (s2 & Hr2 & Ht2 & Hp).
    exists s2. split; [exact Hr2|]. split.
    + apply (consumed_between_remaining s s2 ("$"%char :: d :: ds) rest);
        [|congruence | exact Hrem | exact Hr2].
      pose proof (sound__parse_number W1) as Hs. rewrite Hp in Hs.
      destruct (py_int (d :: ds)); [exact (advances_wf Hs) | exact (advances_wf (proj1 Hs))].
    + split; intros Hl; rewrite Hround, Hp.
      * now rewrite (py_int_digits (d :: ds) Hne Hd Hl).
      * now rewrite (py_int_long (d :: ds) Hl).
  - intros d r Hrem Hd Hnd.
    destruct (tokenize_round_mirror indent s d r Hrem Hd) as (s1 & Hr1 & _ & _ & Hround).
    exists s1. split; [|exact Hr1].
    rewrite Hround, _parse_number_no_digit; [reflexivity|].
    rewrite Hr1. exact Hnd.
Qed.

Lemma dollar_digits_is_a_mirror_witness :
  exists s',
    tokenize_round [] (_TextIterator__init__ (txt "$1234567890x") origin)
    = Ok (inl {| start := origin; attrs := Mirror 1234567890; end_ := position s' |}) s' /\
    remaining s' = txt "x".
Proof.
  destruct (proj1 (dollar_digits_is_a_mirror []
                     (_TextIterator__init__ (txt "$1234567890x") origin))
              (txt "1234567890") (txt "x")) as (s' & Hr & _ & H & _);
    [reflexivity | discriminate | reflexivity | reflexivity |].
  exists s'. split; [apply H; vm_compute; discriminate | exact Hr].
Defined.

Lemma advance_position_line (t : text) : forall p,
  line (advance_position p t) = (line p + Z.of_nat (newlines t))%Z.
Proof.
  unfold advance_position, newlines.
  induction t as [|c t IH]; intros p; simpl fold_left; [simpl; lia|].
  rewrite IH. unfold step_position. cbn [count_occ].
  destruct (char_dec c LF) as [->|Hc].
  - rewrite char_eqb_refl. simpl line. lia.
  - apply char_eqb_neq in Hc. rewrite Hc. simpl line. lia.
Qed.

Lemma advance_position_col (t : text) : forall p,
  newlines t = 0 ->
  col (advance_position p t) = (col p + Z.of_nat (length t))%Z.
Proof.
  unfold advance_position, newlines.
  induction t as [|c t IH]; intros p; simpl fold_left; [simpl; lia|].
  cbn [count_occ]. destruct (char_dec c LF) as [->|Hc]; [discriminate|].
  intros H0. rewrite (IH _ H0). unfold step_position.
  apply char_eqb_neq in Hc. rewrite Hc. simpl col. simpl length. lia.
Qed.

(** The last token of a run that finishes is [EndOfText] at the position of
    the end of the text. *)
Lemma run_ends_at_the_end indent s evs o :
  run indent s evs o -> wf s -> o = Finished ->
  forall offset,
    position s = position_at offset (_text s) (_idx s) ->
    exists before,
      yielded evs =
      before ++ [{| start := position_at offset (_text s) (length (_text s));
                    attrs := EndOfText;
                    end_ := position_at offset (_text s) (length (_text s)) |}].
Proof.
  induction 1 as [s t s1 evs o Hr _ IH | s c s1 evs o Hr _ IH
                 | s s1 t s2 Hr Ht | s e s1 Hr Hne]; intros W Ho offset Hp.
  - destruct (tokenize_round_yields _ W Hr) as (Ha & _).
    pose proof (advances_position_at offset Ha Hp) as Hp1.
    destruct Ha as (Htx & _ & W1 & _).
    destruct (IH W1 Ho offset Hp1) as (before & E). rewrite Htx in E.
    exists (t :: before). simpl. now rewrite E.
  - destruct (tokenize_round_discards _ W Hr) as (Ha & _).
    pose proof (advances_position_at offset Ha Hp) as Hp1.
    destruct Ha as (Htx & _ & W1 & _).
    destruct (IH W1 Ho offset Hp1) as (before & E). rewrite Htx in E.
    exists before. exact E.
  - destruct (tokenize_round_stops _ W Hr) as (Ha & Hend).
    pose proof (advances_position_at offset Ha Hp) as Hp1.
    destruct Ha as (Htx & _). rewrite Hend, Htx in Hp1.
    rewrite EndOfTextToken__init__ in Ht. inversion Ht; subst.
    exists []. simpl. now rewrite Hp1.
  - discriminate.
Qed.

(** X12: when [tokenize] finishes, its last token is [EndOfText] with start
    and end at the position of the end of the input: as many lines below the
    offset as the input has newlines, and, for an input without newline, as
    many columns right of the offset as the input has characters. *)
Theorem EndOfText_is_at_the_end t indent offset toks :
  tokenize t indent offset = (toks, Finished) ->
  exists before p,
    toks = before ++ [{| start := p; attrs := EndOfText; end_ := p |}] /\
    p = advance_position offset t /\
    line p = (line offset + Z.of_nat (newlines t))%Z /\
    (newlines t = 0 -> col p = (col offset + Z.of_nat (length t))%Z).
Proof.
  unfold tokenize. destruct (tokenize_trace t indent offset) as [evs o] eqn:E.
  intros H. inversion H; subst. apply tokenize_trace_run in E.
  destruct (run_ends_at_the_end indent _ evs Finished E (wf_init t offset) eq_refl offset)
    as (before & Hb).
  { now destruct offset. }
  simpl in Hb. unfold as_unicode, position_at in Hb. rewrite firstn_all in Hb.
  exists before, (advance_position offset t). split; [exact Hb|]. split; [reflexivity|].
  split; [apply advance_position_line | apply advance_position_col].
Qed.

Lemma EndOfText_is_at_the_end_witness :
  exists before,
    fst (tokenize (txt "a" ++ [LF] ++ txt "$1b") [] {| line := 3; col := 4 |})
    = before ++ [{| start := {| line := 4; col := 3 |}; attrs := EndOfText;
                    end_ := {| line := 4; col := 3 |} |}].
Proof.
  destruct (EndOfText_is_at_the_end (txt "a" ++ [LF] ++ txt "$1b") []
              {| line := 3; col := 4 |}
              (fst (tokenize (txt "a" ++ [LF] ++ txt "$1b") [] {| line := 3; col := 4 |})))
    as (before & p & Hb & Hp & _); [vm_compute; reflexivity|].
  exists before. rewrite Hb, Hp. reflexivity.
Defined.

Lemma no_match_at_the_end s : remaining s = [] -> no_match __ALLOWED_TOKENS s.
Proof.
  intros Hrem cls Hin.
  assert (Hc : cls <> EndOfTextToken).
  { intros ->. now apply EndOfTextToken_not_allowed. }
  apply (starts_here_false cls s Hc). unfold starts_here_value. rewrite Hrem.
  destruct cls; reflexivity.
Qed.

(** At the end of the text the round of the driver raises [StopIteration]. *)
Lemma tokenize_round_at_the_end indent s :
  remaining s = [] -> tokenize_round indent s = Raise StopIteration s.
Proof.
  intros Hrem. rewrite (tokenize_round_no_match indent (no_match_at_the_end s Hrem)).
  apply remaining_nil in Hrem. unfold next. apply Nat.leb_le in Hrem. now rewrite Hrem.
Qed.

Lemma run_of_plain_text indent s evs o :
  run indent s evs o ->
  forallb (fun c => negb (token_starter c)) (remaining s) = true ->
  o = Finished /\ length (yielded evs) = 1.
Proof.
  induction 1 as [s t s1 evs o Hr _ IH | s c s1 evs o Hr _ IH
                 | s s1 t s2 Hr Ht | s e s1 Hr Hne]; intros Hp.
  - destruct (remaining s) as [|c r] eqn:Hrem.
    + rewrite (tokenize_round_at_the_end indent s Hrem) in Hr. discriminate.
    + simpl in Hp. apply andb_true_iff in Hp as [Hc _]. apply negb_true_iff in Hc.
      destruct (plain_character_is_dropped_aux indent s c r Hrem Hc) as (s' & H' & _).
      rewrite H' in Hr. discriminate.
  - destruct (remaining s) as [|c' r] eqn:Hrem.
    + rewrite (tokenize_round_at_the_end indent s Hrem) in Hr. discriminate.
    + simpl in Hp. apply andb_true_iff in Hp as [Hc Hp]. apply negb_true_iff in Hc.
      destruct (plain_character_is_dropped_aux indent s c' r Hrem Hc) as (s' & H' & Hr').
      rewrite H' in Hr. inversion Hr; subst. simpl. apply IH. assumption.
  - split; reflexivity.
  - destruct (remaining s) as [|c r] eqn:Hrem.
    + rewrite (tokenize_round_at_the_end indent s Hrem) in Hr. inversion Hr; subst.
      now contradiction Hne.
    + simpl in Hp. apply andb_true_iff in Hp as [Hc _]. apply negb_true_iff in Hc.
      destruct (plain_character_is_dropped_aux indent s c r Hrem Hc) as (s' & H' & _).
      rewrite H' in Hr. discriminate.
Qed.

(** X13: an input without dollar, backslash and backtick, the empty input
    among them, yields the [EndOfText] token alone, at the position of the
    end of the input, and [tokenize] finishes. *)
Theorem plain_text_yields_only_EndOfText t indent offset :
  forallb (fun c => negb (token_starter c)) t = true ->
  tokenize t indent offset =
  ([{| start := advance_position offset t; attrs := EndOfText;
       end_ := advance_position offset t |}], Finished).
Proof.
  intros Hp. unfold tokenize.
  destruct (tokenize_trace t indent offset) as [evs o] eqn:E.
  apply tokenize_trace_run in E.
  destruct (run_of_plain_text indent _ evs o E Hp) as (-> & Hl).
  destruct (run_ends_at_the_end indent _ evs Finished E (wf_init t offset) eq_refl offset)
    as (before & Hb).
  { now destruct offset. }
  simpl in Hb. unfold as_unicode, position_at in Hb. rewrite firstn_all in Hb.
  rewrite Hb in Hl. rewrite length_app in Hl. simpl in Hl.
  destruct before; [|simpl in Hl; lia]. now rewrite Hb.
Qed.

Lemma plain_text_yields_only_EndOfText_witness :
  tokenize (txt "if (x) { y }") (txt "  ") origin =
  ([{| start := {| line := 0; col := 12 |}; attrs := EndOfText;
       end_ := {| line := 0; col := 12 |} |}], Finished).
Proof.
  apply (plain_text_yields_only_EndOfText (txt "if (x) { y }") (txt "  ") origin).
  reflexivity.
Defined.

Lemma run_length indent s evs o :
  run indent s evs o -> wf s -> length (yielded evs) <= S (length (remaining s)).
Proof.
  induction 1 as [s t s1 evs o Hr _ IH | s c s1 evs o Hr _ IH
                 | s s1 t s2 Hr Ht | s e s1 Hr Hne]; intros W; simpl; try lia.
  - destruct (tokenize_round_yields _ W Hr) as ((Ht & Hi & W1 & _) & Hlt & _).
    specialize (IH W1). rewrite !remaining_length in *. rewrite Ht in IH.
    unfold wf in *. rewrite Ht in W1. lia.
  - destruct (tokenize_round_discards _ W Hr) as ((Ht & Hi & W1 & _) & _ & Hs).
    specialize (IH W1). rewrite !remaining_length in *. rewrite Ht in IH. lia.
Qed.

(** X14: every yielded token but [EndOfText] consumes at least one
    character: [tokenize] yields at most one token more than the input has
    characters. *)
Theorem tokenize_yields_at_most t indent offset :
  length (fst (tokenize t indent offset)) <= S (length t).
Proof.
  unfold tokenize. destruct (tokenize_trace t indent offset) as [evs o] eqn:E.
  apply tokenize_trace_run in E. simpl.
  apply (run_length indent _ evs o E (wf_init t offset)).
Qed.

(* ------------------------------------------------------------------ *)
(** ** Further properties: the exceptions that leave [tokenize]        *)
(* ------------------------------------------------------------------ *)

Lemma raises_only_try_except (A : Type) (P Q : exn -> Prop) (m : M A) (h : exn -> M A) :
  raises_only Q m -> (forall e, Q e -> raises_only P (h e)) ->
  raises_only P (try_except m h).
Proof.
  intros Hm Hh s e s' H. unfold try_except in H.
  destruct (m s) as [a s1|e1 s1|] eqn:E; try discriminate.
  eapply (Hh e1); [eapply Hm; eauto | exact H].
Qed.

Lemma raises_only_skip_colon (P : exn -> Prop) : P StopIteration -> raises_only P skip_colon.
Proof.
  intros HP. unfold skip_colon. apply raises_only_bind; [apply raises_only_peek|].
  intros [t|]; [|apply raises_only_ret].
  destruct (text_eqb t (txt ":")); [|apply raises_only_ret].
  apply raises_only_bind; [now apply raises_only_next | intros; apply raises_only_ret].
Qed.

Lemma raises_only_transformation_scans (P : exn -> Prop) :
  P StopIteration -> raises_only P transformation_scans.
Proof.
  intros HP. unfold transformation_scans.
  apply raises_only_bind; [now apply raises_only__parse_till_unescaped_char|]. intros search.
  apply raises_only_bind; [now apply raises_only__parse_till_unescaped_char|]. intros replace.
  apply raises_only_bind; [now apply raises_only__parse_till_closing_brace|]. intros options.
  apply raises_only_ret.
Qed.

Lemma raises_only_VisualToken_parse :
  raises_only (fun e => e = StopIteration \/ e = RuntimeError malformed_transformation)
              VisualToken_parse.
Proof.
  unfold VisualToken_parse. apply raises_only_bind.
  - unfold VisualToken_alternative.
    apply raises_only_bind;
      [apply raises_only_for_range, raises_only_next; now left|]. intros _.
    apply raises_only_bind; [apply raises_only_skip_colon; now left|]. intros _.
    apply raises_only_bind; [apply raises_only__parse_till_unescaped_char; now left|].
    intros [alt c]. apply raises_only_ret.
  - intros [alt c]. destruct (char_eqb c "/"); [|apply raises_only_ret].
    apply (@raises_only_try_except _ _ (fun e => e = StopIteration)).
    + apply raises_only_bind; [now apply raises_only_transformation_scans|].
      intros [[search replace] options]. apply raises_only_ret.
    + intros e ->. apply raises_only_raise. now right.
Qed.

Lemma TabStopToken_CHECK_head (t : text) :
  TabStopToken_CHECK (firstn 10 t) = true ->
  exists d r, t = "$"%char :: "{"%char :: d :: r /\ is_decimal d = true.
Proof.
  destruct t as [|c0 [|c1 [|d r]]]; try discriminate; unfold TabStopToken_CHECK;
    simpl; intros H.
  - rewrite andb_false_r in H. discriminate.
  - apply andb_true_iff in H as [H Hd]. apply andb_true_iff in H as [H0 H1].
    apply char_eqb_eq in H0, H1. subst c0 c1. exists d, r. split; [reflexivity|].
    unfold after_digits in Hd. simpl in Hd.
    destruct (is_decimal d); [reflexivity | discriminate].
Qed.

Lemma MirrorToken_CHECK_head (t : text) :
  MirrorToken_CHECK (firstn 10 t) = true ->
  exists d r, t = "$"%char :: d :: r /\ is_decimal d = true.
Proof.
  destruct t as [|c0 [|d r]]; try discriminate; unfold MirrorToken_CHECK;
    simpl; intros H.
  - rewrite andb_false_r in H. discriminate.
  - apply andb_true_iff in H as [H0 Hd].
    apply char_eqb_eq in H0. subst c0. exists d, r. split; [reflexivity|].
    unfold after_digits in Hd. simpl in Hd.
    destruct (is_decimal d); [reflexivity | discriminate].
Qed.

Lemma PythonCodeToken_CHECK_head (t : text) :
  PythonCodeToken_CHECK (firstn 4 t) = true ->
  exists w r, t = "`"%char :: "!"%char :: "p"%char :: w :: r /\ is_space w = true.
Proof.
  unfold PythonCodeToken_CHECK. intros H. apply andb_true_iff in H as [H Hw].
  destruct t as [|c0 [|c1 [|c2 [|w r]]]]; try discriminate.
  txt_literals_in H; cbn [firstn startswith] in H.
  apply andb_true_iff in H as [H0 H]. apply andb_true_iff in H as [H1 H].
  apply andb_true_iff in H as [H2 _].
  apply char_eqb_eq in H0, H1, H2. subst c0 c1 c2.
  exists w, r. split; [reflexivity | exact Hw].
Qed.

(** The [ValueError] of [_parse_number] in front of a decimal digit. *)
Lemma _parse_number_may_abort (t indent pre : text) s d (r : text) e s' :
  t = pre ++ d :: r -> remaining s = d :: r -> is_decimal d = true ->
  _parse_number s = Raise e s' -> may_abort t indent e.
Proof.
  intros Ht Hrem Hd H. apply _parse_number_raises in H as [-> [Hh|Hl]];
    right; right; (split; [reflexivity|]).
  - left. apply existsb_exists. exists d. split.
    + rewrite Ht. apply in_or_app. right. now left.
    + rewrite Hrem in Hh. unfold other_decimal. unfold head_in in Hh.
      fold (is_digit d) in Hh. now rewrite Hd, Hh.
  - right. rewrite Hrem in Hl. rewrite Ht, length_app. lia.
Qed.

Lemma may_abort_remaining s indent e :
  may_abort (remaining s) indent e -> may_abort (_text s) indent e.
Proof.
  unfold may_abort, remaining. intros [H|[H|[H [Hx|Hl]]]]; auto.
  - right. right. split; [exact H|]. left.
    rewrite <- (firstn_skipn (_idx s) (_text s)), existsb_app, Hx. apply orb_true_r.
  - right. right. split; [exact H|]. right. rewrite length_skipn in Hl. lia.
Qed.

(** Where its predicate holds, the parse of a class raises only what
    [tokenize] catches or is aborted by. *)
Lemma _parse_raises cls indent s e s' :
  In cls __ALLOWED_TOKENS -> starts_here_value cls s = true ->
  _parse cls indent s = Raise e s' ->
  e = StopIteration \/ may_abort (remaining s) indent e.
Proof.
  intros Hin Hv H.
  destruct Hin as [<-|[<-|[<-|[<-|[<-|[<-|[<-|[<-|[]]]]]]]]]; simpl in H.
  - (* EscapeChar *)
    left. revert H. apply (@raises_only_bind _ _ (fun e => e = StopIteration));
      [now apply raises_only_next|]. intros _.
    apply raises_only_bind; [now apply raises_only_next | intros; apply raises_only_ret].
  - (* Visual *)
    destruct (raises_only_VisualToken_parse s e s' H) as [->| ->]; [now left|].
    right. now left.
  - (* Transformation *)
    unfold starts_here_value in Hv.
    apply TransformationToken_CHECK_head in Hv as (d & r & Hrem & Hd).
    destruct (next_cons s _ _ Hrem) as (s1 & Hn1 & Hr1 & _).
    destruct (next_cons s1 _ _ Hr1) as (s2 & Hn2 & Hr2 & _).
    destruct (_parse_number s2) as [n s3|e0 s3|] eqn:Hp.
    + left.
      assert (E : TransformationToken_parse s =
                  bind (bind next (fun _ => ret n))
                       (fun number =>
                          t <- transformation_scans ;;
                          let '(search, replace, options) := t in
                          ret (Transformation number search replace options)) s3).
      { unfold TransformationToken_parse, TransformationToken_number, bind.
        rewrite Hn1, Hn2, Hp. reflexivity. }
      rewrite E in H. revert H.
      apply (@raises_only_bind _ _ (fun e => e = StopIteration)).
      * apply raises_only_bind; [now apply raises_only_next | intros; apply raises_only_ret].
      * intros number. apply raises_only_bind; [now apply raises_only_transformation_scans|].
        intros [[search replace] options]. apply raises_only_ret.
    + right. unfold TransformationToken_parse, TransformationToken_number, bind in H.
      rewrite Hn1, Hn2, Hp in H. inversion H; subst.
      exact (_parse_number_may_abort (remaining s) indent [ "$"%char; "{"%char ]
               s2 d r e s' Hrem Hr2 Hd Hp).
    + unfold TransformationToken_parse, TransformationToken_number, bind in H.
      rewrite Hn1, Hn2, Hp in H. discriminate.
  - (* TabStop *)
    unfold starts_here_value in Hv.
    apply TabStopToken_CHECK_head in Hv as (d & r & Hrem & Hd).
    destruct (next_cons s _ _ Hrem) as (s1 & Hn1 & Hr1 & _).
    destruct (next_cons s1 _ _ Hr1) as (s2 & Hn2 & Hr2 & _).
    destruct (_parse_number s2) as [n s3|e0 s3|] eqn:Hp.
    + left.
      assert (E : TabStopToken_parse s =
                  (skip_colon ;;;
                   initial_text <- _parse_till_closing_brace ;;
                   ret (TabStop n initial_text)) s3).
      { unfold TabStopToken_parse. unfold bind at 1. rewrite Hn1.
        unfold bind at 1. rewrite Hn2. unfold bind at 1. rewrite Hp. reflexivity. }
      rewrite E in H. revert H.
      apply (@raises_only_bind _ _ (fun e => e = StopIteration));
        [now apply raises_only_skip_colon|]. intros _.
      apply raises_only_bind; [now apply raises_only__parse_till_closing_brace|].
      intros; apply raises_only_ret.
    + right. unfold TabStopToken_parse in H. unfold bind at 1 in H. rewrite Hn1 in H.
      unfold bind at 1 in H. rewrite Hn2 in H. unfold bind at 1 in H. rewrite Hp in H.
      inversion H; subst.
      exact (_parse_number_may_abort (remaining s) indent [ "$"%char; "{"%char ]
               s2 d r e s' Hrem Hr2 Hd Hp).
    + unfold TabStopToken_parse in H. unfold bind at 1 in H. rewrite Hn1 in H.
      unfold bind at 1 in H. rewrite Hn2 in H. unfold bind at 1 in H. rewrite Hp in H.
      discriminate.
  - (* Mirror *)
    unfold starts_here_value in Hv.
    apply MirrorToken_CHECK_head in Hv as (d & r & Hrem & Hd).
    destruct (next_cons s _ _ Hrem) as (s1 & Hn1 & Hr1 & _).
    unfold MirrorToken_parse, bind in H. rewrite Hn1 in H.
    destruct (_parse_number s1) as [n s2|e0 s2|] eqn:Hp; try discriminate.
    right. inversion H; subst.
    exact (_parse_number_may_abort (remaining s) indent [ "$"%char ]
             s1 d r e s' Hrem Hr1 Hd Hp).
  - (* PythonCode *)
    unfold starts_here_value in Hv.
    apply PythonCodeToken_CHECK_head in Hv as (w & r & Hrem & _).
    destruct (next_cons s _ _ Hrem) as (s1 & Hn1 & Hr1 & _).
    destruct (next_cons s1 _ _ Hr1) as (s2 & Hn2 & Hr2 & _).
    destruct (next_cons s2 _ _ Hr2) as (s3 & Hn3 & Hr3 & _).
    assert (E : PythonCodeToken_scan s =
                ((if str_in [w] [TAB; " "%char] then (next ;;; ret tt) else ret tt) ;;;
                 scanned <- _parse_till_unescaped_char (txt "`") ;;
                 ret (fst scanned)) s3).
    { unfold PythonCodeToken_scan. unfold bind at 1.
      assert (E3 : for_range 3 next s = Ok tt s3).
      { simpl. unfold bind. now rewrite Hn1, Hn2, Hn3. }
      rewrite E3. unfold bind at 1. unfold bind at 1.
      rewrite (peek1_cons s3 w r Hr3). reflexivity. }
    unfold PythonCodeToken_parse in H. apply bind_Raise in H as [H|(code & s4 & _ & H)].
    + left. rewrite E in H. revert H.
      apply (@raises_only_bind _ _ (fun e => e = StopIteration)).
      * destruct (str_in [w] [TAB; " "%char]); [|apply raises_only_ret].
        apply raises_only_bind; [now apply raises_only_next | intros; apply raises_only_ret].
      * intros _. apply raises_only_bind;
          [now apply raises_only__parse_till_unescaped_char | intros; apply raises_only_ret].
    + right. right. left. apply bind_Raise in H as [H|(code' & s5 & _ & H)]; [|discriminate].
      destruct (length indent =? 0) eqn:El; simpl in H; [discriminate|].
      split.
      * unfold strip_indent in H. apply bind_Raise in H as [H|(l & s5 & _ & H)];
          [|discriminate].
        unfold getitem in H. destruct (nth_error (splitlines code) 0); [discriminate|].
        now inversion H.
      * intros ->. discriminate.
  - (* VimLCode *)
    left. revert H. apply (@raises_only_bind _ _ (fun e => e = StopIteration));
      [now apply raises_only_for_range, raises_only_next|]. intros _.
    apply raises_only_bind;
      [now apply raises_only__parse_till_unescaped_char | intros; apply raises_only_ret].
  - (* ShellCode *)
    left. revert H. apply (@raises_only_bind _ _ (fun e => e = StopIteration));
      [now apply raises_only_next|]. intros _.
    apply raises_only_bind;
      [now apply raises_only__parse_till_unescaped_char | intros; apply raises_only_ret].
Qed.

Lemma try_tokens_Raise classes indent s e s' :
  ~ In EndOfTextToken classes ->
  try_tokens classes indent s = Raise e s' ->
  exists cls,
    In cls classes /\ starts_here_value cls s = true /\
    _parse cls indent s = Raise e s'.
Proof.
  induction classes as [|cls classes IH]; intros Hn H; simpl in H; [discriminate|].
  assert (Hc : cls <> EndOfTextToken) by (intros ->; apply Hn; now left).
  unfold bind at 1 in H. rewrite (starts_here_spec s Hc) in H.
  destruct (starts_here_value cls s) eqn:Ev.
  - exists cls. split; [now left|]. split; [exact Ev|].
    unfold Token__init__, bind, pos, ret in H.
    destruct (_parse cls indent s) as [a s1|e1 s1|]; try discriminate.
    inversion H; subst. reflexivity.
  - destruct IH as (c & Hin & Hv & Hp); [intros F; apply Hn; now right | exact H |].
    exists c. split; [now right | auto].
Qed.

Lemma tokenize_round_raises indent s e s' :
  tokenize_round indent s = Raise e s' ->
  e = StopIteration \/ may_abort (_text s) indent e.
Proof.
  intros H. unfold tokenize_round in H. apply bind_Raise in H as [H|(d & s1 & _ & H)].
  - apply (try_tokens_Raise _ _ _ _ _ EndOfTextToken_not_allowed) in H
      as (cls & Hin & Hv & Hp).
    destruct (_parse_raises cls indent s e s' Hin Hv Hp) as [He|He]; [now left|].
    right. now apply may_abort_remaining.
  - destruct d as [t|]; [discriminate|].
    apply bind_Raise in H as [H|(c & s2 & _ & H)]; [|discriminate].
    left. now destruct (next_stops_at_the_end_aux s1 e s' H).
Qed.

Lemma run_aborts indent s evs o :
  run indent s evs o -> wf s ->
  forall e, o = Aborted e -> may_abort (_text s) indent e.
Proof.
  induction 1 as [s t s1 evs o Hr _ IH | s c s1 evs o Hr _ IH
                 | s s1 t s2 Hr Ht | s e0 s1 Hr Hne]; intros W e Ho; try discriminate.
  - destruct (tokenize_round_yields _ W Hr) as ((Ht & _ & W1 & _) & _).
    rewrite <- Ht. now apply IH.
  - destruct (tokenize_round_discards _ W Hr) as ((Ht & _ & W1 & _) & _).
    rewrite <- Ht. now apply IH.
  - inversion Ho; subst.
    destruct (tokenize_round_raises indent s e s1 Hr) as [->|H];
      [now contradiction Hne | exact H].
Qed.

(** X15: [tokenize] always ends, by finishing or by one of three exceptions:
    the [RuntimeError] of a malformed Visual transformation; with a non-empty
    indent only, the [IndexError] of the indent stripping; and the
    [ValueError] of [int], only on a text that holds a decimal digit which is
    none of [string.digits], or more than [max_str_digits] (4300) characters.
    No [StopIteration], [TypeError] or [AttributeError] leaves it. *)
Theorem tokenize_aborts_only_by t indent offset :
  snd (tokenize t indent offset) = Finished \/
  exists e, snd (tokenize t indent offset) = Aborted e /\ may_abort t indent e.
Proof.
  unfold tokenize. destruct (tokenize_trace t indent offset) as [evs o] eqn:E.
  apply tokenize_trace_run in E. simpl.
  destruct (run_outcome E) as [->|[e ->]]; [now left|].
  right. exists e. split; [reflexivity|].
  exact (run_aborts indent _ evs (Aborted e) E (wf_init t offset) e eq_refl).
Qed.

(* ------------------------------------------------------------------ *)
(** ** Further properties: the indent                                  *)
(* ------------------------------------------------------------------ *)

Lemma try_tokens_cons cls classes indent s :
  try_tokens (cls :: classes) indent s =
  match starts_here cls s with
  | Ok true s0 => passing Some (Token__init__ cls indent s0)
  | Ok false s0 => try_tokens classes indent s0
  | Raise e s' => Raise e s'
  | OutOfFuel => OutOfFuel
  end.
Proof.
  simpl. unfold bind at 1.
  destruct (starts_here cls s) as [[|] s0|e s0|]; try reflexivity;
    unfold bind, passing, ret; destruct (Token__init__ cls indent s0); reflexivity.
Qed.

Lemma try_tokens_indent classes indent indent' s :
  starts_here_value PythonCodeToken s = false -> ~ In EndOfTextToken classes ->
  try_tokens classes indent s = try_tokens classes indent' s.
Proof.
  intros Hpy. induction classes as [|cls classes IH]; intros Hn; [reflexivity|].
  assert (Hc : cls <> EndOfTextToken) by (intros ->; apply Hn; now left).
  rewrite !try_tokens_cons, (starts_here_spec s Hc).
  destruct (starts_here_value cls s) eqn:Ev.
  - assert (Hp : cls <> PythonCodeToken) by (intros ->; congruence).
    unfold Token__init__.
    replace (_parse cls indent) with (_parse cls indent'); [reflexivity|].
    destruct cls; try reflexivity. now contradiction Hp.
  - apply IH. intros F. apply Hn. now right.
Qed.

Lemma python_value_without_backtick s :
  head_in (txt "`") (remaining s) = false -> starts_here_value PythonCodeToken s = false.
Proof.
  intros H. destruct (remaining s) as [|c r] eqn:Hrem.
  - unfold starts_here_value. now rewrite Hrem.
  - apply (backtick_values_head s c r PythonCodeToken Hrem); [|simpl; tauto].
    unfold head_in in H. rewrite str_in_char in H. simpl in H.
    now rewrite orb_false_r in H.
Qed.

Lemma tokenize_round_indent indent indent' s :
  head_in (txt "`") (remaining s) = false ->
  tokenize_round indent s = tokenize_round indent' s.
Proof.
  intros H. unfold tokenize_round, bind.
  now rewrite (try_tokens_indent __ALLOWED_TOKENS indent indent' s
                 (python_value_without_backtick s H) EndOfTextToken_not_allowed).
Qed.

Lemma without_head chars (t : text) : without chars t = true -> head_in chars t = false.
Proof.
  destruct t as [|c t]; [reflexivity|]. simpl. intros H.
  apply andb_true_iff in H as [H _]. now apply negb_true_iff in H.
Qed.

Lemma without_skipn chars n (t : text) :
  without chars t = true -> without chars (skipn n t) = true.
Proof.
  revert t. induction n as [|n IH]; intros [|c t] H; simpl; auto.
  simpl in H. apply andb_true_iff in H as [_ H]. now apply IH.
Qed.

Lemma advances_remaining s s' :
  advances s s' -> remaining s' = skipn (_idx s' - _idx s) (remaining s).
Proof.
  intros (Ht & Hi & _). unfold remaining. rewrite Ht, skipn_skipn. f_equal. lia.
Qed.

Lemma tokenize_loop_indent indent indent' fuel : forall s,
  wf s -> without (txt "`") (remaining s) = true ->
  tokenize_loop fuel indent s = tokenize_loop fuel indent' s.
Proof.
  induction fuel as [|fuel IH]; intros s W Hb; [reflexivity|]. simpl.
  rewrite (tokenize_round_indent indent indent' s (without_head _ _ Hb)).
  destruct (tokenize_round indent' s) as [[t|c] s1|e s1|] eqn:E; try reflexivity.
  - destruct (tokenize_round_yields _ W E) as (Ha & _).
    rewrite (IH s1 (advances_wf Ha)); [reflexivity|].
    rewrite (advances_remaining s s1 Ha). now apply without_skipn.
  - destruct (tokenize_round_discards _ W E) as (Ha & _).
    rewrite (IH s1 (advances_wf Ha)); [reflexivity|].
    rewrite (advances_remaining s s1 Ha). now apply without_skipn.
Qed.

(** X16: the indent matters to Python code only: on an input without
    backtick [tokenize] yields the same tokens and ends the same way for
    every indent. *)
Theorem indent_only_matters_to_code t indent indent' offset :
  without (txt "`") t = true ->
  tokenize t indent offset = tokenize t indent' offset.
Proof.
  intros H. unfold tokenize, tokenize_trace.
  now rewrite (tokenize_loop_indent indent indent' _ _ (wf_init t offset) H).
Qed.

Lemma indent_only_matters_to_code_witness :
  tokenize (txt "${1:x} $1") (txt "    ") origin = tokenize (txt "${1:x} $1") [] origin.
Proof.
  apply (indent_only_matters_to_code (txt "${1:x} $1") (txt "    ") [] origin).
  reflexivity.
Defined.

(* ------------------------------------------------------------------ *)
(** ** Further properties: well-formed tokens are parsed in full       *)
(* ------------------------------------------------------------------ *)

Lemma for_range_next_prefix (p : text) : forall s r,
  remaining s = p ++ r ->
  exists s', for_range (length p) next s = Ok tt s' /\ remaining s' = r /\ _text s' = _text s.
Proof.
  induction p as [|c p IH]; intros s r Hrem.
  - exists s. auto.
  - destruct (next_cons s c (p ++ r) Hrem) as (s1 & Hn & Hr1 & Ht1).
    destruct (IH s1 r Hr1) as (s' & Hf & Hr' & Ht').
    exists s'. simpl. unfold bind. rewrite Hn. split; [exact Hf|]. split; congruence.
Qed.


Lemma str_in_cons x char (chars : text) :
  str_in [x] (char :: chars) = char_eqb x char || str_in [x] chars.
Proof. now rewrite !str_in_char. Qed.

(** The [for char in chars] loop in front of a text that the delimiter scan
    takes whole: it takes escaped stop characters, pairs of a backslash and a
    stop character, from the front of the text, and what is left of the text
    is taken whole as well.  When it takes none, no stop character of [chars]
    is escaped at the front. *)
Lemma escaped_pairs_scanned (all : text) c (rest : text) :
  char_eqb c backslash = false ->
  forall chars (body : text) (rv : text) b s,
    (forall x, str_in [x] chars = true -> str_in [x] all = true) ->
    delimiter_scanned all body = true ->
    remaining s = body ++ c :: rest ->
    exists (taken body' : text) s',
      escaped_pairs chars (rv, b) s
      = Ok (rv ++ taken, b || negb (length taken =? 0)) s' /\
      body = taken ++ body' /\ delimiter_scanned all body' = true /\
      remaining s' = body' ++ c :: rest /\ _text s' = _text s /\
      (taken = [] ->
       s' = s /\
       forall y z (r : text),
         body ++ c :: rest = y :: z :: r -> char_eqb y backslash && str_in [z] chars = false).
Proof.
  intros Hc. induction chars as [|char chars IH]; intros body rv b s Hincl Hd Hrem.
  - exists [], body, s. rewrite app_nil_r, orb_false_r.
    repeat split; auto. intros y z r _. apply andb_false_r.
  - rewrite escaped_pairs_cons, EscapeCharToken_starts_here_spec, Hrem.
    assert (Hincl' : forall x, str_in [x] chars = true -> str_in [x] all = true).
    { intros x Hx. apply Hincl. rewrite str_in_cons, Hx. apply orb_true_r. }
    destruct (match firstn 2 (body ++ c :: rest) with
              | [c0; c1] => char_eqb c0 backslash && str_in [c1] [char]
              | _ => false
              end) eqn:E.
    + (* an escaped stop character is at the front *)
      destruct body as [|y [|z body2]]; cbn [app firstn] in E.
      * destruct rest; [discriminate|]. now rewrite Hc in E.
      * cbn [delimiter_scanned] in Hd. apply andb_true_iff in Hd as [Hy _].
        apply negb_true_iff in Hy. now rewrite Hy in E.
      * apply andb_true_iff in E as [Ey Ez]. apply char_eqb_eq in Ey. subst y.
        assert (Hz : str_in [z] all = true).
        { apply Hincl. rewrite str_in_cons. rewrite str_in_cons in Ez.
          cbn [str_in startswith] in Ez. rewrite orb_false_r in Ez. now rewrite Ez. }
        cbn [delimiter_scanned] in Hd. rewrite char_eqb_refl, Hz in Hd. cbn [andb] in Hd.
        simpl in Hrem.
        destruct (next_cons s _ _ Hrem) as (s1 & Hn1 & Hr1 & Ht1).
        destruct (next_cons s1 _ _ Hr1) as (s2 & Hn2 & Hr2 & Ht2).
        rewrite Hn1, Hn2. cbn [fst].
        destruct (IH body2 (rv ++ [backslash; z]) true s2 Hincl' Hd Hr2)
          as (taken & body' & s' & Hp & Hb & Hd' & Hr' & Ht' & _).
        exists (backslash :: z :: taken), body', s'. split.
        { etransitivity; [exact Hp|]. rewrite <- app_assoc.
          cbn [orb app length Nat.eqb negb]. now rewrite orb_true_r. }
        split; [now rewrite Hb|]. split; [exact Hd'|]. split; [exact Hr'|].
        split; [congruence|]. intros F. discriminate.
    + (* none is *)
      destruct (IH body rv b s Hincl' Hd Hrem)
        as (taken & body' & s' & Hp & Hb & Hd' & Hr' & Ht' & Hcl).
      exists taken, body', s'. repeat split; auto; try (now apply Hcl).
      intros y z r Hyz. destruct (Hcl H) as [_ Hcl'].
      rewrite str_in_cons, andb_orb_distrib_r, (Hcl' y z r Hyz), orb_false_r.
      rewrite Hyz in E. cbn [firstn] in E. rewrite str_in_cons in E.
      cbn [str_in startswith] in E. now rewrite orb_false_r in E.
Qed.

(** The loop of [_parse_till_unescaped_char] over a text that the scan takes
    whole: it returns the text, escapes included, and the stop character
    behind it. *)
Lemma _parse_till_unescaped_char_loop_scanned chars c (rest : text) :
  char_eqb c backslash = false -> str_in [c] chars = true ->
  forall n (body : text) (rv : text) fuel s,
    length body < n ->
    delimiter_scanned chars body = true ->
    remaining s = body ++ c :: rest -> length body < fuel ->
    exists s',
      while_true fuel (_parse_till_unescaped_char_body chars) rv s = Ok (rv ++ body, c) s' /\
      remaining s' = rest /\ _text s' = _text s.
Proof.
  intros Hc Hin. induction n as [|n IH]; intros body rv fuel s Hn Hd Hrem Hf; [lia|].
  destruct fuel as [|fuel]; [lia|]. rewrite while_true_S.
  destruct (escaped_pairs_scanned chars c rest Hc chars body rv false s
              (fun x H => H) Hd Hrem)
    as (taken & body' & s1 & Hp & Hb & Hd' & Hr1 & Ht1 & Hcl).
  unfold _parse_till_unescaped_char_body, bind at 1. rewrite Hp.
  destruct taken as [|t0 taken].
  - destruct (Hcl eq_refl) as [-> Hno]. cbn [app] in Hb. subst body'.
    cbn [length Nat.eqb negb orb]. rewrite app_nil_r.
    destruct body as [|y tail].
    + simpl in Hrem. destruct (next_cons s _ _ Hrem) as (s2 & Hn2 & Hr2 & Ht2).
      unfold bind. rewrite Hn2, Hin. exists s2. rewrite app_nil_r. auto.
    + assert (Hy : str_in [y] chars = false /\ delimiter_scanned chars tail = true).
      { destruct tail as [|z tail].
        - cbn [delimiter_scanned] in Hd. apply andb_true_iff in Hd as [_ Hy].
          apply negb_true_iff in Hy. auto.
        - cbn [delimiter_scanned] in Hd. rewrite (Hno y z _ eq_refl) in Hd.
          apply andb_true_iff in Hd as [Hy Hd]. apply negb_true_iff in Hy. auto. }
      destruct Hy as [Hy Htail]. simpl in Hrem.
      destruct (next_cons s _ _ Hrem) as (s2 & Hn2 & Hr2 & Ht2).
      unfold bind. rewrite Hn2, Hy.
      destruct (IH tail (rv ++ [y]) fuel s2) as (s' & Hw & Hr' & Ht');
        [simpl in Hn; lia | exact Htail | exact Hr2 | simpl in Hf; lia|].
      exists s'. rewrite <- app_assoc in Hw. split; [exact Hw|]. split; congruence.
  - cbn [length Nat.eqb negb orb]. unfold ret.
    destruct (IH body' (rv ++ t0 :: taken) fuel s1) as (s' & Hw & Hr' & Ht');
      [rewrite Hb, length_app in Hn; simpl in Hn; lia | exact Hd' | exact Hr1
      | rewrite Hb, length_app in Hf; simpl in Hf; lia|].
    exists s'. rewrite <- app_assoc, <- Hb in Hw. split; [exact Hw|]. split; congruence.
Qed.

(** The delimiter scan over a text that it takes whole, with a stop
    character behind it: it returns the text as it is, escapes included, and
    the stop character, and stops behind the stop character. *)
Lemma _parse_till_unescaped_char_scanned chars s (body : text) c (rest : text) :
  delimiter_scanned chars body = true ->
  char_eqb c backslash = false -> str_in [c] chars = true ->
  remaining s = body ++ c :: rest ->
  exists s',
    _parse_till_unescaped_char chars s = Ok (body, c) s' /\
    remaining s' = rest /\ _text s' = _text s.
Proof.
  intros Hd Hc Hin Hrem.
  assert (Hf : length body < S (length (_text s) - _idx s)).
  { rewrite <- remaining_length, Hrem, length_app. lia. }
  destruct (_parse_till_unescaped_char_loop_scanned chars c rest Hc Hin
              (S (length body)) body [] _ s (Nat.lt_succ_diag_r _) Hd Hrem Hf)
    as (s' & Hl & Hr & Ht).
  exists s'. split; [exact Hl | auto].
Qed.

(** A text without backslash and without stop character is taken whole. *)
Lemma plain_delimiter_scanned chars (body : text) :
  plain body = true -> without chars body = true -> delimiter_scanned chars body = true.
Proof.
  induction body as [|x body IH]; [reflexivity|]. intros Hp Hw.
  simpl in Hp, Hw. apply andb_true_iff in Hp as [Hx Hp].
  apply andb_true_iff in Hw as [Hxc Hw]. apply negb_true_iff in Hx.
  cbn [delimiter_scanned]. destruct body as [|d body].
  - now rewrite Hx, Hxc.
  - rewrite Hx, Hxc. cbn [andb]. now apply IH.
Qed.

(** The three scans of a transformation over [search/replace/options}]. *)
Lemma transformation_scans_scanned s (search replace options rest : text) :
  remaining s = search ++ "/"%char :: replace ++ "/"%char :: options ++ "}"%char :: rest ->
  delimiter_scanned (txt "/") search = true ->
  delimiter_scanned (txt "/") replace = true ->
  brace_scanned 1 options = true ->
  exists s',
    transformation_scans s = Ok (search, replace, options) s' /\ remaining s' = rest.
Proof.
  intros Hrem Hs Hr Ho.
  destruct (_parse_till_unescaped_char_scanned (txt "/") s search "/"%char _
              Hs eq_refl eq_refl Hrem) as (s1 & H1 & Hr1 & _).
  destruct (_parse_till_unescaped_char_scanned (txt "/") s1 replace "/"%char _
              Hr eq_refl eq_refl Hr1) as (s2 & H2 & Hr2 & _).
  destruct (_parse_till_closing_brace_scanned s2 options rest Ho Hr2)
    as (s3 & H3 & Hr3).
  exists s3. split; [|exact Hr3].
  unfold transformation_scans, bind. rewrite H1, H2, H3. reflexivity.
Qed.

Lemma transformation_scans_plain s (search replace options rest : text) :
  remaining s = search ++ "/"%char :: replace ++ "/"%char :: options ++ "}"%char :: rest ->
  plain search = true -> without (txt "/") search = true ->
  plain replace = true -> without (txt "/") replace = true ->
  plain options = true -> open_throughout 1 options = true ->
  brace_depth 1 options = 1%Z ->
  exists s',
    transformation_scans s = Ok (search, replace, options) s' /\ remaining s' = rest.
Proof.
  intros Hrem Hps Hws Hpr Hwr Hpo Hoo Hdo.
  apply (transformation_scans_scanned s search replace options rest Hrem).
  - now apply plain_delimiter_scanned.
  - now apply plain_delimiter_scanned.
  - now apply plain_brace_scanned.
Qed.

(** X17: a transformation written in full, [${], digits of [string.digits],
    [/search/replace/], the options and [}], with a search pattern and a
    replacement without backslash and slash and with options without
    backslash whose braces are balanced.  When it has at most
    [max_str_digits] digits (4300, the limit of [int]) it is parsed into
    exactly these four parts, up to its closing brace; when it has more, the
    parse raises [ValueError] behind the digits. *)
Theorem transformation_is_parsed s (ds search replace options rest : text) :
  remaining s = txt "${" ++ ds ++ "/"%char :: search ++ "/"%char :: replace ++
                "/"%char :: options ++ "}"%char :: rest ->
  ds <> [] -> forallb is_digit ds = true ->
  plain search = true -> without (txt "/") search = true ->
  plain replace = true -> without (txt "/") replace = true ->
  plain options = true -> open_throughout 1 options = true ->
  brace_depth 1 options = 1%Z ->
  ((Z.of_nat (length ds) <= max_str_digits)%Z ->
   exists s',
     TransformationToken_parse s
     = Ok (Transformation (number_of ds) search replace options) s' /\
     remaining s' = rest) /\
  ((max_str_digits < Z.of_nat (length ds))%Z ->
   exists s',
     TransformationToken_parse s = Raise ValueError s' /\
     remaining s' = "/"%char :: search ++ "/"%char :: replace ++
                    "/"%char :: options ++ "}"%char :: rest).
Proof.
  intros Hrem Hne Hd Hps Hws Hpr Hwr Hpo Hoo Hdo.
  change (txt "${" ++ ds ++ ?x) with ("$"%char :: "{"%char :: (ds ++ x)) in Hrem.
  destruct (next_cons s _ _ Hrem) as (s1 & Hn1 & Hr1 & _).
  destruct (next_cons s1 _ _ Hr1) as (s2 & Hn2 & Hr2 & _).
  destruct (_parse_number_run s2 ds _ Hr2 Hd eq_refl) as (s3 & Hr3 & _ & Hp).
  split; intros Hl.
  - rewrite (py_int_digits ds Hne Hd Hl) in Hp.
    destruct (next_cons s3 _ _ Hr3) as (s4 & Hn4 & Hr4 & _).
    destruct (transformation_scans_plain s4 search replace options rest Hr4
                Hps Hws Hpr Hwr Hpo Hoo Hdo) as (s5 & Hs & Hr5).
    exists s5. split; [|exact Hr5].
    unfold TransformationToken_parse, TransformationToken_number, bind, ret.
    rewrite Hn1, Hn2, Hp, Hn4, Hs. reflexivity.
  - rewrite (py_int_long ds Hl) in Hp. exists s3. split; [|exact Hr3].
    unfold TransformationToken_parse, TransformationToken_number, bind.
    rewrite Hn1, Hn2, Hp. reflexivity.
Qed.

Lemma transformation_is_parsed_witness :
  exists s',
    TransformationToken_parse (_TextIterator__init__ (txt "${12/a b/c{d}/gi}x") origin)
    = Ok (Transformation 12 (txt "a b") (txt "c{d}") (txt "gi")) s' /\
    remaining s' = txt "x".
Proof.
  destruct (transformation_is_parsed
              (_TextIterator__init__ (txt "${12/a b/c{d}/gi}x") origin)
              (txt "12") (txt "a b") (txt "c{d}") (txt "gi") (txt "x")) as [H _];
    try reflexivity; [discriminate|].
  apply H. vm_compute. discriminate.
Defined.



(** X19: the code of a code token is the text between the opener and the
    next backtick, for code without backslash and backtick.  ShellCode opens
    with the backtick alone.  VimLCode opens with [`!v] and the one character
    behind it, whatever it is.  PythonCode opens with [`!p] and a space or tab
    behind it; any other character behind [`!p] is the first of the code. *)
Theorem code_tokens_are_parsed s (code rest : text) :
  plain code = true -> without (txt "`") code = true ->
  (remaining s = "`"%char :: code ++ "`"%char :: rest ->
   exists s', ShellCodeToken_parse s = Ok (ShellCode code) s' /\ remaining s' = rest) /\
  (forall w,
     remaining s = txt "`!v" ++ w :: code ++ "`"%char :: rest ->
     exists s', VimLCodeToken_parse s = Ok (VimLCode code) s' /\ remaining s' = rest) /\
  (forall w,
     remaining s = txt "`!p" ++ w :: code ++ "`"%char :: rest ->
     str_in [w] [TAB; " "%char] = true ->
     exists s', PythonCodeToken_parse [] s = Ok (PythonCode code []) s' /\
                remaining s' = rest) /\
  (remaining s = txt "`!p" ++ code ++ "`"%char :: rest ->
   code <> [] -> head_in [TAB; " "%char] code = false ->
   exists s', PythonCodeToken_parse [] s = Ok (PythonCode code []) s' /\
              remaining s' = rest).
Proof.
  intros Hp Hw.
  assert (Hscan : forall s0, remaining s0 = code ++ "`"%char :: rest ->
            exists s', _parse_till_unescaped_char (txt "`") s0 = Ok (code, "`"%char) s' /\
                       remaining s' = rest).
  { intros s0 Hrem.
    destruct (_parse_till_unescaped_char_plain (txt "`") s0 code "`"%char rest
                Hp Hw eq_refl eq_refl Hrem) as (s' & H & Hr & _).
    exists s'. auto. }
  split; [|split; [|split]].
  - intros Hrem.
    destruct (next_cons s _ _ Hrem) as (s1 & Hn1 & Hr1 & _).
    destruct (Hscan s1 Hr1) as (s2 & Hs & Hr2).
    exists s2. split; [|exact Hr2].
    unfold ShellCodeToken_parse, bind. rewrite Hn1, Hs. reflexivity.
  - intros w Hrem.
    change (txt "`!v" ++ w :: code ++ "`"%char :: rest)
      with ((txt "`!v" ++ [w]) ++ code ++ "`"%char :: rest) in Hrem.
    destruct (for_range_next_prefix _ s _ Hrem) as (s1 & Hf & Hr1 & _).
    destruct (Hscan s1 Hr1) as (s2 & Hs & Hr2).
    exists s2. split; [|exact Hr2].
    change (length (txt "`!v" ++ [w])) with 4 in Hf.
    unfold VimLCodeToken_parse, bind. rewrite Hf, Hs. reflexivity.
  - intros w Hrem Hsp.
    destruct (for_range_next_prefix (txt "`!p") s _ Hrem) as (s1 & Hf & Hr1 & _).
    destruct (next_cons s1 _ _ Hr1) as (s2 & Hn2 & Hr2 & _).
    destruct (Hscan s2 Hr2) as (s3 & Hs & Hr3).
    exists s3. split; [|exact Hr3].
    change (length (txt "`!p")) with 3 in Hf.
    unfold PythonCodeToken_parse, PythonCodeToken_scan, bind.
    rewrite Hf, (peek1_cons s1 _ _ Hr1), Hsp, Hn2. unfold ret. rewrite Hs. reflexivity.
  - intros Hrem Hne Hh.
    destruct code as [|w code']; [contradiction|].
    destruct (for_range_next_prefix (txt "`!p") s _ Hrem) as (s1 & Hf & Hr1 & _).
    destruct (Hscan s1 Hr1) as (s2 & Hs & Hr2).
    exists s2. split; [|exact Hr2].
    change (length (txt "`!p")) with 3 in Hf.
    unfold PythonCodeToken_parse, PythonCodeToken_scan, bind.
    unfold head_in in Hh.
    rewrite Hf, (peek1_cons s1 _ _ Hr1), Hh. unfold ret. rewrite Hs. reflexivity.
Qed.

Lemma code_tokens_are_parsed_witness :
  exists s',
    VimLCodeToken_parse (_TextIterator__init__ (txt "`!v g:x`y") origin)
    = Ok (VimLCode (txt "g:x")) s' /\ remaining s' = txt "y".
Proof.
  apply (proj1 (proj2 (code_tokens_are_parsed
                         (_TextIterator__init__ (txt "`!v g:x`y") origin)
                         (txt "g:x") (txt "y") eq_refl eq_refl)) " "%char).
  reflexivity.
Defined.

Lemma startswith_prefix (p t : text) :
  startswith p t = true <-> exists r, t = p ++ r.
Proof.
  revert t. induction p as [|a p IH]; intros t; simpl.
  - split; [intros _; now exists t | reflexivity].
  - destruct t as [|b t].
    + split; [discriminate | intros (r & H); discriminate].
    + rewrite andb_true_iff, char_eqb_eq, IH. split.
      * intros (-> & r & ->). now exists r.
      * intros (r & H). inversion H; subst. split; [reflexivity | now exists r].
Qed.

Lemma head_in_cons cs (t : text) :
  head_in cs t = true <-> exists c r, t = c :: r /\ str_in [c] cs = true.
Proof.
  destruct t as [|c t]; simpl.
  - split; [discriminate | intros (c & r & H & _); discriminate].
  - split.
    + intros H. now exists c, t.
    + intros (c' & r & H & Hc). now inversion H; subst.
Qed.

(** X20: the recognizers of the dollar match exactly these inputs, where a
    decimal digit is what [\d] matches: any decimal digit of Unicode, those
    of [string.digits] among them.  Transformation: [${], one to seven
    decimal digits, [/] (ten characters are looked at).  Mirror: a dollar and
    a decimal digit, whatever follows.  Visual: [${VISUAL] and one of [:],
    [}], [/]. *)
Theorem dollar_recognizers_match_exactly s :
  (starts_here TransformationToken s = Ok true s <->
   exists ds r,
     remaining s = txt "${" ++ ds ++ "/"%char :: r /\
     ds <> [] /\ forallb is_decimal ds = true /\ length ds <= 7) /\
  (starts_here MirrorToken s = Ok true s <->
   exists d r, remaining s = "$"%char :: d :: r /\ is_decimal d = true) /\
  (forall d, is_digit d = true -> is_decimal d = true) /\
  (starts_here VisualToken s = Ok true s <->
   exists c r, remaining s = txt "${VISUAL" ++ c :: r /\ str_in [c] (txt ":}/") = true).
Proof.
  assert (Hv : forall cls, cls <> EndOfTextToken ->
             (starts_here cls s = Ok true s <-> starts_here_value cls s = true)).
  { intros cls Hc. rewrite (starts_here_spec s Hc). split; [now inversion 1 | now intros ->]. }
  split; [|split; [|split; [exact is_digit_decimal|]]].
  - rewrite Hv by discriminate. unfold starts_here_value. split.
    + intros H. destruct (remaining s) as [|c0 [|c1 r0]]; try discriminate.
      rewrite !firstn_S_cons in H. unfold TransformationToken_CHECK in H.
      apply andb_true_iff in H as [H Hd]. apply andb_true_iff in H as [H0 H1].
      apply char_eqb_eq in H0, H1. subst c0 c1.
      unfold after_digits in Hd. pose proof (span_digits_spec (firstn 8 r0)) as Hs.
      destruct (span_digits (firstn 8 r0)) as [[|d ds] r']; [discriminate|].
      destruct Hs as (E & Hds & _).
      apply head_in_cons in Hd as (c & r'' & -> & Hc).
      rewrite str_in_char in Hc. simpl in Hc. rewrite orb_false_r in Hc.
      apply char_eqb_eq in Hc. subst c.
      assert (Hl : length (firstn 8 r0) <= 8) by apply firstn_le_length.
      rewrite E, length_app in Hl. simpl in Hl.
      exists (d :: ds), (r'' ++ skipn 8 r0). repeat split; auto; [|discriminate|simpl; lia].
      rewrite <- (firstn_skipn 8 r0) at 1. rewrite E. simpl.
      now rewrite <- app_assoc.
    + intros (ds & r & -> & Hne & Hd & Hl).
      change (firstn 10 (txt "${" ++ ds ++ "/"%char :: r))
        with ("$"%char :: "{"%char :: firstn 8 (ds ++ "/"%char :: r)).
      unfold TransformationToken_CHECK. rewrite !char_eqb_refl. cbn [andb].
      rewrite firstn_app, (firstn_all2 ds) by lia.
      replace (8 - length ds) with (S (7 - length ds)) by lia. rewrite firstn_S_cons.
      unfold after_digits. rewrite (span_digits_app ds "/"%char _ Hd eq_refl).
      destruct ds; [contradiction | reflexivity].
  - rewrite Hv by discriminate. unfold starts_here_value. split.
    + apply MirrorToken_CHECK_head.
    + intros (d & r & -> & Hd). rewrite !firstn_S_cons. unfold MirrorToken_CHECK.
      rewrite char_eqb_refl. unfold after_digits.
      destruct (span_digits_head d (firstn 8 r) Hd) as (x & y & -> & _). reflexivity.
  - rewrite Hv by discriminate. unfold starts_here_value, VisualToken_CHECK. split.
    + intros H. apply andb_true_iff in H as [Hp Hh].
      apply startswith_prefix in Hp as (r1 & E). rewrite E in Hh.
      change (skipn 8 (txt "${VISUAL" ++ r1)) with r1 in Hh.
      apply head_in_cons in Hh as (c & r2 & -> & Hc).
      exists c, (r2 ++ skipn 10 (remaining s)). split; [|exact Hc].
      rewrite <- (firstn_skipn 10 (remaining s)) at 1. rewrite E.
      rewrite <- app_assoc. reflexivity.
    + intros (c & r & -> & Hc).
      change (firstn 10 (txt "${VISUAL" ++ c :: r)) with (txt "${VISUAL" ++ c :: firstn 1 r).
      apply andb_true_iff. split.
      * apply startswith_prefix. now exists (c :: firstn 1 r).
      * change (skipn 8 (txt "${VISUAL" ++ c :: firstn 1 r)) with (c :: firstn 1 r).
        exact Hc.
Qed.

(* ------------------------------------------------------------------ *)
(** ** Further properties: what the lexer does not look at             *)
(* ------------------------------------------------------------------ *)

(** X21: what [peek] shows is what [next] returns: [peek(1)] returns the
    character that [next] consumes, and it returns [None] exactly where
    [next] raises [StopIteration]. *)
Theorem peek_shows_what_next_returns s :
  (forall c, peek 1 s = Ok (Some [c]) s <-> exists s', next s = Ok c s') /\
  (peek 1 s = Ok None s <-> next s = Raise StopIteration s).
Proof.
  split.
  - intros c. split.
    + intros H. rewrite peek_spec in H. unfold peek_value in H. simpl in H.
      destruct (remaining s) as [|c' r] eqn:Hrem; [discriminate|].
      inversion H; subst. destruct (next_cons s c r Hrem) as (s' & Hn & _). eauto.
    + intros (s' & Hn). destruct (next_Ok s Hn) as (Hnth & _).
      apply nth_error_skipn_cons in Hnth.
      exact (peek1_cons s c (skipn (S (_idx s)) (_text s)) Hnth).
  - split.
    + intros H. rewrite peek_spec in H. unfold peek_value in H. simpl in H.
      destruct (remaining s) as [|c' r] eqn:Hrem; [|discriminate].
      apply remaining_nil in Hrem. unfold next. apply Nat.leb_le in Hrem. now rewrite Hrem.
    + intros H. apply next_stops_at_the_end_aux in H as (_ & _ & Hrem).
      now apply peek1_nil.
Qed.

Section Respect.

Variable R : _TextIterator -> _TextIterator -> Prop.
Hypothesis R_next : respects R next.
Hypothesis R_peek : forall count, respects R (peek count).
Hypothesis R_left : forall s1 s2,
  R s1 s2 -> length (_text s1) - _idx s1 = length (_text s2) - _idx s2.

Lemma respects_ret (A : Type) (a : A) : respects R (ret a).
Proof. intros s1 s2 H. simpl. auto. Qed.

Lemma respects_raise (A : Type) e : respects R (@raise A e).
Proof. intros s1 s2 H. simpl. auto. Qed.

Lemma respects_bind (A B : Type) (m : M A) (k : A -> M B) :
  respects R m -> (forall a, respects R (k a)) -> respects R (bind m k).
Proof.
  intros Hm Hk s1 s2 H. unfold bind. specialize (Hm s1 s2 H).
  destruct (m s1) as [a s1'|e s1'|], (m s2) as [b s2'|e' s2'|]; simpl in Hm;
    try contradiction; auto.
  destruct Hm as [<- H']. now apply Hk.
Qed.

Lemma respects_try_except (A : Type) (m : M A) (h : exn -> M A) :
  respects R m -> (forall e, respects R (h e)) -> respects R (try_except m h).
Proof.
  intros Hm Hh s1 s2 H. unfold try_except. specialize (Hm s1 s2 H).
  destruct (m s1) as [a s1'|e s1'|], (m s2) as [b s2'|e' s2'|]; simpl in Hm;
    try contradiction; auto.
  destruct Hm as [<- H']. now apply Hh.
Qed.

Lemma respects_while_true (A B : Type) (body : A -> M (A + B)) :
  (forall a, respects R (body a)) ->
  forall fuel a, respects R (while_true fuel body a).
Proof.
  intros Hb. induction fuel as [|fuel IH]; intros a s1 s2 H; [exact I|].
  rewrite !while_true_S. specialize (Hb a s1 s2 H).
  destruct (body a s1) as [[a1|b1] s1'|e s1'|], (body a s2) as [[a2|b2] s2'|e' s2'|];
    simpl in Hb; try contradiction; auto; destruct Hb as [E H']; try discriminate.
  - inversion E; subst. now apply IH.
  - inversion E; subst. simpl. auto.
Qed.

Lemma respects_loop (A B : Type) (body : A -> M (A + B)) a :
  (forall a, respects R (body a)) -> respects R (loop body a).
Proof.
  intros Hb s1 s2 H. unfold loop. rewrite (R_left s1 s2 H).
  now apply respects_while_true.
Qed.

Lemma respects_for_range (A : Type) n (m : M A) :
  respects R m -> respects R (for_range n m).
Proof.
  intros Hm. induction n as [|n IH]; simpl.
  - apply respects_ret.
  - apply respects_bind; auto.
Qed.

Lemma respects_getitem (A : Type) (l : list A) i : respects R (getitem l i).
Proof.
  unfold getitem. destruct (nth_error l i); [apply respects_ret | apply respects_raise].
Qed.

Ltac respects_step :=
  match goal with
  | |- respects R (bind _ _) => apply respects_bind; [|intros ?]
  | |- respects R (ret _) => apply respects_ret
  | |- respects R (raise _) => apply respects_raise
  | |- respects R next => apply R_next
  | |- respects R (peek _) => apply R_peek
  | |- respects R (getitem _ _) => apply respects_getitem
  | |- respects R (for_range _ _) => apply respects_for_range
  | |- respects R (try_except _ _) => apply respects_try_except; [|intros ?]
  | |- respects R (loop _ _) => apply respects_loop; intros ?
  | |- respects R (match ?x with _ => _ end) => destruct x
  | |- respects R _ => solve [auto]
  end.

Ltac respects_tac := repeat respects_step.

Lemma respects_EscapeCharToken_starts_here chars :
  respects R (EscapeCharToken_starts_here chars).
Proof. unfold EscapeCharToken_starts_here. respects_tac. Qed.
#[local] Hint Resolve respects_EscapeCharToken_starts_here : core.

Lemma respects__parse_number : respects R _parse_number.
Proof. unfold _parse_number, _parse_number_body. respects_tac. Qed.
#[local] Hint Resolve respects__parse_number : core.

Lemma respects__parse_till_closing_brace : respects R _parse_till_closing_brace.
Proof.
  unfold _parse_till_closing_brace, _parse_till_closing_brace_body. respects_tac.
Qed.
#[local] Hint Resolve respects__parse_till_closing_brace : core.

Lemma respects_escaped_pairs chars v : respects R (escaped_pairs chars v).
Proof.
  revert v. induction chars as [|char chars IH]; intros v; simpl; respects_tac; apply IH.
Qed.
#[local] Hint Resolve respects_escaped_pairs : core.

Lemma respects__parse_till_unescaped_char chars :
  respects R (_parse_till_unescaped_char chars).
Proof.
  unfold _parse_till_unescaped_char, _parse_till_unescaped_char_body. respects_tac.
Qed.
#[local] Hint Resolve respects__parse_till_unescaped_char : core.

Lemma respects_starts_here cls : respects R (starts_here cls).
Proof. destruct cls; simpl; unfold check_here; respects_tac. Qed.

Lemma respects__parse cls indent : respects R (_parse cls indent).
Proof.
  destruct cls; simpl;
    unfold EscapeCharToken_parse, VisualToken_parse, VisualToken_alternative,
      TransformationToken_parse, TransformationToken_number, transformation_scans,
      TabStopToken_parse, skip_colon, MirrorToken_parse, PythonCodeToken_parse,
      PythonCodeToken_scan, strip_indent, VimLCodeToken_parse, ShellCodeToken_parse;
    respects_tac.
Qed.

End Respect.

Lemma same_ahead_next : respects same_ahead next.
Proof.
  intros s1 s2 (Hrem & Hpos). destruct (remaining s1) as [|c r] eqn:E1.
  - symmetry in Hrem.
    assert (N1 : next s1 = Raise StopIteration s1).
    { apply remaining_nil in E1. unfold next. apply Nat.leb_le in E1. now rewrite E1. }
    assert (N2 : next s2 = Raise StopIteration s2).
    { apply remaining_nil in Hrem. unfold next. apply Nat.leb_le in Hrem. now rewrite Hrem. }
    rewrite N1, N2. simpl. split; [reflexivity|]. split; congruence.
  - symmetry in Hrem.
    destruct (next_cons s1 c r E1) as (s1' & N1 & R1 & _).
    destruct (next_cons s2 c r Hrem) as (s2' & N2 & R2 & _).
    rewrite N1, N2. simpl. split; [reflexivity|]. split; [congruence|].
    destruct (next_Ok s1 N1) as (_ & _ & _ & L1 & O1).
    destruct (next_Ok s2 N2) as (_ & _ & _ & L2 & O2).
    unfold position in *. inversion Hpos as [[Hl Hc]].
    destruct (char_dec c LF) as [Ec|Ec].
    + destruct (L1 Ec) as [-> ->]. destruct (L2 Ec) as [-> ->]. now rewrite Hl.
    + destruct (O1 Ec) as [-> ->]. destruct (O2 Ec) as [-> ->]. now rewrite Hl, Hc.
Qed.

Lemma same_ahead_peek count : respects same_ahead (peek count).
Proof.
  intros s1 s2 H. rewrite !peek_spec. simpl. split; [|exact H].
  unfold peek_value. destruct H as [-> _]. reflexivity.
Qed.

Lemma same_ahead_left s1 s2 :
  same_ahead s1 s2 -> length (_text s1) - _idx s1 = length (_text s2) - _idx s2.
Proof. intros [H _]. rewrite <- !remaining_length. now rewrite H. Qed.

Lemma same_ahead_Token__init__ cls indent : respects same_ahead (Token__init__ cls indent).
Proof.
  unfold Token__init__. apply respects_bind.
  - intros s1 s2 H. simpl. split; [apply H | exact H].
  - intros start. apply respects_bind.
    + apply respects__parse; [exact same_ahead_next | exact same_ahead_peek
                             | exact same_ahead_left].
    + intros a. apply respects_bind; [|intros; apply respects_ret].
      intros s1 s2 H. simpl. split; [apply H | exact H].
Qed.

Lemma same_ahead_tokenize_round indent : respects same_ahead (tokenize_round indent).
Proof.
  unfold tokenize_round. apply respects_bind.
  - induction __ALLOWED_TOKENS as [|cls classes IH]; simpl; [apply respects_ret|].
    apply respects_bind.
    + apply respects_starts_here. exact same_ahead_peek.
    + intros [|]; [|exact IH].
      apply respects_bind; [apply same_ahead_Token__init__ | intros; apply respects_ret].
  - intros [t|]; [apply respects_ret|].
    apply respects_bind; [exact same_ahead_next | intros; apply respects_ret].
Qed.

(** Runs from two states with the same characters ahead at the same position
    yield the same tokens and end the same way. *)
Lemma run_same_ahead indent s1 evs1 o :
  run indent s1 evs1 o -> forall s2, same_ahead s1 s2 ->
  exists evs2, run indent s2 evs2 o /\ yielded evs2 = yielded evs1.
Proof.
  induction 1 as [s t s' evs o Hr _ IH | s c s' evs o Hr _ IH
                 | s s' t s'' Hr Ht | s e s' Hr Hne]; intros s2 H;
    pose proof (same_ahead_tokenize_round indent s s2 H) as Hs; rewrite Hr in Hs;
    destruct (tokenize_round indent s2) as [[t2|c2] s2'|e2 s2'|] eqn:E2;
    simpl in Hs; try contradiction; destruct Hs as [Ev Hs']; try discriminate.
  - inversion Ev; subst. destruct (IH s2' Hs') as (evs2 & R2 & Y2).
    exists (Yielded t2 (_idx s2) (_idx s2') :: evs2). split; [|simpl; now rewrite Y2].
    eapply run_yield; eauto.
  - inversion Ev; subst. destruct (IH s2' Hs') as (evs2 & R2 & Y2).
    exists (Discarded c2 :: evs2). split; [|exact Y2].
    eapply run_discard; eauto.
  - subst e2. rewrite EndOfTextToken__init__ in Ht. inversion Ht; subst.
    eexists. split.
    + eapply run_end; [exact E2 | apply EndOfTextToken__init__].
    + simpl. destruct Hs' as [_ ->]. reflexivity.
  - subst e2. exists []. split; [|reflexivity]. eapply run_abort; eauto.
Qed.

(** X22: the lexer never looks behind the iterator: once the driver has done
    some complete rounds on an input, it goes on as [tokenize] does on its own
    on the rest of the input with the position reached as the offset.  The
    tokens of the whole input are the tokens of the rounds followed by those
    of the rest. *)
Theorem tokenize_goes_on_as_on_the_rest t indent offset evs s :
  drives indent (_TextIterator__init__ t offset) evs s ->
  tokenize t indent offset =
  (yielded evs ++ fst (tokenize (remaining s) indent (position s)),
   snd (tokenize (remaining s) indent (position s))).
Proof.
  intros Hd. unfold tokenize at 2 3.
  destruct (tokenize_trace (remaining s) indent (position s)) as [evs2 o] eqn:E.
  apply tokenize_trace_run in E. simpl.
  destruct (run_same_ahead indent _ evs2 o E s) as (evs' & R' & Y').
  { split; reflexivity. }
  pose proof (drives_run Hd R') as Rall. apply tokenize_trace_run in Rall.
  unfold tokenize. rewrite Rall. now rewrite yielded_app, Y'.
Qed.

Lemma tokenize_goes_on_as_on_the_rest_witness :
  tokenize (txt "$1${2:b}") [] origin =
  ({| start := origin; attrs := Mirror 1; end_ := {| line := 0; col := 2 |} |}
   :: fst (tokenize (txt "${2:b}") [] {| line := 0; col := 2 |}),
   snd (tokenize (txt "${2:b}") [] {| line := 0; col := 2 |})).
Proof.
  pose (s0 := _TextIterator__init__ (txt "$1${2:b}") origin).
  pose (s := {| _text := txt "$1${2:b}"; _line := 0; _col := 2; _idx := 2 |}).
  pose (m := {| start := origin; attrs := Mirror 1; end_ := {| line := 0; col := 2 |} |}).
  apply (tokenize_goes_on_as_on_the_rest (txt "$1${2:b}") [] origin [Yielded m 0 2] s).
  apply (@drives_yield [] s0 m s [] s); [vm_compute; reflexivity | apply drives_here].
Defined.

Lemma same_place_next : respects same_place next.
Proof.
  intros s1 s2 (Ht & Hi). unfold next. rewrite Ht, Hi.
  destruct (length (_text s2) <=? _idx s2).
  - simpl. split; [reflexivity|]. split; assumption.
  - destruct (nth_error (_text s2) (_idx s2)) as [rv|].
    + destruct (in_tuple [rv] [[LF]; [CR; LF]]); simpl;
        (split; [reflexivity|]); split; simpl; congruence.
    + simpl. split; [reflexivity|]. split; assumption.
Qed.

Lemma same_place_peek count : respects same_place (peek count).
Proof.
  intros s1 s2 H. rewrite !peek_spec. simpl. split; [|exact H].
  unfold peek_value, remaining. destruct H as [-> ->]. reflexivity.
Qed.

Lemma same_place_left s1 s2 :
  same_place s1 s2 -> length (_text s1) - _idx s1 = length (_text s2) - _idx s2.
Proof. intros [-> ->]. reflexivity. Qed.

Lemma tokenize_round_eq indent s :
  tokenize_round indent s =
  match try_tokens __ALLOWED_TOKENS indent s with
  | Ok (Some t) s' => Ok (inl t) s'
  | Ok None s' => passing inr (next s')
  | Raise e s' => Raise e s'
  | OutOfFuel => OutOfFuel
  end.
Proof.
  unfold tokenize_round, bind, passing, ret.
  destruct (try_tokens __ALLOWED_TOKENS indent s) as [[t|] s'|e s'|]; try reflexivity;
    destruct (next s'); reflexivity.
Qed.

(** At the same place of the same text the rounds of the driver do the same
    thing, up to the positions that the tokens record. *)
Lemma same_place_tokenize_round indent s1 s2 :
  same_place s1 s2 ->
  match tokenize_round indent s1, tokenize_round indent s2 with
  | Ok (inl t1) s1', Ok (inl t2) s2' => attrs t1 = attrs t2 /\ same_place s1' s2'
  | Ok (inr c1) s1', Ok (inr c2) s2' => c1 = c2 /\ same_place s1' s2'
  | Raise e1 s1', Raise e2 s2' => e1 = e2 /\ same_place s1' s2'
  | OutOfFuel, OutOfFuel => True
  | _, _ => False
  end.
Proof.
  intros H. rewrite !tokenize_round_eq.
  assert (Htry : forall classes,
            match try_tokens classes indent s1, try_tokens classes indent s2 with
            | Ok (Some t1) s1', Ok (Some t2) s2' => attrs t1 = attrs t2 /\ same_place s1' s2'
            | Ok None s1', Ok None s2' => same_place s1' s2'
            | Raise e1 s1', Raise e2 s2' => e1 = e2 /\ same_place s1' s2'
            | OutOfFuel, OutOfFuel => True
            | _, _ => False
            end).
  { induction classes as [|cls classes IH]; [exact H|].
    rewrite !try_tokens_cons.
    pose proof (respects_starts_here same_place same_place_peek cls s1 s2 H) as Hs.
    pose proof (starts_here_state cls s1) as P1. pose proof (starts_here_state cls s2) as P2.
    destruct (starts_here cls s1) as [b1 s1'|e1 s1'|], (starts_here cls s2) as [b2 s2'|e2 s2'|];
      simpl in Hs; try contradiction; subst; [|exact Hs].
    destruct Hs as [<- _]. destruct b1; [|exact IH].
    unfold Token__init__, bind, pos, passing, ret.
    pose proof (respects__parse same_place same_place_next same_place_peek same_place_left
                  cls indent s1 s2 H) as Hp.
    destruct (_parse cls indent s1) as [a1 s1'|e1 s1'|],
             (_parse cls indent s2) as [a2 s2'|e2 s2'|];
      simpl in Hp; try contradiction; auto. }
  specialize (Htry __ALLOWED_TOKENS).
  destruct (try_tokens __ALLOWED_TOKENS indent s1) as [[t1|] s1'|e1 s1'|],
           (try_tokens __ALLOWED_TOKENS indent s2) as [[t2|] s2'|e2 s2'|];
    try contradiction; auto.
  unfold passing. pose proof (same_place_next s1' s2' Htry) as Hn.
  destruct (next s1') as [c1 s1''|e1 s1''|], (next s2') as [c2 s2''|e2 s2''|];
    simpl in Hn; try contradiction; auto.
Qed.

Lemma same_place_tokenize_loop indent fuel : forall s1 s2,
  same_place s1 s2 ->
  map attrs (yielded (fst (tokenize_loop fuel indent s1))) =
  map attrs (yielded (fst (tokenize_loop fuel indent s2))) /\
  snd (tokenize_loop fuel indent s1) = snd (tokenize_loop fuel indent s2).
Proof.
  induction fuel as [|fuel IH]; intros s1 s2 H; [split; reflexivity|]. simpl.
  pose proof (same_place_tokenize_round indent s1 s2 H) as Hr.
  destruct (tokenize_round indent s1) as [[t1|c1] s1'|e1 s1'|],
           (tokenize_round indent s2) as [[t2|c2] s2'|e2 s2'|];
    try contradiction; try (split; reflexivity).
  - destruct Hr as [Ea Hs]. destruct (IH s1' s2' Hs) as [IH1 IH2].
    destruct (tokenize_loop fuel indent s1'), (tokenize_loop fuel indent s2').
    simpl in *. split; [now rewrite Ea, IH1 | exact IH2].
  - destruct Hr as [_ Hs]. destruct (IH s1' s2' Hs) as [IH1 IH2].
    destruct (tokenize_loop fuel indent s1'), (tokenize_loop fuel indent s2').
    simpl in *. split; assumption.
  - destruct Hr as [<- Hs]. destruct e1; split; reflexivity.
Qed.

(** X23: the offset only moves positions: for every two offsets [tokenize]
    yields tokens of the same classes with the same attributes, in the same
    order, and ends the same way. *)
Theorem offset_only_moves_positions t indent offset offset' :
  map attrs (fst (tokenize t indent offset)) = map attrs (fst (tokenize t indent offset')) /\
  snd (tokenize t indent offset) = snd (tokenize t indent offset').
Proof.
  unfold tokenize, tokenize_trace.
  destruct (same_place_tokenize_loop indent
              (S (length (_text (_TextIterator__init__ t offset))))
              (_TextIterator__init__ t offset) (_TextIterator__init__ t offset'))
    as [H1 H2]; [split; reflexivity|].
  change (_text (_TextIterator__init__ t offset')) with (_text (_TextIterator__init__ t offset)).
  destruct (tokenize_loop _ indent (_TextIterator__init__ t offset)),
           (tokenize_loop _ indent (_TextIterator__init__ t offset')).
  simpl in *. auto.
Qed.

(* ------------------------------------------------------------------ *)
(** ** Further properties: what the scans return                      *)
(* ------------------------------------------------------------------ *)

(** The [for char in chars] loop, whatever is ahead: it takes escaped stop
    characters from the front of the text and never raises.  When it takes
    none, the iterator is as it was and no stop character of [chars] is
    escaped at the front. *)
Lemma escaped_pairs_takes (all : text) :
  forall chars (rv : text) b s,
    (forall x, str_in [x] chars = true -> str_in [x] all = true) ->
    exists (taken : text) s',
      escaped_pairs chars (rv, b) s
      = Ok (rv ++ taken, b || negb (length taken =? 0)) s' /\
      remaining s = taken ++ remaining s' /\
      (forall body : text,
         delimiter_scanned all (taken ++ body) = delimiter_scanned all body) /\
      (taken = [] ->
       s' = s /\
       forall y z (r : text),
         remaining s = y :: z :: r -> char_eqb y backslash && str_in [z] chars = false).
Proof.
  induction chars as [|char chars IH]; intros rv b s Hincl.
  - exists [], s. rewrite app_nil_r, orb_false_r.
    repeat split; auto. intros y z r _. apply andb_false_r.
  - rewrite escaped_pairs_cons, EscapeCharToken_starts_here_spec.
    assert (Hincl' : forall x, str_in [x] chars = true -> str_in [x] all = true).
    { intros x Hx. apply Hincl. rewrite str_in_cons, Hx. apply orb_true_r. }
    destruct (match firstn 2 (remaining s) with
              | [c0; c1] => char_eqb c0 backslash && str_in [c1] [char]
              | _ => false
              end) eqn:E.
    + destruct (remaining s) as [|y [|z r]] eqn:Hrem; cbn [firstn] in E; try discriminate.
      apply andb_true_iff in E as [Ey Ez]. apply char_eqb_eq in Ey. subst y.
      assert (Hz : str_in [z] all = true).
      { apply Hincl. rewrite str_in_cons. rewrite str_in_cons in Ez.
        cbn [str_in startswith] in Ez. rewrite orb_false_r in Ez. now rewrite Ez. }
      destruct (next_cons s _ _ Hrem) as (s1 & Hn1 & Hr1 & Ht1).
      destruct (next_cons s1 _ _ Hr1) as (s2 & Hn2 & Hr2 & Ht2).
      rewrite Hn1, Hn2. cbn [fst].
      destruct (IH (rv ++ [backslash; z]) true s2 Hincl')
        as (taken & s' & Hp & Hr' & Hd' & _).
      exists (backslash :: z :: taken), s'. split.
      { etransitivity; [exact Hp|]. rewrite <- app_assoc.
        cbn [orb app length Nat.eqb negb]. now rewrite orb_true_r. }
      split; [cbn [app]; now rewrite <- Hr2, Hr'|]. split; [|intros F; discriminate].
      intros body. cbn [app delimiter_scanned]. rewrite char_eqb_refl, Hz. apply Hd'.
    + destruct (IH rv b s Hincl') as (taken & s' & Hp & Hr' & Hd' & Hcl).
      exists taken, s'. repeat split; auto; try (now apply Hcl).
      intros y z r Hyz. destruct (Hcl H) as [_ Hcl'].
      rewrite str_in_cons, andb_orb_distrib_r, (Hcl' y z r Hyz), orb_false_r.
      rewrite Hyz in E. cbn [firstn] in E. rewrite str_in_cons in E.
      cbn [str_in startswith] in E. now rewrite orb_false_r in E.
Qed.

(** Whatever the loop of [_parse_till_unescaped_char] returns is a text that
    the scan takes whole, in front of the stop character that it returns. *)
Lemma _parse_till_unescaped_char_loop_returns chars fuel :
  forall (rv : text) s (rv' : text) c s',
    while_true fuel (_parse_till_unescaped_char_body chars) rv s = Ok (rv', c) s' ->
    exists body : text,
      rv' = rv ++ body /\ delimiter_scanned chars body = true /\
      str_in [c] chars = true /\ remaining s = body ++ c :: remaining s'.
Proof.
  induction fuel as [|fuel IH]; intros rv s rv' c s' H; [discriminate|].
  rewrite while_true_S in H.
  destruct (escaped_pairs_takes chars chars rv false s (fun x Hx => Hx))
    as (taken & s1 & Hp & Hr1 & Hd1 & Hcl).
  unfold _parse_till_unescaped_char_body, bind at 1 in H. rewrite Hp in H.
  destruct taken as [|t0 taken].
  - destruct (Hcl eq_refl) as [-> Hno]. cbn [length Nat.eqb negb orb] in H.
    rewrite app_nil_r in H. unfold bind in H.
    destruct (next s) as [y s2|e s2|] eqn:Hn; try discriminate.
    destruct (next_Ok s Hn) as (Hnth & _).
    pose proof (nth_error_skipn_cons _ _ Hnth) as Hrem. fold (remaining s) in Hrem.
    destruct (next_cons s _ _ Hrem) as (s2' & Hn' & Hr2 & _).
    assert (s2' = s2) by congruence. subst s2'. rewrite <- Hr2 in Hrem.
    destruct (str_in [y] chars) eqn:Hy.
    + inversion H; subst. exists []. rewrite app_nil_r.
      repeat split; auto.
    + destruct (IH _ _ _ _ _ H) as (body & -> & Hd & Hc & Hr).
      exists (y :: body). rewrite <- app_assoc. split; [reflexivity|].
      rewrite Hr in Hrem.
      split; [|split; [exact Hc | exact Hrem]].
      cbn [delimiter_scanned]. destruct body as [|z body].
      * rewrite Hy. cbn [negb]. rewrite andb_true_r. apply negb_true_iff.
        simpl in Hrem.
        pose proof (Hno y c _ Hrem) as F. rewrite Hc, andb_true_r in F. exact F.
      * simpl in Hrem. rewrite (Hno y z _ Hrem), Hy. exact Hd.
  - cbn [length Nat.eqb negb orb] in H. unfold ret in H.
    destruct (IH _ _ _ _ _ H) as (body & -> & Hd & Hc & Hr).
    exists ((t0 :: taken) ++ body). rewrite app_assoc. split; [reflexivity|].
    split; [now rewrite Hd1|]. split; [exact Hc|].
    rewrite Hr1, Hr. now rewrite <- app_assoc.
Qed.

(** X24: the delimiter scan returns exactly the texts that it takes whole.
    In front of such a text and a stop character, which is no backslash, it
    returns the text as it is, escapes included, with the stop character and
    stops behind it.  Whatever it returns, as text and stop character, is
    such a text with that stop character behind it at the front of the
    input.  A text is taken whole ([delimiter_scanned]) when, read from the
    left, every stop character in it is escaped by a backslash and it does not
    end in a backslash that would escape the stop character behind it. *)
Theorem delimiter_scan_returns_exactly chars s :
  (forall (body : text) c (rest : text),
     delimiter_scanned chars body = true ->
     char_eqb c backslash = false -> str_in [c] chars = true ->
     remaining s = body ++ c :: rest ->
     exists s',
       _parse_till_unescaped_char chars s = Ok (body, c) s' /\ remaining s' = rest) /\
  (forall (rv : text) c s',
     _parse_till_unescaped_char chars s = Ok (rv, c) s' ->
     delimiter_scanned chars rv = true /\ str_in [c] chars = true /\
     remaining s = rv ++ c :: remaining s').
Proof.
  split.
  - intros body c rest Hd Hc Hin Hrem.
    destruct (_parse_till_unescaped_char_scanned chars s body c rest Hd Hc Hin Hrem)
      as (s' & H & Hr & _).
    exists s'. auto.
  - intros rv c s' H. unfold _parse_till_unescaped_char, loop in H.
    destruct (_parse_till_unescaped_char_loop_returns chars _ [] s rv c s' H)
      as (body & -> & Hd & Hc & Hr).
    auto.
Qed.

Lemma delimiter_scan_returns_exactly_witness :
  exists s',
    _parse_till_unescaped_char (txt "/}") (_TextIterator__init__ (txt "a\/\}b\c}d") origin)
    = Ok (txt "a\/\}b\c", "}"%char) s' /\ remaining s' = txt "d".
Proof.
  apply (proj1 (delimiter_scan_returns_exactly (txt "/}")
                  (_TextIterator__init__ (txt "a\/\}b\c}d") origin))
           (txt "a\/\}b\c") "}"%char (txt "d")); reflexivity.
Defined.

(** Whatever the loop of [_parse_till_closing_brace] returns, entered at a
    depth of one or more, is a text that the scan takes whole, in front of
    the closing brace. *)
Lemma _parse_till_closing_brace_loop_returns fuel :
  forall (rv : text) depth s (rv' : text) s',
    (1 <= depth)%Z ->
    while_true fuel _parse_till_closing_brace_body (rv, depth) s = Ok rv' s' ->
    exists body : text,
      rv' = rv ++ body /\ brace_scanned depth body = true /\
      remaining s = body ++ "}"%char :: remaining s'.
Proof.
  induction fuel as [|fuel IH]; intros rv depth s rv' s' Hdepth H; [discriminate|].
  rewrite while_true_S in H.
  destruct (remaining s) as [|y r] eqn:Hrem.
  - unfold _parse_till_closing_brace_body, bind at 1 in H.
    rewrite EscapeCharToken_starts_here_spec, Hrem in H. cbn [firstn] in H.
    unfold bind in H. apply remaining_nil in Hrem. unfold next in H.
    apply Nat.leb_le in Hrem. rewrite Hrem in H. discriminate.
  - destruct (char_eqb y backslash && head_in (txt "{}") r) eqn:E.
    + apply andb_true_iff in E as [Ey Ez]. apply char_eqb_eq in Ey. subst y.
      destruct r as [|z r]; [discriminate|]. cbn [head_in] in Ez.
      destruct (_parse_till_closing_brace_body_escape rv depth s z r Hrem Ez)
        as (s1 & Hs & Hr1 & _).
      rewrite Hs in H.
      destruct (IH _ _ _ _ _ Hdepth H) as (body & -> & Hb & Hr).
      exists (backslash :: z :: body). rewrite <- app_assoc. split; [reflexivity|].
      split; [|cbn [app]; now rewrite <- Hr, Hr1].
      cbn [delimiter_scanned brace_scanned]. now rewrite char_eqb_refl, Ez.
    + destruct (_parse_till_closing_brace_body_step rv depth s y r Hrem E)
        as (s1 & Hs & Hr1 & _).
      rewrite Hs in H.
      assert (Hstep : (depth - 1 <= brace_step depth y)%Z).
      { unfold brace_step. destruct (char_eqb y "{"); [lia|].
        destruct (char_eqb y "}"); lia. }
      destruct (brace_step depth y =? 0)%Z eqn:Ez.
      * inversion H; subst. apply Z.eqb_eq in Ez. exists []. rewrite app_nil_r.
        split; [reflexivity|].
        assert (Hy : y = "}"%char /\ depth = 1%Z).
        { unfold brace_step in Ez, Hstep.
          destruct (char_eqb y "{"); [lia|].
          destruct (char_eqb y "}") eqn:Ec; [|lia].
          apply char_eqb_eq in Ec. split; [exact Ec | lia]. }
        destruct Hy as [-> ->]. split; reflexivity.
      * apply Z.eqb_neq in Ez.
        destruct (IH _ _ _ _ _ (ltac:(lia) : (1 <= brace_step depth y)%Z) H)
          as (body & -> & Hb & Hr).
        exists (y :: body). rewrite <- app_assoc. split; [reflexivity|].
        split; [|cbn [app]; now rewrite <- Hr, Hr1].
        cbn [brace_scanned]. destruct body as [|z body].
        -- cbn [brace_scanned] in Hb. rewrite Hb, andb_true_r. apply negb_true_iff.
           rewrite Hr in Hr1. simpl in Hr1. rewrite <- Hr1 in E.
           cbn [head_in] in E. change (str_in ["}"%char] (txt "{}")) with true in E.
           now rewrite andb_true_r in E.
        -- rewrite Hr in Hr1. simpl in Hr1. rewrite <- Hr1 in E. cbn [head_in] in E.
           rewrite E. apply andb_true_iff. split; [|exact Hb].
           apply negb_true_iff. now apply Z.eqb_neq.
Qed.

(** X25: the balanced-brace scan returns exactly the texts that it takes
    whole.  In front of such a text and a closing brace it returns the text as
    it is, escapes included, and stops behind the brace.  Whatever it returns
    is such a text, with a closing brace behind it at the front of the input:
    in the text that is returned the braces that are not escaped are
    balanced.  A text is taken whole ([brace_scanned]) when, read from the
    left with escaped braces skipped, the depth does not come down to zero
    within it and is one at its end, and it does not end in a backslash that
    would escape the closing brace. *)
Theorem brace_scan_returns_exactly s :
  (forall body rest : text,
     brace_scanned 1 body = true ->
     remaining s = body ++ "}"%char :: rest ->
     exists s', _parse_till_closing_brace s = Ok body s' /\ remaining s' = rest) /\
  (forall (rv : text) s',
     _parse_till_closing_brace s = Ok rv s' ->
     brace_scanned 1 rv = true /\ remaining s = rv ++ "}"%char :: remaining s').
Proof.
  split.
  - intros body rest. apply _parse_till_closing_brace_scanned.
  - intros rv s' H. unfold _parse_till_closing_brace, loop in H.
    destruct (_parse_till_closing_brace_loop_returns _ [] 1%Z s rv s' (Z.le_refl 1) H)
      as (body & -> & Hb & Hr).
    auto.
Qed.

Lemma brace_scan_returns_exactly_witness :
  exists s',
    _parse_till_closing_brace (_TextIterator__init__ (txt "a\}{b\{}c}d") origin)
    = Ok (txt "a\}{b\{}c") s' /\ remaining s' = txt "d".
Proof.
  apply (proj1 (brace_scan_returns_exactly (_TextIterator__init__ (txt "a\}{b\{}c}d") origin))
           (txt "a\}{b\{}c") (txt "d")); reflexivity.
Defined.
